(** * fdm3t: transient 3D finite-difference groundwater model

    A shallow embedding of [src/fdm/fdm3t.py]: the function [fdm3t] and the
    constructor of the class [Fdm3t].

    Numbers.  The program computes with numpy's float64.  The model is
    written once over an interface [Num] of the arithmetic the program uses
    (constants, the four operations, negation, [<], infinity and NaN) and is
    instantiated twice: at Rocq's primitive binary64 floats, where the model
    runs with the same arithmetic as the program, and at the rationals
    extended with the two infinities and NaN, where rounding is abstracted
    and the algebraic identities of the conductance matrix can be stated.

    Library functions.  [np.log], [np.pi] and scipy's [spsolve] are not part
    of the repository; they are parameters of the model.  Sparse matrices
    are kept in coordinate form, a list of (row, column, value) entries whose
    duplicates add up, which is the meaning scipy gives to the triplets handed
    to [csc_matrix]. *)

From Stdlib Require Import ZArith QArith Qcanon PrimFloat.
From stdpp Require Import base option list gmap strings pretty.

Close Scope Qc_scope.
Close Scope Q_scope.
Open Scope nat_scope.

(** ** Arithmetic interface *)

Class Num (F : Type) := {
  f0 : F;                      (* 0.0 *)
  f1 : F;                      (* 1.0 *)
  f2 : F;                      (* 2.0 *)
  fhalf : F;                   (* 0.5 *)
  ftenth : F;                  (* 0.1 *)
  ftiny : F;                   (* 1e-20 *)
  finf : F;                    (* np.inf *)
  fnan : F;                    (* np.nan *)
  fadd : F → F → F;
  fsub : F → F → F;
  fmul : F → F → F;
  fdiv : F → F → F;
  fopp : F → F;
  fltb : F → F → bool;         (* a < b *)
  (* the floor written into the conductivities is not below itself *)
  fltb_tiny_irrefl : fltb ftiny ftiny = false
}.

(** ** Exceptions and results *)

Inductive exn :=
| AssertionError (msg : string)
| ValueError (msg : string)
| AttributeError (msg : string)
| InputError                    (* declared by the module, raised nowhere *)
| SolverError.                  (* [spsolve] did not return *)

Inductive result (A : Type) :=
| Ok (a : A)
| Raise (e : exn).
Arguments Ok {A} a.
Arguments Raise {A} e.

#[global] Instance result_ret : MRet result := λ A a, Ok a.
#[global] Instance result_bind : MBind result := λ A B f r,
  match r with Ok a => f a | Raise e => Raise e end.

Definition is_ok {A} (r : result A) : bool :=
  match r with Ok _ => true | Raise _ => false end.

(** ** numpy arrays *)

(** An [ndarray] is its shape and its elements in row-major (C) order; numpy
    keeps [length data = product shape]. *)
Record ndarray (A : Type) := { shape : list nat; data : list A }.
Arguments shape {A} _.
Arguments data {A} _.

Definition nd_size (s : list nat) : nat := foldr Nat.mul 1 s.

Definition nd_wf {A} (a : ndarray A) : Prop := length (data a) = nd_size (shape a).

(** Python's [repr] of a tuple of ints, as [str.format] prints a shape. *)
Definition repr_shape (s : list nat) : string :=
  match s with
  | [] => "()"
  | [n] => "(" +:+ pretty n +:+ ",)"
  | n :: s' => "(" +:+ pretty n +:+ foldr (λ m acc, ", " +:+ pretty m +:+ acc) ")" s'
  end.

(** Flat position of cell (z, y, x) in an array whose two last axes have
    lengths [ny] and [nx]. *)
Definition idx3 (ny nx z y x : nat) : nat := (z * ny + y) * nx + x.

(** The array of shape (nz, ny, nx) whose element (z, y, x) is [f z y x]. *)
Definition tab3 {A} (nz ny nx : nat) (f : nat → nat → nat → A) : list A :=
  (λ i, f (i / (ny * nx)) (i / nx mod ny) (i mod nx)) <$> seq 0 (nz * ny * nx).

(** Element selection by a boolean mask, [v[m]]. *)
Fixpoint mask_select {A} (m : list bool) (v : list A) : list A :=
  match m, v with
  | b :: m', a :: v' => if b then a :: mask_select m' v' else mask_select m' v'
  | _, _ => []
  end.

(** Scatter: [v[m] = xs] with one element of [xs] for each true of [m]. *)
Fixpoint mask_scatter {A} (v : list A) (m : list bool) (xs : list A) : list A :=
  match v, m with
  | a :: v', b :: m' =>
      if b then
        match xs with
        | x :: xs' => x :: mask_scatter v' m' xs'
        | [] => a :: mask_scatter v' m' []
        end
      else a :: mask_scatter v' m' xs
  | _, _ => v
  end.

(** [v[m] = c] for a scalar [c]. *)
Definition mask_fill {A} (v : list A) (m : list bool) (c : A) : list A :=
  zip_with (λ a (b : bool), if b then c else a) v m.

Definition count_true (m : list bool) : nat := length (filter (λ b, b = true) m).

(** Position of element [j] of [v] inside [v[m]]. *)
Definition rank (m : list bool) (j : nat) : nat := count_true (take j m).

(** [v[m] = xs] as numpy does it: [xs] has one value for each selected
    place, or a single value that is broadcast; anything else is refused. *)
Definition mask_assign {A} (v : list A) (m : list bool) (xs : list A) : result (list A) :=
  if decide (length xs = count_true m) then Ok (mask_scatter v m xs)
  else match xs with
       | [c] => Ok (mask_fill v m c)
       | _ => Raise (ValueError "NumPy boolean array indexing assignment cannot assign input values to the output values")
       end.

(** Assignment of a 1-D array to a row of length [n], [row[:] = v]. *)
Definition row_assign {A} (n : nat) (v : list A) : result (list A) :=
  if decide (length v = n) then Ok v
  else match v with
       | [c] => Ok (replicate n c)
       | _ => Raise (ValueError "could not broadcast input array")
       end.

(** ** The grid object

    Modelled from the spec: the grid class ([Grid], made by the caller) is
    not in the repository.  The record holds the attributes [fdm3t] reads;
    [shape] and [nod] are the grid's (nz, ny, nx) and nz*ny*nx. *)
Record Grid (F : Type) := {
  axial : bool;
  nz : nat; ny : nat; nx : nat;
  dx : list F;              (* nx column widths *)
  dy : list F;              (* ny row widths *)
  DZ : list F;              (* cell heights, shape (nz, ny, nx) *)
  Volume : list F;          (* cell volumes, shape (nz, ny, nx) *)
  gx : list F;              (* gr.x, the nx+1 column boundaries *)
  xm : list F;              (* the nx column centres *)
  NOD : list nat            (* cell numbers, shape (nz, ny, nx) *)
}.
Arguments axial {F} _.
Arguments nz {F} _.
Arguments ny {F} _.
Arguments nx {F} _.
Arguments dx {F} _.
Arguments dy {F} _.
Arguments DZ {F} _.
Arguments Volume {F} _.
Arguments gx {F} _.
Arguments xm {F} _.
Arguments NOD {F} _.

Definition gr_shape {F} (gr : Grid F) : list nat := [nz gr; ny gr; nx gr].
Definition gr_nod {F} (gr : Grid F) : nat := nz gr * ny gr * nx gr.

(** Modelled from the spec: the grid class is not in the repository.  A
    grid object has its attributes in the sizes of the grid: [nx] column
    widths, [ny] row widths, [nx + 1] column boundaries, [nx] column
    centres, and a height, a volume and a number below [nod] for each of
    the [nod] cells. *)
Definition grid_wf {F} (gr : Grid F) : Prop :=
  length (dx gr) = nx gr ∧ length (dy gr) = ny gr
  ∧ length (gx gr) = nx gr + 1 ∧ length (xm gr) = nx gr
  ∧ length (DZ gr) = gr_nod gr ∧ length (Volume gr) = gr_nod gr
  ∧ length (NOD gr) = gr_nod gr ∧ Forall (λ i, i < gr_nod gr) (NOD gr).

(** ** Sparse matrices in coordinate form *)

Record spmatrix (F : Type) := {
  sp_rows : nat;
  sp_cols : nat;
  sp_entries : list (nat * nat * F)
}.
Arguments sp_rows {F} _.
Arguments sp_cols {F} _.
Arguments sp_entries {F} _.

Definition e_row {F} (e : nat * nat * F) : nat := e.1.1.
Definition e_col {F} (e : nat * nat * F) : nat := e.1.2.
Definition e_val {F} (e : nat * nat * F) : F := e.2.

Definition row_entries {F} (i : nat) (es : list (nat * nat * F)) : list (nat * nat * F) :=
  filter (λ e, e_row e = i) es.

(** Results of a solve, the dictionary [fdm3t] returns.  Every array is
    kept as a list of time slices, each slice flat in row-major order. *)
Record Out (F : Type) := {
  out_t : list F;
  Phi : list (list F);
  Q : list (list F);
  Qs : list (list F);
  Qx : list (list F);
  Qy : list (list F);
  Qz : list (list F)
}.
Arguments out_t {F} _.
Arguments Phi {F} _.
Arguments Q {F} _.
Arguments Qs {F} _.
Arguments Qx {F} _.
Arguments Qy {F} _.
Arguments Qz {F} _.

(** The argument [kxyz]: a tuple or a list of arrays, or one array.  Arrays
    are passed by reference: a [nat] names a place of the store. *)
Inductive kxyz_arg :=
| KTuple (l : list nat)
| KList (l : list nat)
| KArray (a : nat).

(** ** The model *)

Section Model.
Context {F : Type} {HN : Num F}.

(** Library functions the repository calls. *)
Variable np_pi : F.
Variable np_log : F → F.
Variable spsolve : spmatrix F → list F → option (list F).

Definition at_ (l : list F) (i : nat) : F := default f0 (l !! i).
Definition cell (ny nx : nat) (a : list F) (z y x : nat) : F := at_ a (idx3 ny nx z y x).

Definition fsum (l : list F) : F := foldl fadd f0 l.

(** [np.diff(t)] *)
Definition np_diff (t : list F) : list F := zip_with fsub (tail t) t.

(** *** Sparse matrix operations *)

(** [csc_matrix((data, (rows, cols)), (n, n))] *)
Definition csc_matrix (data : list F) (rows cols : list nat) (n : nat) : result (spmatrix F) :=
  if forallb (λ i, i <? n) rows && forallb (λ j, j <? n) cols
  then Ok {| sp_rows := n; sp_cols := n; sp_entries := zip (zip rows cols) data |}
  else Raise (ValueError "index exceeds matrix dimensions").

Definition sp_neg (M : spmatrix F) : spmatrix F :=
  {| sp_rows := sp_rows M; sp_cols := sp_cols M;
     sp_entries := (λ e, (e.1, fopp e.2)) <$> sp_entries M |}.

Definition sp_add (M N : spmatrix F) : spmatrix F :=
  {| sp_rows := sp_rows M; sp_cols := sp_cols M;
     sp_entries := sp_entries M ++ sp_entries N |}.

(** [sp.diags(d)] *)
Definition sp_diags (d : list F) : spmatrix F :=
  {| sp_rows := length d; sp_cols := length d;
     sp_entries := imap (λ i v, (i, i, v)) d |}.

(** Element (i, j): the duplicates of a place add up. *)
Definition sp_get (M : spmatrix F) (i j : nat) : F :=
  fsum (e_val <$> filter (λ e, e_col e = j) (row_entries i (sp_entries M))).

(** [np.array(M.sum(axis=1)).ravel()] *)
Definition sp_row_sums (M : spmatrix F) : list F :=
  (λ i, fsum (e_val <$> row_entries i (sp_entries M))) <$> seq 0 (sp_rows M).

(** [M.dot(v)] *)
Definition sp_dot (M : spmatrix F) (v : list F) : list F :=
  (λ i, fsum ((λ e, fmul (e_val e) (at_ v (e_col e))) <$> row_entries i (sp_entries M)))
    <$> seq 0 (sp_rows M).

(** [M[:, m]]: the columns selected by the mask, renumbered. *)
Definition sp_take_cols (M : spmatrix F) (m : list bool) : spmatrix F :=
  {| sp_rows := sp_rows M; sp_cols := count_true m;
     sp_entries := (λ e, (e_row e, rank m (e_col e), e_val e))
                     <$> filter (λ e, m !! e_col e = Some true) (sp_entries M) |}.

(** [M[m]]: the rows selected by the mask, renumbered. *)
Definition sp_take_rows (M : spmatrix F) (m : list bool) : spmatrix F :=
  {| sp_rows := count_true m; sp_cols := sp_cols M;
     sp_entries := (λ e, (rank m (e_row e), e_col e, e_val e))
                     <$> filter (λ e, m !! e_row e = Some true) (sp_entries M) |}.

(** *** Half-cell resistances and conductances (lines 92-121) *)

(** [x = gr.x.copy(); x[0] = x[0] if x[0]>0 else 0.1*x[1]] *)
Definition guard_x (x : list F) : list F :=
  <[0 := if fltb f0 (at_ x 0) then at_ x 0 else fmul ftenth (at_ x 1)]> x.

Record resistances := {
  Rx1 : list F; Rx2 : list F;
  Ry1 : list F; Ry2 : list F;
  Rz1 : list F; Rz2 : list F
}.

(** The resistances in axial mode, from the guarded boundaries [x]. *)
Definition axial_Rx1 (gr : Grid F) (kx x : list F) : list F :=
  tab3 (nz gr) (ny gr) (nx gr) (λ z y c,
    fmul (fdiv f1 (fmul (fmul (fmul f2 np_pi) (cell (ny gr) (nx gr) kx z y c))
                        (cell (ny gr) (nx gr) (DZ gr) z y c)))
         (np_log (fdiv (at_ x (c + 1)) (at_ (xm gr) c)))).

Definition axial_Rx2 (gr : Grid F) (kx x : list F) : list F :=
  tab3 (nz gr) (ny gr) (nx gr) (λ z y c,
    fmul (fdiv f1 (fmul (fmul (fmul f2 np_pi) (cell (ny gr) (nx gr) kx z y c))
                        (cell (ny gr) (nx gr) (DZ gr) z y c)))
         (np_log (fdiv (at_ (xm gr) c) (at_ x c)))).

Definition half_resistances (gr : Grid F) (kx ky kz : list F) (inact : list bool)
    : resistances :=
  let n3 := cell (ny gr) (nx gr) in
  if negb (axial gr) then
    let Rx1 := tab3 (nz gr) (ny gr) (nx gr) (λ z y c,
      fdiv (fdiv (fmul fhalf (at_ (dx gr) c)) (fmul (at_ (dy gr) y) (n3 (DZ gr) z y c)))
           (n3 kx z y c)) in
    let Ry1 := tab3 (nz gr) (ny gr) (nx gr) (λ z y c,
      fdiv (fdiv (fmul fhalf (at_ (dy gr) y)) (fmul (n3 (DZ gr) z y c) (at_ (dx gr) c)))
           (n3 ky z y c)) in
    let Rz1 := tab3 (nz gr) (ny gr) (nx gr) (λ z y c,
      fdiv (fdiv (fmul fhalf (n3 (DZ gr) z y c)) (fmul (at_ (dx gr) c) (at_ (dy gr) y)))
           (n3 kz z y c)) in
    (* Rx2 is the same array as Rx1: it is filled twice *)
    let Rx := mask_fill (mask_fill Rx1 inact finf) inact finf in
    let Ry := mask_fill Ry1 inact finf in
    let Rz := mask_fill Rz1 inact finf in
    {| Rx1 := Rx; Rx2 := Rx; Ry1 := Ry; Ry2 := Ry; Rz1 := Rz; Rz2 := Rz |}
  else
    let x := guard_x (gx gr) in
    let Ry1 := tab3 (nz gr) (ny gr) (nx gr) (λ _ _ _, fmul finf f1) in
    let Rz1 := tab3 (nz gr) (ny gr) (nx gr) (λ z y c,
      fdiv (fmul fhalf (n3 (DZ gr) z y c))
           (fmul (fmul np_pi (fsub (fmul (at_ (gx gr) (c + 1)) (at_ (gx gr) (c + 1)))
                                   (fmul (at_ (gx gr) c) (at_ (gx gr) c))))
                 (n3 kz z y c))) in
    let Ry := mask_fill Ry1 inact finf in
    let Rz := mask_fill Rz1 inact finf in
    {| Rx1 := mask_fill (axial_Rx1 gr kx x) inact finf;
       Rx2 := mask_fill (axial_Rx2 gr kx x) inact finf;
       Ry1 := Ry; Ry2 := Ry; Rz1 := Rz; Rz2 := Rz |}.

(** [Cx = 1 / (Rx1[:,:,1:] + Rx2[:,:,:-1])] and the like. *)
Definition conductance_x (gr : Grid F) (R : resistances) : list F :=
  tab3 (nz gr) (ny gr) (nx gr - 1) (λ z y c,
    fdiv f1 (fadd (cell (ny gr) (nx gr) (Rx1 R) z y (c + 1)) (cell (ny gr) (nx gr) (Rx2 R) z y c))).

Definition conductance_y (gr : Grid F) (R : resistances) : list F :=
  tab3 (nz gr) (ny gr - 1) (nx gr) (λ z y c,
    fdiv f1 (fadd (cell (ny gr) (nx gr) (Ry1 R) z (y + 1) c) (cell (ny gr) (nx gr) (Ry2 R) z y c))).

Definition conductance_z (gr : Grid F) (R : resistances) : list F :=
  tab3 (nz gr - 1) (ny gr) (nx gr) (λ z y c,
    fdiv f1 (fadd (cell (ny gr) (nx gr) (Rz1 R) (z + 1) y c) (cell (ny gr) (nx gr) (Rz2 R) z y c))).

(** *** Storage term and system matrix (lines 123-143) *)

(** [Cs = (Ss * gr.Volume / epsilon).ravel()] *)
Definition storage (gr : Grid F) (Ss : list F) (epsilon : F) : list F :=
  zip_with (λ s v, fdiv (fmul s v) epsilon) Ss (Volume gr).

Definition nod_at (gr : Grid F) (z y x : nat) : nat :=
  default 0 (NOD gr !! idx3 (ny gr) (nx gr) z y x).

(** Neighbour cell numbers, already ravelled. *)
Definition IW (gr : Grid F) : list nat := tab3 (nz gr) (ny gr) (nx gr - 1) (λ z y c, nod_at gr z y c).
Definition IE (gr : Grid F) : list nat := tab3 (nz gr) (ny gr) (nx gr - 1) (λ z y c, nod_at gr z y (c + 1)).
Definition IN (gr : Grid F) : list nat := tab3 (nz gr) (ny gr - 1) (nx gr) (λ z y c, nod_at gr z y c).
Definition IS (gr : Grid F) : list nat := tab3 (nz gr) (ny gr - 1) (nx gr) (λ z y c, nod_at gr z (y + 1) c).
Definition IT (gr : Grid F) : list nat := tab3 (nz gr - 1) (ny gr) (nx gr) (λ z y c, nod_at gr z y c).
Definition IB (gr : Grid F) : list nat := tab3 (nz gr - 1) (ny gr) (nx gr) (λ z y c, nod_at gr (z + 1) y c).

(** The matrix of line 138, before its sign is changed: the conductances
    at the places (IE, IW), (IW, IE), (IN, IS), (IS, IN), (IB, IT), (IT, IB). *)
Definition conductance_matrix (gr : Grid F) (Cx Cy Cz : list F) : result (spmatrix F) :=
  csc_matrix (Cx ++ Cx ++ Cy ++ Cy ++ Cz ++ Cz)
             (IE gr ++ IW gr ++ IN gr ++ IS gr ++ IB gr ++ IT gr)
             (IW gr ++ IE gr ++ IS gr ++ IN gr ++ IT gr ++ IB gr)
             (gr_nod gr).

(** [A = -A + sp.diags(np.array(A.sum(axis=1)).ravel())] *)
Definition system_matrix (A0 : spmatrix F) : spmatrix F :=
  sp_add (sp_neg A0) (sp_diags (sp_row_sums A0)).

(** *** One time step (the body of the loop, lines 167-189) *)

(** What the loop reads and does not change. *)
Record setup := {
  s_gr : Grid F;
  s_A : spmatrix F;
  s_Cx : list F; s_Cy : list F; s_Cz : list F;
  s_Cs : list F;
  s_active : list bool; s_inact : list bool; s_fxhd : list bool;
  s_epsilon : F
}.

(** The results of one step: the head at its end and the flows during it. *)
Record step_out := {
  st_Phi : list F;
  st_Q : list F; st_Qs : list F;
  st_Qx : list F; st_Qy : list F; st_Qz : list F
}.

(** Element-wise operations of two 1-D arrays; a one-element array is
    broadcast, other length differences are refused. *)
Definition np_op (op : F → F → F) (a b : list F) : result (list F) :=
  if decide (length a = length b) then Ok (zip_with op a b)
  else match a, b with
       | [c], _ => Ok (op c <$> b)
       | _, [c] => Ok ((λ v, op v c) <$> a)
       | _, _ => Raise (ValueError "operands could not be broadcast together")
       end.

(** The matrix and the right-hand side handed to [spsolve] (lines 170-173). *)
Definition step_operator (s : setup) (dt : F) : spmatrix F :=
  sp_add (s_A s) (sp_diags ((λ c, fdiv c dt) <$> s_Cs s)).

Definition step_RHS (s : setup) (FQ : list F) (dt : F) (Phi_prev : list F) : result (list F) :=
  np_op fsub FQ
    (sp_dot (sp_take_cols (step_operator s dt) (s_fxhd s)) (mask_select (s_fxhd s) Phi_prev)).

Definition step_matrix (s : setup) (dt : F) : spmatrix F :=
  sp_take_cols (sp_take_rows (step_operator s dt) (s_active s)) (s_active s).

Definition step_vector (s : setup) (dt : F) (Phi_prev RHS : list F) : list F :=
  zip_with fadd (mask_select (s_active s) RHS)
    (zip_with fmul ((λ c, fdiv c dt) <$> mask_select (s_active s) (s_Cs s))
                   (mask_select (s_active s) Phi_prev)).

Definition face_flows_x (gr : Grid F) (Cx Phi_it : list F) : list F :=
  tab3 (nz gr) (ny gr) (nx gr - 1) (λ z y c,
    fmul (fopp (fsub (cell (ny gr) (nx gr) Phi_it z y (c + 1)) (cell (ny gr) (nx gr) Phi_it z y c)))
         (cell (ny gr) (nx gr - 1) Cx z y c)).

Definition face_flows_y (gr : Grid F) (Cy Phi_it : list F) : list F :=
  tab3 (nz gr) (ny gr - 1) (nx gr) (λ z y c,
    fmul (fsub (cell (ny gr) (nx gr) Phi_it z (y + 1) c) (cell (ny gr) (nx gr) Phi_it z y c))
         (cell (ny gr - 1) (nx gr) Cy z y c)).

Definition face_flows_z (gr : Grid F) (Cz Phi_it : list F) : list F :=
  tab3 (nz gr - 1) (ny gr) (nx gr) (λ z y c,
    fmul (fsub (cell (ny gr) (nx gr) Phi_it (z + 1) y c) (cell (ny gr) (nx gr) Phi_it z y c))
         (cell (ny gr) (nx gr) Cz z y c)).

Definition time_step (s : setup) (FQ : list F) (dt : F) (Phi_prev : list F) : result step_out :=
  let n := gr_nod (s_gr s) in
  RHS ← step_RHS s FQ dt Phi_prev;
  match spsolve (step_matrix s dt) (step_vector s dt Phi_prev RHS) with
  | None => Raise SolverError
  | Some sol =>
      (* Phi[it] is a row of zeros until the solution is written into it *)
      Phi_it ← mask_assign (replicate n f0) (s_active s) sol;
      let Q := sp_dot (s_A s) Phi_it in
      let Qs := zip_with fmul ((λ c, fdiv (fopp c) dt) <$> s_Cs s) (zip_with fsub Phi_it Phi_prev) in
      let Qx := face_flows_x (s_gr s) (s_Cx s) Phi_it in
      let Qy := face_flows_y (s_gr s) (s_Cy s) Phi_it in
      let Qz := face_flows_z (s_gr s) (s_Cz s) Phi_it in
      (* update head to end of time step *)
      Phi_a ← mask_assign Phi_it (s_active s)
                (zip_with fadd (mask_select (s_active s) Phi_prev)
                   ((λ d, fdiv d (s_epsilon s))
                      <$> mask_select (s_active s) (zip_with fsub Phi_it Phi_prev)));
      Phi_f ← mask_assign Phi_a (s_fxhd s) (mask_select (s_fxhd s) Phi_prev);
      let Phi_n := mask_fill Phi_f (s_inact s) fnan in
      Ok {| st_Phi := Phi_n; st_Q := Q; st_Qs := Qs; st_Qx := Qx; st_Qy := Qy; st_Qz := Qz |}
  end.

(** The loop over [np.diff(t)]: each step starts from the head the
    previous one left; an exception of a step ends the call. *)
Fixpoint time_loop (s : setup) (FQ : list F) (dts : list F) (Phi_prev : list F)
    : result (list step_out) :=
  match dts with
  | [] => Ok []
  | dt :: dts' =>
      o ← time_step s FQ dt Phi_prev;
      os ← time_loop s FQ dts' (st_Phi o);
      Ok (o :: os)
  end.

(** *** The function [fdm3t] *)

(** The caller's float arrays live in a store and are handed over by
    reference, so that writes through an argument are seen by the caller. *)
Definition deref (σ : gmap nat (ndarray F)) (l : nat) (attr : string) : result (ndarray F) :=
  match σ !! l with
  | Some a => Ok a
  | None => Raise (AttributeError ("'NoneType' object has no attribute '" +:+ attr +:+ "'"))
  end.

(** Lines 69-72. *)
Definition unpack_kxyz (kxyz : kxyz_arg) : result (nat * nat * nat) :=
  match kxyz with
  | KTuple [a; b; c] => Ok (a, b, c)
  | KTuple _ => Raise (ValueError "wrong number of values to unpack")
  | KList _ => Raise (AttributeError "'list' object has no attribute 'shape'")
  | KArray a => Ok (a, a, a)
  end.

Definition shape_message (name : string) (s g : list nat) : string :=
  "shape of " +:+ name +:+ " " +:+ repr_shape s +:+ " differs from that of model " +:+ repr_shape g.

Definition check_shape (σ : gmap nat (ndarray F)) (gr : Grid F) (name : string) (l : nat)
    : result unit :=
  a ← deref σ l "shape";
  if decide (shape a = gr_shape gr) then Ok ()
  else Raise (AssertionError (shape_message name (shape a) (gr_shape gr))).

(** Lines 69-81: the checks before anything is computed. *)
Definition validate (σ : gmap nat (ndarray F)) (gr : Grid F) (kxyz : kxyz_arg) (lSs : nat)
    : result (nat * nat * nat) :=
  k ← unpack_kxyz kxyz;
  _ ← check_shape σ gr "kx" k.1.1;
  _ ← check_shape σ gr "ky" k.1.2;
  _ ← check_shape σ gr "kz" k.2;
  _ ← check_shape σ gr "Ss" lSs;
  Ok k.

(** Lines 83-85: [k[k<1e-20] = 1e-20], written into the caller's array. *)
Definition clamp (v : F) : F := if fltb v ftiny then ftiny else v.

Definition clamp_array (a : ndarray F) : ndarray F :=
  {| shape := shape a; data := clamp <$> data a |}.

Definition clamp_store (σ : gmap nat (ndarray F)) (k : nat * nat * nat) : gmap nat (ndarray F) :=
  alter clamp_array k.2 (alter clamp_array k.1.2 (alter clamp_array k.1.1 σ)).

(** Lines 87-143: masks, conductances, storage term and system matrix. *)
Definition build_setup (gr : Grid F) (kx ky kz Ss : list F) (ib : list Z) (epsilon : F)
    : result setup :=
  let active := (λ v, bool_decide (0 < v)%Z) <$> ib in
  let inact := (λ v, bool_decide (v = 0)%Z) <$> ib in
  let fxhd := (λ v, bool_decide (v < 0)%Z) <$> ib in
  let R := half_resistances gr kx ky kz inact in
  let Cx := conductance_x gr R in
  let Cy := conductance_y gr R in
  let Cz := conductance_z gr R in
  A0 ← conductance_matrix gr Cx Cy Cz;
  Ok {| s_gr := gr; s_A := system_matrix A0; s_Cx := Cx; s_Cy := Cy; s_Cz := Cz;
        s_Cs := storage gr Ss epsilon;
        s_active := active; s_inact := inact; s_fxhd := fxhd; s_epsilon := epsilon |}.

(** Lines 87-196, after the conductivities were clamped. *)
Definition solve (σ : gmap nat (ndarray F)) (gr : Grid F) (t : list F) (k : nat * nat * nat)
    (lSs lFQ lHI : nat) (IBOUND : ndarray Z) (epsilon : F) : result (Out F) :=
  kx ← deref σ k.1.1 "shape";
  ky ← deref σ k.1.2 "shape";
  kz ← deref σ k.2 "shape";
  Ss ← deref σ lSs "shape";
  (* IBOUND.reshape(gr.nod,) *)
  ib ← (if decide (length (data IBOUND) = gr_nod gr) then Ok (data IBOUND)
        else Raise (ValueError "cannot reshape array"));
  (* lines 92-93: np.reshape(gr.dx, (1, 1, gr.nx)), np.reshape(gr.dy, (1, gr.ny, 1)) *)
  _ ← (if decide (length (dx gr) = nx gr ∧ length (dy gr) = ny gr) then Ok ()
       else Raise (ValueError "cannot reshape array"));
  s ← build_setup gr (data kx) (data ky) (data kz) (data Ss) ib epsilon;
  (* lines 146-152: np.zeros refuses a negative dimension *)
  _ ← (if decide (t = [] ∨ nz gr = 0 ∨ ny gr = 0 ∨ nx gr = 0)
       then Raise (ValueError "negative dimensions are not allowed") else Ok ());
  FQ ← deref σ lFQ "ravel";
  HI ← deref σ lHI "ravel";
  (* Phi[0] = HI *)
  Phi0 ← row_assign (gr_nod gr) (data HI);
  os ← time_loop s (data FQ) (np_diff t) Phi0;
  Ok {| out_t := t; Phi := Phi0 :: (st_Phi <$> os);
        Q := st_Q <$> os; Qs := st_Qs <$> os;
        Qx := st_Qx <$> os; Qy := st_Qy <$> os; Qz := st_Qz <$> os |}.

Definition fdm3t (σ : gmap nat (ndarray F)) (gr : Grid F) (t : list F) (kxyz : kxyz_arg)
    (Ss FQ HI : nat) (IBOUND : ndarray Z) (epsilon : F)
    : gmap nat (ndarray F) * result (Out F) :=
  match validate σ gr kxyz Ss with
  | Raise e => (σ, Raise e)
  | Ok k =>
      let σ' := clamp_store σ k in
      (σ', solve σ' gr t k Ss FQ HI IBOUND epsilon)
  end.

(** *** The class [Fdm3t] *)

Record Fdm3t := {
  self_gr : Grid F;
  self_t : list F;
  self_Kh : nat;
  self_Kv : nat;
  self_Ss : nat;
  self_FQ : nat;
  self_HI : nat;
  self_IBOUND : ndarray Z;
  self_out : Out F
}.

(** Lines 250-262. *)
Definition class_kxyz (kxyz : kxyz_arg) : result (nat * nat) :=
  match kxyz with
  | KTuple l | KList l =>
      match l with
      | [Kh; _; Kv] => Ok (Kh, Kv)
      | [Kh; Kv] => Ok (Kh, Kv)
      | [Kh] => Ok (Kh, Kh)
      | _ => Raise (ValueError "Can't understand input kxyz, use (Kx, Kz) tuple")
      end
  | KArray a => Ok (a, a)
  end.

(** [assert np.all(gr.shape == a.shape), msg] *)
Definition assert_shape (σ : gmap nat (ndarray F)) (gr : Grid F) (l : nat) (msg : string)
    : result unit :=
  a ← deref σ l "shape";
  if decide (gr_shape gr = shape a) then Ok () else Raise (AssertionError msg).

(** Lines 264-268; the fourth assertion tests [Ss] under the name of [HI]. *)
Definition class_asserts (σ : gmap nat (ndarray F)) (gr : Grid F) (kxyz : kxyz_arg)
    (Ss FQ : nat) (IBOUND : ndarray Z) : result (nat * nat) :=
  K ← class_kxyz kxyz;
  _ ← assert_shape σ gr K.1 "gr.shape != Kh.shape";
  _ ← assert_shape σ gr K.2 "gr.shape != Kv.shape";
  _ ← assert_shape σ gr FQ "gr.shape != FQ.shape";
  _ ← assert_shape σ gr Ss "gr.shape != HI.shape";
  _ ← (if decide (gr_shape gr = shape IBOUND) then Ok ()
       else Raise (AssertionError "gr.shape != IBOUND.shape"));
  Ok K.

(** [Fdm3t.__init__]: stores its arguments, runs the model at once and
    keeps the results in [self.out]. *)
Definition Fdm3t__init__ (σ : gmap nat (ndarray F)) (gr : Grid F) (t : list F)
    (kxyz : kxyz_arg) (Ss FQ HI : nat) (IBOUND : ndarray Z) (epsilon : F)
    : gmap nat (ndarray F) * result Fdm3t :=
  match class_asserts σ gr kxyz Ss FQ IBOUND with
  | Raise e => (σ, Raise e)
  | Ok K =>
      let r := fdm3t σ gr t (KTuple [K.1; K.1; K.2]) Ss FQ HI IBOUND f1 in
      (r.1,
       out ← r.2;
       Ok {| self_gr := gr; self_t := t; self_Kh := K.1; self_Kv := K.2; self_Ss := Ss;
             self_FQ := FQ; self_HI := HI; self_IBOUND := IBOUND; self_out := out |})
  end.

End Model.

Arguments resistances : clear implicits.
Arguments setup : clear implicits.
Arguments step_out : clear implicits.
Arguments Fdm3t : clear implicits.
Arguments Rx1 {F} _.
Arguments Rx2 {F} _.
Arguments Ry1 {F} _.
Arguments Ry2 {F} _.
Arguments Rz1 {F} _.
Arguments Rz2 {F} _.
Arguments s_gr {F} _.
Arguments s_A {F} _.
Arguments s_Cx {F} _.
Arguments s_Cy {F} _.
Arguments s_Cz {F} _.
Arguments s_Cs {F} _.
Arguments s_active {F} _.
Arguments s_inact {F} _.
Arguments s_fxhd {F} _.
Arguments s_epsilon {F} _.
Arguments st_Phi {F} _.
Arguments st_Q {F} _.
Arguments st_Qs {F} _.
Arguments st_Qx {F} _.
Arguments st_Qy {F} _.
Arguments st_Qz {F} _.
Arguments self_out {F} _.

(** ** A dense direct solver

    A stand-in for [spsolve] with which the model can be run: Gauss-Jordan
    elimination on the dense form of the matrix, in the arithmetic of [F]. *)

Section Solver.
Context {F : Type} {HN : Num F}.

Definition dense (M : spmatrix F) : list (list F) :=
  (λ i, (λ j, sp_get M i j) <$> seq 0 (sp_cols M)) <$> seq 0 (sp_rows M).

Definition eliminate (k : nat) (rows : list (list F)) : list (list F) :=
  match rows !! k with
  | None => rows
  | Some prow =>
      let prow' := (λ v, fdiv v (at_ prow k)) <$> prow in
      imap (λ i r, if decide (i = k) then prow'
                   else zip_with (λ a b, fsub a (fmul (at_ r k) b)) r prow') rows
  end.

Definition gauss_jordan (n : nat) (rows : list (list F)) : list (list F) :=
  foldl (λ rs k, eliminate k rs) rows (seq 0 n).

Definition dense_solve (M : spmatrix F) (b : list F) : option (list F) :=
  let aug := zip_with (λ r bi, r ++ [bi]) (dense M) b in
  Some ((λ r, at_ r (sp_rows M)) <$> gauss_jordan (sp_rows M) aug).
End Solver.

(** ** binary64 arithmetic *)

#[global] Instance float_num : Num float := {|
  f0 := 0%float; f1 := 1%float; f2 := 2%float;
  fhalf := 0.5%float; ftenth := 0x1.999999999999ap-4%float;
  ftiny := 0x1.79ca10c924223p-67%float;
  finf := infinity; fnan := nan;
  fadd := PrimFloat.add; fsub := PrimFloat.sub;
  fmul := PrimFloat.mul; fdiv := PrimFloat.div;
  fopp := PrimFloat.opp; fltb := PrimFloat.ltb;
  fltb_tiny_irrefl := eq_refl
|}.

(** ** Exact arithmetic: rationals with the infinities and NaN *)

Inductive xq :=
| Fin (q : Qc)
| PInf
| NInf
| NaN.

Definition qc_sign (q : Qc) : comparison := Qccompare q (Q2Qc 0).

Definition xq_opp (a : xq) : xq :=
  match a with
  | Fin q => Fin (Qcopp q)
  | PInf => NInf
  | NInf => PInf
  | NaN => NaN
  end.

Definition xq_add (a b : xq) : xq :=
  match a, b with
  | Fin p, Fin q => Fin (Qcplus p q)
  | NaN, _ | _, NaN => NaN
  | PInf, NInf | NInf, PInf => NaN
  | PInf, _ | _, PInf => PInf
  | NInf, _ | _, NInf => NInf
  end.

Definition xq_sub (a b : xq) : xq := xq_add a (xq_opp b).

(** An infinity scaled by the sign of a finite factor; zero times infinity
    is NaN. *)
Definition xq_scale (s : comparison) (a : xq) : xq :=
  match s with
  | Gt => a
  | Lt => xq_opp a
  | Eq => NaN
  end.

Definition xq_mul (a b : xq) : xq :=
  match a, b with
  | Fin p, Fin q => Fin (Qcmult p q)
  | NaN, _ | _, NaN => NaN
  | Fin p, i => xq_scale (qc_sign p) i
  | i, Fin q => xq_scale (qc_sign q) i
  | PInf, PInf | NInf, NInf => PInf
  | PInf, NInf | NInf, PInf => NInf
  end.

Definition xq_div (a b : xq) : xq :=
  match a, b with
  | Fin p, Fin q =>
      match qc_sign q with
      | Eq => xq_scale (qc_sign p) PInf       (* 1/0 = inf, 0/0 = nan *)
      | _ => Fin (Qcdiv p q)
      end
  | NaN, _ | _, NaN => NaN
  | Fin _, _ => Fin (Q2Qc 0)
  | i, Fin q => match qc_sign q with Lt => xq_opp i | _ => i end
  | _, _ => NaN
  end.

Definition xq_ltb (a b : xq) : bool :=
  match a, b with
  | Fin p, Fin q => match Qccompare p q with Lt => true | _ => false end
  | NaN, _ | _, NaN => false
  | _, NInf => false
  | NInf, _ => true
  | PInf, _ => false
  | _, PInf => true
  end.

Definition xq_eqb (a b : xq) : bool :=
  match a, b with
  | Fin p, Fin q => Qeq_bool p q
  | PInf, PInf | NInf, NInf | NaN, NaN => true
  | _, _ => false
  end.

Definition is_fin (a : xq) : bool :=
  match a with Fin _ => true | _ => false end.

(** The rational a finite value stands for. *)
Definition fin_val (a : xq) : Qc :=
  match a with Fin q => q | _ => Q2Qc 0 end.

#[global] Instance xq_num : Num xq := {|
  f0 := Fin (Q2Qc 0); f1 := Fin (Q2Qc 1); f2 := Fin (Q2Qc 2);
  fhalf := Fin (Q2Qc (1 # 2)); ftenth := Fin (Q2Qc (1 # 10));
  ftiny := Fin (Q2Qc (1 # 100000000000000000000));
  finf := PInf; fnan := NaN;
  fadd := xq_add; fsub := xq_sub; fmul := xq_mul; fdiv := xq_div;
  fopp := xq_opp; fltb := xq_ltb;
  fltb_tiny_irrefl := eq_refl
|}.

(** A solver that answers only with an exact solution: the result of the
    elimination is put back into the system and compared. *)
Definition exact_solve (M : spmatrix xq) (b : list xq) : option (list xq) :=
  match dense_solve M b with
  | Some x =>
      if forallb is_fin x && forallb (λ p, xq_eqb p.1 p.2) (zip (sp_dot M x) b)
         && (length x =? sp_cols M) && (length b =? sp_rows M)
      then Some x else None
  | None => None
  end.

(** ** A small model to run

    One layer, one row, three columns of unit cells: a fixed-head cell, an
    active cell and an inactive cell.  Conductivity 1 (0 in the inactive
    cell), specific storage 1, no prescribed flow, initial heads 0, 9, 7. *)

Definition pi64 : float := 0x1.921fb54442d18p+1%float.

(** The model below is Cartesian: [np.log] is not called. *)
Definition log_unused : float → float := λ _, nan.

Definition gr3 : Grid float := {|
  axial := false; nz := 1; ny := 1; nx := 3;
  dx := [1; 1; 1]%float; dy := [1]%float;
  DZ := [1; 1; 1]%float; Volume := [1; 1; 1]%float;
  gx := [0; 1; 2; 3]%float; xm := [0.5; 1.5; 2.5]%float;
  NOD := [0; 1; 2]
|}.

Definition arr3 {A} (v : list A) : ndarray A := {| shape := [1; 1; 3]; data := v |}.

(** Places of the caller's arrays. *)
Definition l_K : nat := 0.
Definition l_Ss : nat := 1.
Definition l_FQ : nat := 2.
Definition l_HI : nat := 3.

Definition store3 : gmap nat (ndarray float) :=
  <[l_K := arr3 [1; 1; 0]%float]>
  (<[l_Ss := arr3 [1; 1; 1]%float]>
  (<[l_FQ := arr3 [0; 0; 0]%float]>
  (<[l_HI := arr3 [0; 9; 7]%float]> ∅))).

Definition IBOUND3 : ndarray Z := arr3 [-1; 1; 0]%Z.

Definition run3 (t : list float) : gmap nat (ndarray float) * result (Out float) :=
  fdm3t pi64 log_unused dense_solve store3 gr3 t (KArray l_K) l_Ss l_FQ l_HI IBOUND3 1%float.

(** The store after a solve: the zero conductivity was raised to the floor. *)
Definition store3' : gmap nat (ndarray float) :=
  <[l_K := arr3 [1; 1; ftiny]%float]> store3.

(** What the solve over the times 0, 1, 2 returns. *)
Definition out3 : Out float := {|
  out_t := [0; 1; 2]%float;
  Phi := [[0; 9; 7]; [0; 4.5; nan]; [0; 2.25; nan]]%float;
  Q := [[-4.5; 4.5; 0]; [-2.25; 2.25; 0]]%float;
  Qs := [[-0; 4.5; 7]; [-0; 2.25; nan]]%float;
  Qx := [[-4.5; 0]; [-2.25; 0]]%float;
  Qy := [[]; []];
  Qz := [[]; []]
|}.

(** ** Properties of a solve, as the specification words them *)

(** Fixed-head invariance: at every time index the head of a cell with
    IBOUND < 0 is its value in [hi]. *)
Definition fixed_heads_kept {F} (IBOUND : ndarray Z) (hi : list F) (out : Out F) : Prop :=
  ∀ it row c v, Phi out !! it = Some row → data IBOUND !! c = Some v → (v < 0)%Z →
    row !! c = hi !! c.

(** Inactive masking from time index [first] on: the head of a cell with
    IBOUND = 0 is NaN. *)
Definition inactive_nan_from {F} `{Num F} (first : nat) (IBOUND : ndarray Z) (out : Out F)
    : Prop :=
  ∀ it row c, first ≤ it → Phi out !! it = Some row → data IBOUND !! c = Some 0%Z →
    row !! c = Some fnan.

(** The exceptions of numpy, scipy and the interpreter, as opposed to the
    assertions [fdm3t] makes itself. *)
Definition numeric_failure (e : exn) : Prop :=
  match e with
  | ValueError _ | AttributeError _ | SolverError => True
  | AssertionError _ | InputError => False
  end.

(** ** Variations of the small model *)

(** The initial heads handed over as a column, shape (3, 1, 1). *)
Definition store3_HI_column : gmap nat (ndarray float) :=
  <[l_HI := {| shape := [3; 1; 1]; data := [0; 9; 7]%float |}]> store3.

(** The specific storage handed over as a column. *)
Definition store3_Ss_column : gmap nat (ndarray float) :=
  <[l_Ss := {| shape := [3; 1; 1]; data := [1; 1; 1]%float |}]> store3.

(** The conductivities handed over as a column. *)
Definition store3_K_column : gmap nat (ndarray float) :=
  <[l_K := {| shape := [3; 1; 1]; data := [1; 1; 0]%float |}]> store3.

(** What a solve with the single time [t0] returns. *)
Definition out3_start (t0 : float) : Out float := {|
  out_t := [t0]; Phi := [[0; 9; 7]%float];
  Q := []; Qs := []; Qx := []; Qy := []; Qz := []
|}.

(** What the solve over the times 2, 0 returns: one step with dt = -2. *)
Definition out3_backwards : Out float := {|
  out_t := [2; 0]%float;
  Phi := [[0; 9; 7]; [0; -9; nan]]%float;
  Q := [[9; -9; 0]]%float;
  Qs := [[0; -9; -3.5]]%float;
  Qx := [[9; -0]]%float;
  Qy := [[]];
  Qz := [[]]
|}.

(** The object [Fdm3t(gr3, [0, 1, 2], K, ...)] is after its construction. *)
Definition self3 : Fdm3t float := {|
  self_gr := gr3; self_t := [0; 1; 2]%float;
  self_Kh := l_K; self_Kv := l_K; self_Ss := l_Ss; self_FQ := l_FQ; self_HI := l_HI;
  self_IBOUND := IBOUND3; self_out := out3
|}.

(** What the solve over the times 0, 2 returns: one step with dt = 2. *)
Definition out3_one_step : Out float := {|
  out_t := [0; 2]%float;
  Phi := [[0; 9; 7]; [0; 3; nan]]%float;
  Q := [[-3; 3; 0]]%float;
  Qs := [[-0; 3; 3.5]]%float;
  Qx := [[-3; 0]]%float;
  Qy := [[]];
  Qz := [[]]
|}.

(** The store for a second solve that starts from the heads [phi] the
    first one ended with: a new array at the place [l]. *)
Definition restart_store {F} (σ : gmap nat (ndarray F)) (gr : Grid F) (l : nat) (phi : list F)
    : gmap nat (ndarray F) :=
  <[l := {| shape := gr_shape gr; data := phi |}]> σ.

(** ** An axial model to run *)

(** A stand-in for [np.log] with which the axial branch can be run in
    binary64: ln x = 2 atanh u with u = (x-1)/(x+1), the series of atanh cut
    after 41 terms. *)
Fixpoint atanh_horner (n : nat) (d u2 acc : float) : float :=
  match n with
  | 0 => acc
  | S n' => atanh_horner n' (d - 2) u2 (1 / (d - 2) + u2 * acc)
  end%float.

Definition ln_series (x : float) : float :=
  let u := ((x - 1) / (x + 1))%float in
  (2 * u * atanh_horner 40 81 (u * u) (1 / 81))%float.

(** One layer, one row, two rings with the boundaries r = 0, 1, 2: the
    innermost boundary radius is zero. *)
Definition gr_axial : Grid float := {|
  axial := true; nz := 1; ny := 1; nx := 2;
  dx := [1; 1]%float; dy := [1]%float;
  DZ := [1; 1]%float; Volume := [pi64; 3 * pi64]%float;
  gx := [0; 1; 2]%float; xm := [0.5; 1.5]%float;
  NOD := [0; 1]
|}.

(** ** The grid as a network of faces *)

(** The numbering [np.arange(nod).reshape(shape)] of the cells. *)
Definition standard_numbering {F} (gr : Grid F) : Prop := NOD gr = seq 0 (gr_nod gr).

Section Faces.
Context {F : Type} {HN : Num F}.

(** The faces of cell (z, y, x): for each neighbour the number of the cell,
    the number of the neighbour and the conductance of the face between
    them; west, east, south, north, top, bottom. *)
Definition faces (gr : Grid F) (Cx Cy Cz : list F) (z y x : nat) : list (nat * nat * F) :=
  let i := idx3 (ny gr) (nx gr) z y x in
  (if decide (1 ≤ x)
   then [(i, idx3 (ny gr) (nx gr) z y (x - 1), cell (ny gr) (nx gr - 1) Cx z y (x - 1))]
   else [])
  ++ (if decide (x + 1 < nx gr)
      then [(i, idx3 (ny gr) (nx gr) z y (x + 1), cell (ny gr) (nx gr - 1) Cx z y x)]
      else [])
  ++ (if decide (y + 1 < ny gr)
      then [(i, idx3 (ny gr) (nx gr) z (y + 1) x, cell (ny gr - 1) (nx gr) Cy z y x)]
      else [])
  ++ (if decide (1 ≤ y)
      then [(i, idx3 (ny gr) (nx gr) z (y - 1) x, cell (ny gr - 1) (nx gr) Cy z (y - 1) x)]
      else [])
  ++ (if decide (1 ≤ z)
      then [(i, idx3 (ny gr) (nx gr) (z - 1) y x, cell (ny gr) (nx gr) Cz (z - 1) y x)]
      else [])
  ++ (if decide (z + 1 < nz gr)
      then [(i, idx3 (ny gr) (nx gr) (z + 1) y x, cell (ny gr) (nx gr) Cz z y x)]
      else []).

(** The signed sum of the face flows out of cell (z, y, x).  [Qx] counts a
    flow towards the next column as positive, [Qy] a flow towards the
    previous row, [Qz] a flow towards the previous (upper) layer. *)
Definition face_outflow (gr : Grid F) (Qx Qy Qz : list F) (z y x : nat) : F :=
  fsum
    ((if decide (1 ≤ x) then [fopp (cell (ny gr) (nx gr - 1) Qx z y (x - 1))] else [])
     ++ (if decide (x + 1 < nx gr) then [cell (ny gr) (nx gr - 1) Qx z y x] else [])
     ++ (if decide (y + 1 < ny gr) then [fopp (cell (ny gr - 1) (nx gr) Qy z y x)] else [])
     ++ (if decide (1 ≤ y) then [cell (ny gr - 1) (nx gr) Qy z (y - 1) x] else [])
     ++ (if decide (1 ≤ z) then [cell (ny gr) (nx gr) Qz (z - 1) y x] else [])
     ++ (if decide (z + 1 < nz gr) then [fopp (cell (ny gr) (nx gr) Qz z y x)] else [])).
End Faces.

(** ** Exact arithmetic *)

Definition qsum (l : list Qc) : Qc := foldr Qcplus (Q2Qc 0) l.

(** A linear solver that answers only with a finite exact solution of the
    system it was given. *)
Definition solver_exact (spsolve : spmatrix xq → list xq → option (list xq)) : Prop :=
  ∀ M b x, spsolve M b = Some x →
    sp_dot M x = b ∧ Forall (λ a, is_fin a = true) x ∧ length x = sp_cols M.

(** ** The balance of a cell, as the specification words it *)

Section Worded.
Context {F : Type} {HN : Num F}.

(** The signed sum of the face flows into cell (z, y, x). *)
Definition face_inflow (gr : Grid F) (Qx Qy Qz : list F) (z y x : nat) : F :=
  fopp (face_outflow gr Qx Qy Qz z y x).

(** "Sum of face flows into a cell + source term - storage release", for
    step [n] of a solve with the prescribed flows [fq]; [face_sum] is the
    way the face flows of a cell are added up. *)
Definition worded_balance (face_sum : Grid F → list F → list F → list F → nat → nat → nat → F)
    (gr : Grid F) (fq : list F) (out : Out F) (n z y x : nat) : F :=
  fsub (fadd (face_sum gr (Qx out !!! n) (Qy out !!! n) (Qz out !!! n) z y x)
             (cell (ny gr) (nx gr) fq z y x))
       (cell (ny gr) (nx gr) (Qs out !!! n) z y x).
End Worded.

(** Equal within a relative tolerance of 1e-6. *)
Definition within_tolerance (a b : float) : bool :=
  PrimFloat.leb (PrimFloat.abs (a - b))
    (0x1.0c6f7a0b5ed8dp-20 * (if PrimFloat.ltb (PrimFloat.abs a) (PrimFloat.abs b)
                              then PrimFloat.abs b else PrimFloat.abs a))%float.

(** The conservation identity in the words of the specification: for every
    step and every active cell the balance is, within the tolerance, the
    net inflow [Q] of the cell. *)
Definition conservation_as_worded
    (face_sum : Grid float → list float → list float → list float → nat → nat → nat → float)
    (gr : Grid float) (fq : list float) (IBOUND : ndarray Z) (out : Out float) : Prop :=
  ∀ n z y x v, n < length (Q out) → z < nz gr → y < ny gr → x < nx gr →
    data IBOUND !! idx3 (ny gr) (nx gr) z y x = Some v → (0 < v)%Z →
    within_tolerance (worded_balance face_sum gr fq out n z y x)
                     (cell (ny gr) (nx gr) (Q out !!! n) z y x) = true.

(** The conservation identity with the signs of the code: for every step
    and every active cell, the face flows out of the cell add up to the
    net flow [Q] of the cell, and so do the prescribed flow and the storage
    release, within the tolerance. *)
Definition conservation_with_code_signs
    (gr : Grid float) (fq : list float) (IBOUND : ndarray Z) (out : Out float) : Prop :=
  ∀ n z y x v, n < length (Q out) → z < nz gr → y < ny gr → x < nx gr →
    data IBOUND !! idx3 (ny gr) (nx gr) z y x = Some v → (0 < v)%Z →
    within_tolerance (face_outflow gr (Qx out !!! n) (Qy out !!! n) (Qz out !!! n) z y x)
                     (cell (ny gr) (nx gr) (Q out !!! n) z y x) = true
    ∧ within_tolerance (cell (ny gr) (nx gr) fq z y x + cell (ny gr) (nx gr) (Qs out !!! n) z y x)
                       (cell (ny gr) (nx gr) (Q out !!! n) z y x) = true.

(** ** A small model in exact arithmetic

    One layer of two rows and two columns of unit cells, all active, with
    conductivity 1, specific storage 1, initial head 0 and a prescribed
    flow of 1 into the first cell; one step of length 1. *)

Definition qn (n : Z) : xq := Fin (Q2Qc (inject_Z n)).
Definition qfrac (a : Z) (b : positive) : Qc := Q2Qc (a # b).

Definition gr4 : Grid xq := {|
  axial := false; nz := 1; ny := 2; nx := 2;
  dx := [qn 1; qn 1]; dy := [qn 1; qn 1];
  DZ := [qn 1; qn 1; qn 1; qn 1]; Volume := [qn 1; qn 1; qn 1; qn 1];
  gx := [qn 0; qn 1; qn 2]; xm := [Fin (qfrac 1 2); Fin (qfrac 3 2)];
  NOD := [0; 1; 2; 3]
|}.

Definition arr4 {A} (v : list A) : ndarray A := {| shape := [1; 2; 2]; data := v |}.

Definition store4 : gmap nat (ndarray xq) :=
  <[l_K := arr4 [qn 1; qn 1; qn 1; qn 1]]>
  (<[l_Ss := arr4 [qn 1; qn 1; qn 1; qn 1]]>
  (<[l_FQ := arr4 [qn 1; qn 0; qn 0; qn 0]]>
  (<[l_HI := arr4 [qn 0; qn 0; qn 0; qn 0]]> ∅))).

Definition IBOUND4 : ndarray Z := arr4 [1; 1; 1; 1]%Z.

(** The grid is Cartesian: neither [np.pi] nor [np.log] is used. *)
Definition run4 : gmap nat (ndarray xq) * result (Out xq) :=
  fdm3t (Fin (qfrac 355 113)) (λ _, NaN) exact_solve store4 gr4 [qn 0; qn 1]
    (KArray l_K) l_Ss l_FQ l_HI IBOUND4 (qn 1).

Definition out4 : Out xq :=
  match run4.2 with
  | Ok o => o
  | Raise _ => {| out_t := []; Phi := []; Q := []; Qs := []; Qx := []; Qy := []; Qz := [] |}
  end.

(** Conductances for the four faces of that grid, and the matrix
    [csc_matrix] makes of them. *)
Definition Cx4 : list xq := [qn 1; qn 2].
Definition Cy4 : list xq := [qn 3; qn 4].

Definition A4 : spmatrix xq := {|
  sp_rows := 4; sp_cols := 4;
  sp_entries := [(1, 0, qn 1); (3, 2, qn 2); (0, 1, qn 1); (2, 3, qn 2);
                 (0, 2, qn 3); (1, 3, qn 4); (2, 0, qn 3); (3, 1, qn 4)]
|}.

(** ** More of the program: definitions *)

(** A linear solver that answers every square system with a vector of the
    system's size, as [spsolve] does (for a singular matrix it warns and
    answers with NaN). *)
Definition solver_answers {F} (spsolve : spmatrix F → list F → option (list F)) : Prop :=
  ∀ M b, sp_rows M = sp_cols M → length b = sp_rows M →
    ∃ x, spsolve M b = Some x ∧ length x = sp_cols M.

(** A finite positive number. *)
Definition fin_pos (a : xq) : Prop := ∃ q, a = Fin q ∧ (Q2Qc 0 < q)%Qc.

(** The small exact model with its last cell inactive. *)
Definition IBOUND4i : ndarray Z := arr4 [1; 1; 1; 0]%Z.

Definition run4i : gmap nat (ndarray xq) * result (Out xq) :=
  fdm3t (Fin (qfrac 355 113)) (λ _, NaN) exact_solve store4 gr4 [qn 0; qn 1]
    (KArray l_K) l_Ss l_FQ l_HI IBOUND4i (qn 1).

Definition out4i : Out xq :=
  match run4i.2 with
  | Ok o => o
  | Raise _ => {| out_t := []; Phi := []; Q := []; Qs := []; Qx := []; Qy := []; Qz := [] |}
  end.

(** ** The methods of the class [Fdm3t]

    [obsNames], [r_ow], [z_ow] (lines 287-295) and [get_psi] (lines
    362-380).  They read attributes that [__init__] does not set, and they
    raise IndexError, which [fdm3t] never does: they have a result type of
    their own. *)

Inductive method_result (A : Type) :=
| Returns (a : A)
| Raises (e : exn)
| RaisesIndexError (msg : string).
Arguments Returns {A} a.
Arguments Raises {A} e.
Arguments RaisesIndexError {A} msg.

(** A component of an observation point: a name or a number. *)
Inductive pyval (F : Type) :=
| PStr (s : string)
| PNum (x : F).
Arguments PStr {F} s.
Arguments PNum {F} x.

(** The object: what [__init__] has stored, and the attributes [points]
    and [psi], which exist only once [show] or [get_psi] has set them. *)
Record Fdm3t_object (F : Type) := {
  obj_init : Fdm3t F;
  obj_points : option (list (list (pyval F)));
  obj_psi : option (list (list F))
}.
Arguments obj_init {F} _.
Arguments obj_points {F} _.
Arguments obj_psi {F} _.

Section Methods.
Context {F : Type} {HN : Num F}.

(** The object as [__init__] leaves it. *)
Definition new_object (self : Fdm3t F) : Fdm3t_object F :=
  {| obj_init := self; obj_points := None; obj_psi := None |}.

(** [[p[i] for p in points]] *)
Fixpoint column (i : nat) (points : list (list (pyval F))) : method_result (list (pyval F)) :=
  match points with
  | [] => Returns []
  | p :: ps =>
      match p !! i with
      | None => RaisesIndexError "tuple index out of range"
      | Some v =>
          match column i ps with
          | Returns vs => Returns (v :: vs)
          | r => r
          end
      end
  end.

Definition point_column (i : nat) (self : Fdm3t_object F) : method_result (list (pyval F)) :=
  match obj_points self with
  | None => Raises (AttributeError "'Fdm3t' object has no attribute 'points'")
  | Some points => column i points
  end.

Definition obsNames : Fdm3t_object F → method_result (list (pyval F)) := point_column 0.
Definition r_ow : Fdm3t_object F → method_result (list (pyval F)) := point_column 1.
Definition z_ow : Fdm3t_object F → method_result (list (pyval F)) := point_column 2.

(** [np.cumsum(rows, axis=0)]: every row is the row before it plus the
    row of the argument. *)
Fixpoint cumsum_from (acc : list F) (rows : list (list F)) : list (list F) :=
  match rows with
  | [] => []
  | r :: rs => let acc' := zip_with fadd acc r in acc' :: cumsum_from acc' rs
  end.

Definition np_cumsum (rows : list (list F)) : list (list F) :=
  match rows with
  | [] => []
  | r :: rs => r :: cumsum_from r rs
  end.

(** [get_psi]: the stream function of the last step in the first row of
    the grid; it is stored in [self.psi] and returned. *)
Definition get_psi (self : Fdm3t_object F) : Fdm3t_object F * method_result (list (list F)) :=
  let gr := self_gr (obj_init self) in
  match last (Qx (self_out (obj_init self))) with
  | None => (self, RaisesIndexError "index -1 is out of bounds for axis 0 with size 0")
  | Some Qx_last =>
      if decide (ny gr = 0)
      then (self, RaisesIndexError "index 0 is out of bounds for axis 1 with size 0")
      else
        (* Qx = self.out['Qx'][-1][:, 0, :] *)
        let Qx0 := (λ z, (λ c, cell (ny gr) (nx gr - 1) Qx_last z 0 c) <$> seq 0 (nx gr - 1))
                     <$> seq 0 (nz gr) in
        (* np.zeros_like(Qx[-1:]) *)
        let zeros := (λ r : list F, (λ _, f0) <$> r) <$> drop (length Qx0 - 1) Qx0 in
        let psi := reverse (np_cumsum (reverse (Qx0 ++ zeros))) in
        ({| obj_init := obj_init self; obj_points := obj_points self; obj_psi := Some psi |},
         Returns psi)
  end.
End Methods.

(** The object the constructor makes of the small model. *)
Definition object3 : Fdm3t_object float := new_object self3.

(** The stream function of the small model: the flow of the last step
    across its two faces, over a row of zeros. *)
Definition psi3 : list (list float) := [[-2.25; 0]; [0; 0]]%float.

(** The axial model with two rows. *)
Definition gr_axial_rows : Grid float := {|
  axial := true; nz := 1; ny := 2; nx := 2;
  dx := [1; 1]%float; dy := [1; 1]%float;
  DZ := [1; 1; 1; 1]%float; Volume := [pi64; 3 * pi64; pi64; 3 * pi64]%float;
  gx := [0; 1; 2]%float; xm := [0.5; 1.5]%float;
  NOD := [0; 1; 2; 3]
|}.

(** The small model with two fixed-head cells side by side, with the heads
    0 and 9, and the cell of conductivity 1e-20 active. *)
Definition IBOUND3f : ndarray Z := arr3 [-1; -1; 1]%Z.

Definition run3f : gmap nat (ndarray float) * result (Out float) :=
  fdm3t pi64 log_unused dense_solve store3 gr3 [0; 1]%float (KArray l_K) l_Ss l_FQ l_HI
    IBOUND3f 1%float.

Definition out3f : Out float :=
  match run3f.2 with
  | Ok o => o
  | Raise _ => {| out_t := []; Phi := []; Q := []; Qs := []; Qx := []; Qy := []; Qz := [] |}
  end.

(** The solve of [run4] with cell 1 at a fixed head of 5. *)
Definition store4f : gmap nat (ndarray xq) :=
  <[l_HI := arr4 [qn 0; qn 5; qn 0; qn 0]]> store4.

Definition IBOUND4f : ndarray Z := arr4 [1; -1; 1; 1]%Z.

Definition run4f : gmap nat (ndarray xq) * result (Out xq) :=
  fdm3t (Fin (qfrac 355 113)) (λ _, NaN) exact_solve store4f gr4 [qn 0; qn 1]
    (KArray l_K) l_Ss l_FQ l_HI IBOUND4f (qn 1).

Definition out4f : Out xq :=
  match run4f.2 with
  | Ok o => o
  | Raise _ => {| out_t := []; Phi := []; Q := []; Qs := []; Qx := []; Qy := []; Qz := [] |}
  end.

(** The sum of the elements of row [i] of a matrix, [M[i, 0] + M[i, 1] +
    ...], added in the order of the columns. *)
Definition row_sum_by_columns {F} `{Num F} (M : spmatrix F) (i : nat) : F :=
  fsum ((λ j, sp_get M i j) <$> seq 0 (sp_cols M)).

(** The system matrix [A] that lines 87-143 make for the three cells of
    [gr3], all active, with the conductivities [K] along every axis; and
    two fields of conductivities, one with two infinite values. *)
Definition K125 : list float := [1; 2; 5]%float.
Definition Kinf : list float := [infinity; infinity; 1]%float.

Definition A_of (K : list float) : spmatrix float :=
  match build_setup pi64 log_unused gr3 K K K [1; 1; 1]%float [1; 1; 1]%Z 1%float with
  | Ok s => s_A s
  | Raise _ => {| sp_rows := 0; sp_cols := 0; sp_entries := [] |}
  end.

(** A solver with a tolerance: its answer is finite, and where the product
    of the matrix and the answer is finite it differs from the right-hand
    side by [tol] at most. *)
Definition solver_within (tol : Qc)
    (spsolve : spmatrix xq → list xq → option (list xq)) : Prop :=
  ∀ M b x, spsolve M b = Some x →
    length x = sp_cols M ∧ Forall (λ a, is_fin a = true) x
    ∧ ∀ i r, sp_dot M x !! i = Some (Fin r) →
        ∃ m, b !! i = Some (Fin m) ∧ (r - m ≤ tol)%Qc ∧ (m - r ≤ tol)%Qc.

(** The cells that share a face with cell (z, y, x), by their numbers in
    the row-major numbering; west, east, south, north, top, bottom. *)
Definition neighbours {F} (gr : Grid F) (z y x : nat) : list nat :=
  (if decide (1 ≤ x) then [idx3 (ny gr) (nx gr) z y (x - 1)] else [])
  ++ (if decide (x + 1 < nx gr) then [idx3 (ny gr) (nx gr) z y (x + 1)] else [])
  ++ (if decide (y + 1 < ny gr) then [idx3 (ny gr) (nx gr) z (y + 1) x] else [])
  ++ (if decide (1 ≤ y) then [idx3 (ny gr) (nx gr) z (y - 1) x] else [])
  ++ (if decide (1 ≤ z) then [idx3 (ny gr) (nx gr) (z - 1) y x] else [])
  ++ (if decide (z + 1 < nz gr) then [idx3 (ny gr) (nx gr) (z + 1) y x] else []).

(** Two numbers differ by [tol] at most. *)
Definition within (tol a b : Qc) : Prop := (a - b ≤ tol)%Qc ∧ (b - a ≤ tol)%Qc.

(** Whether the answer [x] leaves a residual of [tol] at most in every
    equation of the system [M x = b] whose left-hand side is finite. *)
Definition residual_within (tol : Qc) (M : spmatrix xq) (x b : list xq) : bool :=
  forallb (λ i,
    match sp_dot M x !! i with
    | Some (Fin r) =>
        match b !! i with
        | Some (Fin m) => Qle_bool (r - m)%Qc tol && Qle_bool (m - r)%Qc tol
        | _ => false
        end
    | _ => true
    end) (seq 0 (sp_rows M)).

(** A solver that is off by [δ] in every unknown when that keeps the
    residuals within [tol], and exact otherwise. *)
Definition rough_solve (tol δ : Qc) (M : spmatrix xq) (b : list xq) : option (list xq) :=
  match exact_solve M b with
  | Some x =>
      let x' := (λ a, xq_add a (Fin δ)) <$> x in
      if residual_within tol M x' b then Some x' else Some x
  | None => None
  end.

(** The solve of [run4f] with that solver. *)
Definition run4r : gmap nat (ndarray xq) * result (Out xq) :=
  fdm3t (Fin (qfrac 355 113)) (λ _, NaN) (rough_solve (qfrac 1 100) (qfrac 1 1000))
    store4f gr4 [qn 0; qn 1] (KArray l_K) l_Ss l_FQ l_HI IBOUND4f (qn 1).

Definition out4r : Out xq :=
  match run4r.2 with
  | Ok o => o
  | Raise _ => {| out_t := []; Phi := []; Q := []; Qs := []; Qx := []; Qy := []; Qz := [] |}
  end.

(** * Proofs *)

(** * Facts about results *)

Lemma bind_Ok {A B} (r : result A) (f : A → result B) (b : B) :
  r ≫= f = Ok b ↔ ∃ a, r = Ok a ∧ f a = Ok b.
Proof.
  destruct r as [a|e]; simpl; split.
  - intros Hf. exists a. done.
  - intros (a' & [= <-] & Hf). done.
  - intros [=].
  - intros (a' & [=] & _).
Qed.

Ltac inv_ok H :=
  repeat match type of H with
  | (_ ≫= _) = Ok _ =>
      let a := fresh "a" in let Ha := fresh "Hbind" in
      apply bind_Ok in H; destruct H as (a & Ha & H)
  end.

(** * Masks *)

Section MaskFacts.
Context {A : Type}.
Implicit Types (v w xs : list A) (m : list bool).

Lemma length_mask_scatter v m xs : length (mask_scatter v m xs) = length v.
Proof.
  revert m xs. induction v as [|a v IH]; intros [|[] m] xs; simpl; try done.
  - destruct xs; simpl; by rewrite IH.
  - by rewrite IH.
Qed.

Lemma length_mask_fill v m c : length (mask_fill v m c) = length v `min` length m.
Proof. unfold mask_fill. by rewrite length_zip_with. Qed.

Lemma count_true_cons b m :
  count_true (b :: m) = (if b then 1 else 0) + count_true m.
Proof. unfold count_true. destruct b; simpl; [done|]. rewrite filter_cons_False; [done|]. done. Qed.

Lemma rank_S b m i : rank (b :: m) (S i) = (if b then 1 else 0) + rank m i.
Proof. unfold rank. simpl. apply count_true_cons. Qed.

Lemma length_mask_select m v :
  length m ≤ length v → length (mask_select m v) = count_true m.
Proof.
  revert v. induction m as [|b m IH]; intros [|a v] Hl; simpl in *; try done; try lia.
  rewrite count_true_cons. destruct b; simpl; rewrite IH; lia.
Qed.

Lemma lookup_mask_fill_false v m c i :
  m !! i = Some false → mask_fill v m c !! i = v !! i.
Proof.
  intros Hm. unfold mask_fill. rewrite lookup_zip_with, Hm.
  by destruct (v !! i).
Qed.

Lemma lookup_mask_fill_true v m c i :
  m !! i = Some true → i < length v → mask_fill v m c !! i = Some c.
Proof.
  intros Hm Hi. unfold mask_fill. rewrite lookup_zip_with, Hm.
  destruct (lookup_lt_is_Some_2 v i Hi) as [a ->]. done.
Qed.

(** Reading back what [v[m] = w[m]] wrote. *)
Lemma lookup_scatter_select v m w i :
  length v = length m → length w = length m →
  mask_scatter v m (mask_select m w) !! i =
    match m !! i with Some true => w !! i | _ => v !! i end.
Proof.
  revert m w i. induction v as [|a v IH]; intros [|b m] [|c w] i Hv Hw;
    simpl in *; try done.
  destruct b; destruct i as [|i]; simpl; try done; apply IH; lia.
Qed.

(** Reading a place the scatter did not select. *)
Lemma lookup_scatter_false v m xs i :
  m !! i = Some false → mask_scatter v m xs !! i = v !! i.
Proof.
  revert m xs i. induction v as [|a v IH]; intros [|b m] xs i Hm; simpl in *; try done.
  destruct b.
  - destruct i as [|i]; [done|]. destruct xs; simpl; by apply IH.
  - destruct i as [|i]; [done|]. simpl. by apply IH.
Qed.

(** Reading a selected place: the value of [xs] with the rank of the place. *)
Lemma lookup_scatter_true v m xs i :
  length v = length m → length xs = count_true m →
  m !! i = Some true → mask_scatter v m xs !! i = xs !! rank m i.
Proof.
  revert m xs i. induction v as [|a v IH]; intros [|b m] xs i Hv Hx Hm; simpl in *; try done.
  rewrite count_true_cons in Hx. destruct b.
  - destruct xs as [|x xs]; [simpl in Hx; lia|].
    destruct i as [|i]; [done|]. rewrite rank_S. simpl.
    apply IH; simpl in *; [lia|lia|done].
  - destruct i as [|i]; [done|]. rewrite rank_S. simpl.
    apply IH; simpl in *; [lia|lia|done].
Qed.

Lemma lookup_select_rank m w i :
  length w = length m → m !! i = Some true → mask_select m w !! rank m i = w !! i.
Proof.
  revert w i. induction m as [|b m IH]; intros [|c w] i Hw Hm; simpl in *; try done.
  destruct b.
  - destruct i as [|i]; [done|]. rewrite rank_S. simpl.
    apply IH; [lia|done].
  - destruct i as [|i]; [done|]. rewrite rank_S. simpl.
    apply IH; [lia|done].
Qed.

Lemma mask_assign_length v m xs r :
  mask_assign v m xs = Ok r → length m = length v → length r = length v.
Proof.
  unfold mask_assign. intros Hr Hm. case_decide.
  - injection Hr as <-. apply length_mask_scatter.
  - destruct xs as [|c [|]]; try done. injection Hr as <-.
    rewrite length_mask_fill. lia.
Qed.

Lemma mask_assign_select v m w r i :
  length v = length m → length w = length m →
  mask_assign v m (mask_select m w) = Ok r →
  r !! i = match m !! i with Some true => w !! i | _ => v !! i end.
Proof.
  intros Hv Hw. unfold mask_assign.
  rewrite decide_True by (apply length_mask_select; lia).
  intros [= <-]. by apply lookup_scatter_select.
Qed.
End MaskFacts.

(** * One time step *)

Section StepFacts.
Context {F : Type} {HN : Num F}.
Variable np_pi : F.
Variable np_log : F → F.
Variable spsolve : spmatrix F → list F → option (list F).

Lemma time_step_inv s FQ dt prev o :
  time_step spsolve s FQ dt prev = Ok o →
  ∃ RHS sol Phi_it Phi_a Phi_f,
    step_RHS s FQ dt prev = Ok RHS
    ∧ spsolve (step_matrix s dt) (step_vector s dt prev RHS) = Some sol
    ∧ mask_assign (replicate (gr_nod (s_gr s)) f0) (s_active s) sol = Ok Phi_it
    ∧ mask_assign Phi_it (s_active s)
        (zip_with fadd (mask_select (s_active s) prev)
           ((λ d, fdiv d (s_epsilon s))
              <$> mask_select (s_active s) (zip_with fsub Phi_it prev))) = Ok Phi_a
    ∧ mask_assign Phi_a (s_fxhd s) (mask_select (s_fxhd s) prev) = Ok Phi_f
    ∧ o = {| st_Phi := mask_fill Phi_f (s_inact s) fnan;
             st_Q := sp_dot (s_A s) Phi_it;
             st_Qs := zip_with fmul ((λ c, fdiv (fopp c) dt) <$> s_Cs s)
                        (zip_with fsub Phi_it prev);
             st_Qx := face_flows_x (s_gr s) (s_Cx s) Phi_it;
             st_Qy := face_flows_y (s_gr s) (s_Cy s) Phi_it;
             st_Qz := face_flows_z (s_gr s) (s_Cz s) Phi_it |}.
Proof.
  unfold time_step. intros H.
  apply bind_Ok in H as (RHS & HRHS & H).
  destruct (spsolve _ _) as [sol|] eqn:Hsol; [|done].
  apply bind_Ok in H as (Phi_it & Hit & H).
  apply bind_Ok in H as (Phi_a & Ha & H).
  apply bind_Ok in H as (Phi_f & Hf & H).
  injection H as <-. by exists RHS, sol, Phi_it, Phi_a, Phi_f.
Qed.

(** The masks of a setup are the three classes of one IBOUND array. *)
Lemma build_setup_inv gr kx ky kz Ss ib eps s :
  build_setup np_pi np_log gr kx ky kz Ss ib eps = Ok s →
  s_gr s = gr ∧ s_epsilon s = eps
  ∧ s_active s = (λ v, bool_decide (0 < v)%Z) <$> ib
  ∧ s_inact s = (λ v, bool_decide (v = 0)%Z) <$> ib
  ∧ s_fxhd s = (λ v, bool_decide (v < 0)%Z) <$> ib
  ∧ s_Cs s = storage gr Ss eps.
Proof.
  unfold build_setup. intros H. apply bind_Ok in H as (A0 & _ & H).
  injection H as <-. done.
Qed.

Section Step.
Variables (s : setup F) (ib : list Z) (FQ : list F).
Hypothesis Hact : s_active s = (λ v, bool_decide (0 < v)%Z) <$> ib.
Hypothesis Hina : s_inact s = (λ v, bool_decide (v = 0)%Z) <$> ib.
Hypothesis Hfxh : s_fxhd s = (λ v, bool_decide (v < 0)%Z) <$> ib.
Hypothesis Hnod : length ib = gr_nod (s_gr s).

Lemma time_step_length dt prev o :
  time_step spsolve s FQ dt prev = Ok o → length (st_Phi o) = length ib.
Proof.
  intros H. apply time_step_inv in H as (RHS & sol & Pit & Pa & Pf & _ & _ & Hit & Ha & Hf & ->).
  simpl. rewrite length_mask_fill.
  apply mask_assign_length in Hit; [|by rewrite Hact, length_fmap, length_replicate].
  rewrite length_replicate in Hit.
  apply mask_assign_length in Ha; [|rewrite Hact, length_fmap; lia].
  apply mask_assign_length in Hf; [|rewrite Hfxh, length_fmap; lia].
  rewrite Hina, length_fmap. lia.
Qed.

(** A fixed-head cell keeps the head it had at the start of the step. *)
Lemma time_step_fixed dt prev o c v :
  time_step spsolve s FQ dt prev = Ok o → length prev = length ib →
  ib !! c = Some v → (v < 0)%Z → st_Phi o !! c = prev !! c.
Proof.
  intros H Hprev Hc Hv.
  apply time_step_inv in H as (RHS & sol & Pit & Pa & Pf & _ & _ & Hit & Ha & Hf & ->).
  simpl.
  apply mask_assign_length in Hit; [|by rewrite Hact, length_fmap, length_replicate].
  rewrite length_replicate in Hit.
  apply mask_assign_length in Ha; [|rewrite Hact, length_fmap; lia].
  rewrite lookup_mask_fill_false.
  2:{ rewrite Hina, list_lookup_fmap, Hc. simpl. f_equal. apply bool_decide_eq_false. lia. }
  rewrite (mask_assign_select Pa (s_fxhd s) prev Pf c);
    [|rewrite Hfxh, length_fmap; lia..|done].
  rewrite Hfxh, list_lookup_fmap, Hc. simpl.
  by rewrite bool_decide_eq_true_2.
Qed.

(** An inactive cell holds NaN at the end of the step. *)
Lemma time_step_inactive dt prev o c :
  time_step spsolve s FQ dt prev = Ok o →
  ib !! c = Some 0%Z → st_Phi o !! c = Some fnan.
Proof.
  intros H Hc.
  apply time_step_inv in H as (RHS & sol & Pit & Pa & Pf & _ & _ & Hit & Ha & Hf & ->).
  simpl.
  apply mask_assign_length in Hit; [|by rewrite Hact, length_fmap, length_replicate].
  rewrite length_replicate in Hit.
  apply mask_assign_length in Ha; [|rewrite Hact, length_fmap; lia].
  apply mask_assign_length in Hf; [|rewrite Hfxh, length_fmap; lia].
  apply lookup_mask_fill_true.
  - rewrite Hina, list_lookup_fmap, Hc. done.
  - apply lookup_lt_Some in Hc. lia.
Qed.

(** The loop: every slice it makes has the grid's size, keeps the fixed
    heads of the slice the loop started from, and has NaN in the
    inactive cells. *)
Lemma time_loop_slices dts prev os :
  time_loop spsolve s FQ dts prev = Ok os → length prev = length ib →
  length os = length dts ∧
  ∀ k o, os !! k = Some o →
    length (st_Phi o) = length ib
    ∧ (∀ c v, ib !! c = Some v → (v < 0)%Z → st_Phi o !! c = prev !! c)
    ∧ (∀ c, ib !! c = Some 0%Z → st_Phi o !! c = Some fnan).
Proof.
  revert prev os. induction dts as [|dt dts IH]; intros prev os H Hprev; simpl in H.
  - injection H as <-. split; [done|]. intros k o Hk. done.
  - apply bind_Ok in H as (o1 & Ho1 & H). apply bind_Ok in H as (os' & Hos' & H).
    injection H as <-.
    pose proof (time_step_length _ _ _ Ho1) as Hlen.
    destruct (IH _ _ Hos' Hlen) as [Hl IH'].
    split; [simpl; by rewrite Hl|].
    intros [|k] o Hk; simpl in Hk.
    + injection Hk as <-. split; [done|]. split.
      * intros c v Hc Hv. by eapply time_step_fixed.
      * intros c Hc. by eapply time_step_inactive.
    + destruct (IH' k o Hk) as (Ho & Hfx & Hin). split; [done|]. split; [|done].
      intros c v Hc Hv. rewrite (Hfx c v Hc Hv). by eapply time_step_fixed.
Qed.
End Step.
End StepFacts.

(** * The whole solve *)

Section SolveFacts.
Context {F : Type} {HN : Num F}.
Variable np_pi : F.
Variable np_log : F → F.
Variable spsolve : spmatrix F → list F → option (list F).

Lemma deref_Ok (σ : gmap nat (ndarray F)) l attr a :
  deref σ l attr = Ok a ↔ σ !! l = Some a.
Proof. unfold deref. destruct (σ !! l); split; intros [=]; by subst. Qed.

Lemma row_assign_length {A} n (v r : list A) :
  row_assign n v = Ok r → length r = n.
Proof.
  unfold row_assign. case_decide; [by intros [= <-]|].
  destruct v as [|c [|]]; try done. intros [= <-]. apply length_replicate.
Qed.

Lemma row_assign_same {A} n (v : list A) :
  length v = n → row_assign n v = Ok v.
Proof. intros Hv. unfold row_assign. by rewrite decide_True. Qed.

Lemma solve_inv σ gr t k lSs lFQ lHI IBOUND eps out :
  solve np_pi np_log spsolve σ gr t k lSs lFQ lHI IBOUND eps = Ok out →
  ∃ kx ky kz Ss fq hi s Phi0 os,
    σ !! k.1.1 = Some kx ∧ σ !! k.1.2 = Some ky ∧ σ !! k.2 = Some kz
    ∧ σ !! lSs = Some Ss
    ∧ length (data IBOUND) = gr_nod gr
    ∧ build_setup np_pi np_log gr (data kx) (data ky) (data kz) (data Ss)
        (data IBOUND) eps = Ok s
    ∧ t ≠ [] ∧ nz gr ≠ 0 ∧ ny gr ≠ 0 ∧ nx gr ≠ 0
    ∧ σ !! lFQ = Some fq ∧ σ !! lHI = Some hi
    ∧ row_assign (gr_nod gr) (data hi) = Ok Phi0
    ∧ time_loop spsolve s (data fq) (np_diff t) Phi0 = Ok os
    ∧ out = {| out_t := t; Phi := Phi0 :: (st_Phi <$> os);
               Q := st_Q <$> os; Qs := st_Qs <$> os;
               Qx := st_Qx <$> os; Qy := st_Qy <$> os; Qz := st_Qz <$> os |}.
Proof.
  unfold solve. intros H.
  apply bind_Ok in H as (kx & Hkx & H). apply bind_Ok in H as (ky & Hky & H).
  apply bind_Ok in H as (kz & Hkz & H). apply bind_Ok in H as (Ss & HSs & H).
  apply bind_Ok in H as (ib & Hib & H). apply bind_Ok in H as (u0 & _ & H).
  apply bind_Ok in H as (s & Hs & H).
  apply bind_Ok in H as (u & Hu & H). apply bind_Ok in H as (fq & Hfq & H).
  apply bind_Ok in H as (hi & Hhi & H). apply bind_Ok in H as (Phi0 & HPhi0 & H).
  apply bind_Ok in H as (os & Hos & H). injection H as <-.
  destruct (decide (length (data IBOUND) = gr_nod gr)) as [Hn|]; [|done].
  injection Hib as <-.
  destruct (decide (t = [] ∨ nz gr = 0 ∨ ny gr = 0 ∨ nx gr = 0)) as [|Hd]; [done|].
  apply deref_Ok in Hkx, Hky, Hkz, HSs, Hfq, Hhi.
  exists kx, ky, kz, Ss, fq, hi, s, Phi0, os.
  repeat split; try done; intros ?; apply Hd; auto.
Qed.

(** A solve that returns got past the two calls of [np.reshape]. *)
Lemma solve_reshaped σ gr t k lSs lFQ lHI IBOUND eps out :
  solve np_pi np_log spsolve σ gr t k lSs lFQ lHI IBOUND eps = Ok out →
  length (dx gr) = nx gr ∧ length (dy gr) = ny gr.
Proof.
  unfold solve. intros H.
  apply bind_Ok in H as (kx & _ & H). apply bind_Ok in H as (ky & _ & H).
  apply bind_Ok in H as (kz & _ & H). apply bind_Ok in H as (Ss & _ & H).
  apply bind_Ok in H as (ib & _ & H). apply bind_Ok in H as (u0 & Hu & _).
  by case_decide.
Qed.

Lemma fdm3t_inv σ gr t kxyz Ss FQ HI IBOUND eps σ' out :
  fdm3t np_pi np_log spsolve σ gr t kxyz Ss FQ HI IBOUND eps = (σ', Ok out) →
  ∃ k, validate σ gr kxyz Ss = Ok k ∧ σ' = clamp_store σ k
       ∧ solve np_pi np_log spsolve σ' gr t k Ss FQ HI IBOUND eps = Ok out.
Proof.
  unfold fdm3t. destruct (validate σ gr kxyz Ss) as [k|e]; [|done].
  intros [= <- Hs]. by exists k.
Qed.

(** The time slices of a solve that returned. *)
Lemma fdm3t_slices σ gr t kxyz Ss FQ HI IBOUND eps σ' out :
  fdm3t np_pi np_log spsolve σ gr t kxyz Ss FQ HI IBOUND eps = (σ', Ok out) →
  ∃ hi Phi0, σ' !! HI = Some hi ∧ row_assign (gr_nod gr) (data hi) = Ok Phi0
    ∧ Phi out !! 0 = Some Phi0
    ∧ length (Phi out) = length t
    ∧ ∀ it row, Phi out !! S it = Some row →
        length row = gr_nod gr
        ∧ (∀ c v, data IBOUND !! c = Some v → (v < 0)%Z → row !! c = Phi0 !! c)
        ∧ (∀ c, data IBOUND !! c = Some 0%Z → row !! c = Some fnan).
Proof.
  intros H. apply fdm3t_inv in H as (k & _ & _ & H).
  apply solve_inv in H as (kx & ky & kz & aSs & fq & hi & s & Phi0 & os & _ & _ & _ & _
    & Hn & Hs & Ht & _ & _ & _ & _ & Hhi & HPhi0 & Hos & ->).
  apply build_setup_inv in Hs as (Hgr & _ & Ha & Hi & Hf & _).
  exists hi, Phi0. split; [done|]. split; [done|]. split; [done|].
  pose proof (row_assign_length _ _ _ HPhi0) as Hl0.
  eapply time_loop_slices in Hos as [Hlen Hos]; try done; [|by rewrite Hgr|lia].
  split.
  { simpl. rewrite length_fmap, Hlen. unfold np_diff. rewrite length_zip_with.
    destruct t; [done|]. simpl. lia. }
  intros it row Hrow. simpl in Hrow. rewrite list_lookup_fmap in Hrow.
  destruct (os !! it) as [o|] eqn:Ho; [|done]. injection Hrow as <-.
  destruct (Hos it o Ho) as (H1 & H2 & H3). split; [lia|]. done.
Qed.
End SolveFacts.

Lemma run3_012 : run3 [0; 1; 2]%float = (store3', Ok out3).
Proof. vm_compute. reflexivity. Qed.

Section Claims.
Context {F : Type} {HN : Num F}.
Variable np_pi : F.
Variable np_log : F → F.
Variable spsolve : spmatrix F → list F → option (list F).

(** Claim C2, fixed-head invariance.  When a solve returns, the head of
    every cell with IBOUND < 0 is, at every time index of [Phi] (the
    initial slice and the slice after every step), exactly the value the
    array [HI] holds for that cell: the fixed heads do not drift.  [HI] is
    read when [Phi[0] = HI] runs, that is from the store the call leaves. *)
Theorem fixed_head_invariance σ gr t kxyz Ss FQ HI IBOUND eps σ' out hi :
  fdm3t np_pi np_log spsolve σ gr t kxyz Ss FQ HI IBOUND eps = (σ', Ok out) →
  σ' !! HI = Some hi → length (data hi) = gr_nod gr →
  fixed_heads_kept IBOUND (data hi) out.
Proof.
  intros H Hhi Hlen.
  apply fdm3t_slices in H as (hi' & Phi0 & Hhi' & HPhi0 & H0 & _ & Hs).
  assert (hi' = hi) as -> by congruence.
  rewrite row_assign_same in HPhi0 by done. injection HPhi0 as <-.
  intros [|it] row c v Hrow Hc Hv.
  - congruence.
  - destruct (Hs it row Hrow) as (_ & Hfx & _). by eapply Hfx.
Qed.

(** Claim C3 as amended, inactive masking.  When a solve returns, the head
    of every cell with IBOUND = 0 is NaN at every time index from 1 on;
    the initial slice [Phi[0]] is the array [HI] as it was given, also in
    the inactive cells. *)
Theorem inactive_masking_after_start σ gr t kxyz Ss FQ HI IBOUND eps σ' out :
  fdm3t np_pi np_log spsolve σ gr t kxyz Ss FQ HI IBOUND eps = (σ', Ok out) →
  inactive_nan_from 1 IBOUND out
  ∧ ∀ hi, σ' !! HI = Some hi → length (data hi) = gr_nod gr → Phi out !! 0 = Some (data hi).
Proof.
  intros H.
  apply fdm3t_slices in H as (hi' & Phi0 & Hhi' & HPhi0 & H0 & _ & Hs).
  split.
  - intros [|it] row c Hit Hrow Hc; [lia|].
    destruct (Hs it row Hrow) as (_ & _ & Hin). by apply Hin.
  - intros hi Hhi Hlen. assert (hi' = hi) as -> by congruence.
    rewrite row_assign_same in HPhi0 by done. congruence.
Qed.
End Claims.

Lemma fixed_head_invariance_witness : fixed_heads_kept IBOUND3 [0; 9; 7]%float out3.
Proof.
  apply (fixed_head_invariance pi64 log_unused dense_solve store3 gr3 [0; 1; 2]%float
           (KArray l_K) l_Ss l_FQ l_HI IBOUND3 1%float store3' out3 (arr3 [0; 9; 7]%float)).
  - vm_compute. reflexivity.
  - vm_compute. reflexivity.
  - reflexivity.
Defined.

Lemma inactive_masking_after_start_witness :
  inactive_nan_from 1 IBOUND3 out3
  ∧ ∀ hi, store3' !! l_HI = Some hi → length (data hi) = gr_nod gr3 → Phi out3 !! 0 = Some (data hi).
Proof.
  apply (inactive_masking_after_start pi64 log_unused dense_solve store3 gr3 [0; 1; 2]%float
           (KArray l_K) l_Ss l_FQ l_HI IBOUND3 1%float store3' out3).
  vm_compute. reflexivity.
Defined.

Lemma float_7_not_nan : 7%float ≠ nan.
Proof.
  intros H. apply (f_equal (λ x, PrimFloat.eqb x x)) in H. vm_compute in H. discriminate.
Qed.

Lemma inactive_cell_not_nan_at_start :
  (run3 [0; 1; 2]%float).2 = Ok out3 ∧ ¬ inactive_nan_from 0 IBOUND3 out3.
Proof.
  split; [by rewrite run3_012|].
  intros H. specialize (H 0 [0; 9; 7]%float 2 (Nat.le_refl 0) eq_refl eq_refl).
  apply float_7_not_nan. exact (f_equal (default 0%float) H).
Qed.

(** * Validation, the store and the exceptions *)


Lemma bind_Raise {A B} (r : result A) (f : A → result B) (e : exn) :
  r ≫= f = Raise e → r = Raise e ∨ ∃ a, r = Ok a ∧ f a = Raise e.
Proof.
  destruct r as [a|e']; intros H; [right; by exists a|].
  left. cbv in H. by injection H as ->.
Qed.

Section StoreFacts.
Context {F : Type} {HN : Num F}.
Implicit Types (σ : gmap nat (ndarray F)) (k : nat * nat * nat).

Lemma clamp_idem (v : F) : clamp (clamp v) = clamp v.
Proof.
  unfold clamp. destruct (fltb v ftiny) eqn:E; [by rewrite fltb_tiny_irrefl | by rewrite E].
Qed.

Lemma clamp_array_idem (a : ndarray F) : clamp_array (clamp_array a) = clamp_array a.
Proof.
  unfold clamp_array. simpl. f_equal. rewrite <- list_fmap_compose.
  apply list_fmap_ext. intros i v _. apply clamp_idem.
Qed.

Lemma lookup_clamp_store σ k l :
  clamp_store σ k !! l =
    if decide (l = k.1.1 ∨ l = k.1.2 ∨ l = k.2) then clamp_array <$> σ !! l else σ !! l.
Proof.
  assert (∀ (m : gmap nat (ndarray F)) i,
    alter clamp_array i m !! l
    = (if decide (l = i) then clamp_array else id) <$> m !! l) as Halt.
  { intros m i. rewrite lookup_alter. case_decide; subst.
    - by rewrite decide_True.
    - rewrite decide_False by done. by destruct (m !! l). }
  unfold clamp_store. rewrite !Halt.
  destruct (σ !! l) as [a|]; simpl; [|by case_decide].
  destruct (decide (l = k.1.1)), (decide (l = k.1.2)), (decide (l = k.2)); simpl;
    rewrite ?clamp_array_idem;
    first [by rewrite decide_True by tauto | by rewrite decide_False by tauto].
Qed.

Lemma check_shape_Ok σ gr name l u :
  check_shape σ gr name l = Ok u ↔ ∃ a, σ !! l = Some a ∧ shape a = gr_shape gr.
Proof.
  unfold check_shape, deref. destruct (σ !! l) as [a|]; cbn.
  - destruct u. case_decide; split; try done.
    + intros _. by exists a.
    + intros (a' & [= <-] & ?). done.
  - split; [done|]. by intros (a' & [=] & _).
Qed.

Lemma check_shape_Raise σ gr name l e :
  check_shape σ gr name l = Raise e →
  (σ !! l = None ∧ numeric_failure e)
  ∨ ∃ a, σ !! l = Some a ∧ shape a ≠ gr_shape gr
         ∧ e = AssertionError (shape_message name (shape a) (gr_shape gr)).
Proof.
  unfold check_shape, deref. destruct (σ !! l) as [a|]; cbn.
  - case_decide; [done|]. intros [= <-]. right. by exists a.
  - intros [= <-]. by left.
Qed.

Lemma validate_Ok σ gr kxyz lSs k :
  validate σ gr kxyz lSs = Ok k →
  unpack_kxyz kxyz = Ok k
  ∧ ∃ akx aky akz aSs,
      σ !! k.1.1 = Some akx ∧ σ !! k.1.2 = Some aky ∧ σ !! k.2 = Some akz
      ∧ σ !! lSs = Some aSs
      ∧ shape akx = gr_shape gr ∧ shape aky = gr_shape gr
      ∧ shape akz = gr_shape gr ∧ shape aSs = gr_shape gr.
Proof.
  unfold validate. intros H.
  apply bind_Ok in H as (k' & Hk & H).
  apply bind_Ok in H as (u1 & (akx & Hx1 & Hx2)%check_shape_Ok & H).
  apply bind_Ok in H as (u2 & (aky & Hy1 & Hy2)%check_shape_Ok & H).
  apply bind_Ok in H as (u3 & (akz & Hz1 & Hz2)%check_shape_Ok & H).
  apply bind_Ok in H as (u4 & (aSs & Hs1 & Hs2)%check_shape_Ok & H).
  injection H as <-. split; [done|]. by exists akx, aky, akz, aSs.
Qed.

Lemma unpack_kxyz_Raise kxyz e : unpack_kxyz kxyz = Raise e → numeric_failure e.
Proof.
  destruct kxyz as [[|a [|b [|c [|]]]]|l|a]; simpl; intros [= <-]; done.
Qed.

(** An assertion error of the validation names one of the four checked
    fields and shows the two shapes. *)
Lemma validate_Raise σ gr kxyz lSs e :
  validate σ gr kxyz lSs = Raise e →
  numeric_failure e
  ∨ ∃ name (a : ndarray F), name ∈ ["kx"; "ky"; "kz"; "Ss"] ∧ shape a ≠ gr_shape gr
              ∧ e = AssertionError (shape_message name (shape a) (gr_shape gr)).
Proof.
  unfold validate. intros H.
  apply bind_Raise in H as [H|(k & _ & H)]; [left; by eapply unpack_kxyz_Raise|].
  apply bind_Raise in H as [H|(?u & _ & H)].
  { apply check_shape_Raise in H as [[_ Hnf]|(a & _ & Hne & ->)]; [by left|].
    right. exists "kx", a. rewrite !elem_of_cons. tauto. }
  apply bind_Raise in H as [H|(?u & _ & H)].
  { apply check_shape_Raise in H as [[_ Hnf]|(a & _ & Hne & ->)]; [by left|].
    right. exists "ky", a. rewrite !elem_of_cons. tauto. }
  apply bind_Raise in H as [H|(?u & _ & H)].
  { apply check_shape_Raise in H as [[_ Hnf]|(a & _ & Hne & ->)]; [by left|].
    right. exists "kz", a. rewrite !elem_of_cons. tauto. }
  apply bind_Raise in H as [H|(?u & _ & H)].
  { apply check_shape_Raise in H as [[_ Hnf]|(a & _ & Hne & ->)]; [by left|].
    right. exists "Ss", a. rewrite !elem_of_cons. tauto. }
  done.
Qed.

Lemma deref_Raise σ l attr e : deref σ l attr = Raise e → numeric_failure e.
Proof. unfold deref. destruct (σ !! l); [done|]. by intros [= <-]. Qed.

Lemma mask_assign_Raise {A} (v : list A) m xs e :
  mask_assign v m xs = Raise e → numeric_failure e.
Proof.
  unfold mask_assign. case_decide; [done|].
  destruct xs as [|c [|]]; try done; by intros [= <-].
Qed.

Lemma np_op_Raise op (a b : list F) e : np_op op a b = Raise e → numeric_failure e.
Proof.
  unfold np_op. case_decide; [done|].
  destruct a as [|? [|]], b as [|? [|]]; try done; by intros [= <-].
Qed.

End StoreFacts.

Section RaiseFacts.
Context {F : Type} {HN : Num F}.
Variable np_pi : F.
Variable np_log : F → F.
Variable spsolve : spmatrix F → list F → option (list F).

Lemma time_step_Raise s FQ dt prev e :
  time_step spsolve s FQ dt prev = Raise e → numeric_failure e.
Proof.
  unfold time_step, step_RHS. intros H.
  apply bind_Raise in H as [H|(RHS & _ & H)]; [by eapply np_op_Raise|].
  destruct (spsolve _ _); [|by injection H as <-].
  apply bind_Raise in H as [H|(?u & _ & H)]; [by eapply mask_assign_Raise|].
  apply bind_Raise in H as [H|(?u & _ & H)]; [by eapply mask_assign_Raise|].
  apply bind_Raise in H as [H|(?u & _ & H)]; [by eapply mask_assign_Raise|].
  done.
Qed.

Lemma time_loop_Raise s FQ dts prev e :
  time_loop spsolve s FQ dts prev = Raise e → numeric_failure e.
Proof.
  revert prev. induction dts as [|dt dts IH]; intros prev H; simpl in H; [done|].
  apply bind_Raise in H as [H|(o & _ & H)]; [by eapply time_step_Raise|].
  apply bind_Raise in H as [H|(?u & _ & H)]; [by eapply IH|]. done.
Qed.

Lemma solve_Raise σ gr t k lSs lFQ lHI IBOUND eps e :
  solve np_pi np_log spsolve σ gr t k lSs lFQ lHI IBOUND eps = Raise e → numeric_failure e.
Proof.
  unfold solve. intros H.
  apply bind_Raise in H as [H|(?u & _ & H)]; [by eapply deref_Raise|].
  apply bind_Raise in H as [H|(?u & _ & H)]; [by eapply deref_Raise|].
  apply bind_Raise in H as [H|(?u & _ & H)]; [by eapply deref_Raise|].
  apply bind_Raise in H as [H|(?u & _ & H)]; [by eapply deref_Raise|].
  apply bind_Raise in H as [H|(?u & _ & H)]; [case_decide; [done|by injection H as <-]|].
  apply bind_Raise in H as [H|(?u & _ & H)]; [case_decide; [done|by injection H as <-]|].
  apply bind_Raise in H as [H|(?u & _ & H)].
  { unfold build_setup, conductance_matrix, csc_matrix in H.
    apply bind_Raise in H as [H|(?u & _ & H)]; [|done].
    destruct (_ && _); [done|by injection H as <-]. }
  apply bind_Raise in H as [H|(?u & _ & H)]; [case_decide; [by injection H as <-|done]|].
  apply bind_Raise in H as [H|(?u & _ & H)]; [by eapply deref_Raise|].
  apply bind_Raise in H as [H|(?u & _ & H)]; [by eapply deref_Raise|].
  apply bind_Raise in H as [H|(?u & _ & H)].
  { unfold row_assign in H. case_decide; [done|].
    destruct (data _) as [|? [|]]; try done; by injection H as <-. }
  apply bind_Raise in H as [H|(?u & _ & H)]; [by eapply time_loop_Raise|]. done.
Qed.
End RaiseFacts.




Section Claims2.
Context {F : Type} {HN : Num F}.
Variable np_pi : F.
Variable np_log : F → F.
Variable spsolve : spmatrix F → list F → option (list F).
Implicit Types (σ : gmap nat (ndarray F)) (k : nat * nat * nat).

(** Claim C10, in-place clamping.  A call that passes the shape checks
    writes into the caller's conductivity arrays: in each of the arrays
    [kx], [ky], [kz] every entry below 1e-20 becomes 1e-20 and every other
    entry stays (when [kxyz] is one array the three names are that one
    array, clamped once for all); every other array of the store is
    left as it was. *)
Theorem fdm3t_clamps_in_place σ gr t kxyz Ss FQ HI IBOUND eps k :
  validate σ gr kxyz Ss = Ok k →
  unpack_kxyz kxyz = Ok k
  ∧ (∀ a, kxyz = KArray a → k = (a, a, a))
  ∧ (∀ l a, l ∈ [k.1.1; k.1.2; k.2] → σ !! l = Some a →
       ∃ a', (fdm3t np_pi np_log spsolve σ gr t kxyz Ss FQ HI IBOUND eps).1 !! l = Some a'
             ∧ shape a' = shape a
             ∧ data a' = (λ v, if fltb v ftiny then ftiny else v) <$> data a)
  ∧ (∀ l, l ∉ [k.1.1; k.1.2; k.2] →
       (fdm3t np_pi np_log spsolve σ gr t kxyz Ss FQ HI IBOUND eps).1 !! l = σ !! l).
Proof.
  intros Hv. pose proof (validate_Ok _ _ _ _ _ Hv) as [Hk _].
  split; [done|]. split.
  { intros a ->. simpl in Hk. by injection Hk as <-. }
  unfold fdm3t. rewrite Hv. simpl. split.
  - intros l a Hl Ha. exists (clamp_array a). rewrite lookup_clamp_store, Ha.
    rewrite decide_True; [|rewrite !elem_of_cons, elem_of_nil in Hl; tauto].
    by unfold clamp_array, clamp.
  - intros l Hl. rewrite lookup_clamp_store, decide_False; [done|].
    rewrite !elem_of_cons, elem_of_nil in Hl. tauto.
Qed.

(** Claim C9.  The [epsilon] argument of [Fdm3t.__init__] has no effect:
    any two values give the same store and the same object or exception,
    and the stored [self.out] is what [fdm3t] returns for epsilon = 1.0
    and the conductivities (Kh, Kh, Kv). *)
Theorem Fdm3t_epsilon_is_ignored σ gr t kxyz Ss FQ HI IBOUND :
  (∀ e1 e2,
     Fdm3t__init__ np_pi np_log spsolve σ gr t kxyz Ss FQ HI IBOUND e1
     = Fdm3t__init__ np_pi np_log spsolve σ gr t kxyz Ss FQ HI IBOUND e2)
  ∧ (∀ e σ' self,
       Fdm3t__init__ np_pi np_log spsolve σ gr t kxyz Ss FQ HI IBOUND e = (σ', Ok self) →
       fdm3t np_pi np_log spsolve σ gr t (KTuple [self_Kh self; self_Kh self; self_Kv self])
         Ss FQ HI IBOUND f1 = (σ', Ok (self_out self))).
Proof.
  split; [done|]. intros e σ' self. unfold Fdm3t__init__.
  destruct (class_asserts _ _ _ _ _ _) as [K|]; [|done].
  destruct (fdm3t _ _ _ _ _ _ _ _ _ _ _ _) as [σ1 [out|]] eqn:Hf; cbn; [|done].
  intros [= <- <-]. exact Hf.
Qed.

(** Claim C6 as amended, shape validation.  When one of [kx], [ky], [kz],
    [Ss] has a shape other than the grid's, [fdm3t] raises an
    AssertionError before anything is computed or written, whose message
    names the first such field (in that order) and shows its shape and the
    grid's; and every AssertionError [fdm3t] raises is of that kind: the
    shapes of [FQ], [HI] and [IBOUND] are not compared with the grid's.
    The constructor of the class raises, before [fdm3t] is called and
    before anything is written, an AssertionError that names the field
    when [Kh], [Kv] or [FQ] (the first of them, in that order) has a shape
    other than the grid's, and when [IBOUND] has one while [Kh], [Kv],
    [FQ] and [Ss] have the grid's shape. *)
Theorem shape_mismatch_is_asserted σ gr t kxyz Ss FQ HI IBOUND eps :
  (∀ k akx aky akz aSs name a,
     unpack_kxyz kxyz = Ok k →
     σ !! k.1.1 = Some akx → σ !! k.1.2 = Some aky → σ !! k.2 = Some akz →
     σ !! Ss = Some aSs →
     find (λ p, bool_decide (shape p.2 ≠ gr_shape gr))
       [("kx", akx); ("ky", aky); ("kz", akz); ("Ss", aSs)] = Some (name, a) →
     fdm3t np_pi np_log spsolve σ gr t kxyz Ss FQ HI IBOUND eps
     = (σ, Raise (AssertionError (shape_message name (shape a) (gr_shape gr)))))
  ∧ (∀ σ' msg,
       fdm3t np_pi np_log spsolve σ gr t kxyz Ss FQ HI IBOUND eps
       = (σ', Raise (AssertionError msg)) →
       σ' = σ
       ∧ ∃ name (a : ndarray F), name ∈ ["kx"; "ky"; "kz"; "Ss"] ∧ shape a ≠ gr_shape gr
           ∧ msg = shape_message name (shape a) (gr_shape gr))
  ∧ (∀ K aKh aKv aFQ name a,
       class_kxyz kxyz = Ok K →
       σ !! K.1 = Some aKh → σ !! K.2 = Some aKv → σ !! FQ = Some aFQ →
       find (λ p, bool_decide (shape p.2 ≠ gr_shape gr))
         [("Kh", aKh); ("Kv", aKv); ("FQ", aFQ)] = Some (name, a) →
       Fdm3t__init__ np_pi np_log spsolve σ gr t kxyz Ss FQ HI IBOUND eps
       = (σ, Raise (AssertionError ("gr.shape != " +:+ name +:+ ".shape"))))
  ∧ (∀ K aKh aKv aFQ aSs,
       class_kxyz kxyz = Ok K →
       σ !! K.1 = Some aKh → σ !! K.2 = Some aKv → σ !! FQ = Some aFQ →
       σ !! Ss = Some aSs →
       shape aKh = gr_shape gr → shape aKv = gr_shape gr →
       shape aFQ = gr_shape gr → shape aSs = gr_shape gr →
       shape IBOUND ≠ gr_shape gr →
       Fdm3t__init__ np_pi np_log spsolve σ gr t kxyz Ss FQ HI IBOUND eps
       = (σ, Raise (AssertionError "gr.shape != IBOUND.shape"))).
Proof.
  split; [|split; [|split]].
  - intros k akx aky akz aSs name a Hk Hx Hy Hz Hs Hfind.
    unfold fdm3t, validate, check_shape, deref. rewrite Hk. cbn.
    rewrite Hx. cbn. simpl in Hfind.
    destruct (decide (shape akx = gr_shape gr)) as [Ex|Ex].
    2:{ rewrite bool_decide_eq_true_2 in Hfind by done. by injection Hfind as <- <-. }
    rewrite bool_decide_eq_false_2 in Hfind by (intros ?; done).
    cbn. rewrite Hy. cbn.
    destruct (decide (shape aky = gr_shape gr)) as [Ey|Ey].
    2:{ rewrite bool_decide_eq_true_2 in Hfind by done. by injection Hfind as <- <-. }
    rewrite bool_decide_eq_false_2 in Hfind by (intros ?; done).
    cbn. rewrite Hz. cbn.
    destruct (decide (shape akz = gr_shape gr)) as [Ez|Ez].
    2:{ rewrite bool_decide_eq_true_2 in Hfind by done. by injection Hfind as <- <-. }
    rewrite bool_decide_eq_false_2 in Hfind by (intros ?; done).
    cbn. rewrite Hs. cbn.
    destruct (decide (shape aSs = gr_shape gr)) as [Es|Es].
    2:{ rewrite bool_decide_eq_true_2 in Hfind by done. by injection Hfind as <- <-. }
    rewrite bool_decide_eq_false_2 in Hfind by (intros ?; done). done.
  - intros σ' msg. unfold fdm3t.
    destruct (validate σ gr kxyz Ss) as [k|e] eqn:Hv.
    + intros [= <- H]. by apply solve_Raise in H.
    + intros [= <- ->]. split; [done|].
      apply validate_Raise in Hv as [Hv|(name & a & Hn & Ha & [= ->])]; [done|].
      by exists name, a.
  - intros K aKh aKv aFQ name a HK Hh Hv Hq Hfind.
    unfold Fdm3t__init__, class_asserts, assert_shape, deref. rewrite HK. cbn.
    rewrite Hh. cbn. simpl in Hfind.
    destruct (decide (gr_shape gr = shape aKh)) as [Eh|Eh].
    2:{ rewrite bool_decide_eq_true_2 in Hfind by congruence. by injection Hfind as <- <-. }
    rewrite bool_decide_eq_false_2 in Hfind by (intros N; by apply N).
    cbn. rewrite Hv. cbn.
    destruct (decide (gr_shape gr = shape aKv)) as [Ev|Ev].
    2:{ rewrite bool_decide_eq_true_2 in Hfind by congruence. by injection Hfind as <- <-. }
    rewrite bool_decide_eq_false_2 in Hfind by (intros N; by apply N).
    cbn. rewrite Hq. cbn.
    destruct (decide (gr_shape gr = shape aFQ)) as [Eq|Eq].
    2:{ rewrite bool_decide_eq_true_2 in Hfind by congruence. by injection Hfind as <- <-. }
    rewrite bool_decide_eq_false_2 in Hfind by (intros N; by apply N). done.
  - intros K aKh aKv aFQ aSs HK Hh Hv Hq Hs Eh Ev Eq Es Nib.
    unfold Fdm3t__init__, class_asserts, assert_shape, deref. rewrite HK. cbn.
    rewrite Hh. cbn. destruct (decide (gr_shape gr = shape aKh)); [|done]. cbn.
    rewrite Hv. cbn. destruct (decide (gr_shape gr = shape aKv)); [|done]. cbn.
    rewrite Hq. cbn. destruct (decide (gr_shape gr = shape aFQ)); [|done]. cbn.
    rewrite Hs. cbn. destruct (decide (gr_shape gr = shape aSs)); [|done]. cbn.
    destruct (decide (gr_shape gr = shape IBOUND)); [|done]. by destruct Nib.
Qed.

End Claims2.

(** * A solve in two parts *)

Section Restart.
Context {F : Type} {HN : Num F}.
Implicit Types (σ : gmap nat (ndarray F)) (k : nat * nat * nat).

Lemma clamp_store_idem σ k : clamp_store (clamp_store σ k) k = clamp_store σ k.
Proof.
  apply map_eq. intros l. rewrite !lookup_clamp_store.
  case_decide; [|done]. destruct (σ !! l); simpl; [|done]. by rewrite clamp_array_idem.
Qed.

Lemma clamp_store_insert_ne σ k l a :
  l ≠ k.1.1 → l ≠ k.1.2 → l ≠ k.2 →
  clamp_store (<[l := a]> σ) k = <[l := a]> (clamp_store σ k).
Proof.
  intros H1 H2 H3. unfold clamp_store.
  rewrite (alter_insert_ne _ k.1.1 l) by done.
  rewrite (alter_insert_ne _ k.1.2 l) by done.
  by rewrite (alter_insert_ne _ k.2 l) by done.
Qed.

Lemma validate_intro σ gr kxyz lSs k akx aky akz aSs :
  unpack_kxyz kxyz = Ok k →
  σ !! k.1.1 = Some akx → σ !! k.1.2 = Some aky → σ !! k.2 = Some akz →
  σ !! lSs = Some aSs →
  shape akx = gr_shape gr → shape aky = gr_shape gr →
  shape akz = gr_shape gr → shape aSs = gr_shape gr →
  validate σ gr kxyz lSs = Ok k.
Proof.
  intros Hk Hx Hy Hz Hs Sx Sy Sz Ss. unfold validate, check_shape, deref.
  rewrite Hk. cbn. rewrite Hx, Hy, Hz, Hs. cbn.
  rewrite !decide_True by done. done.
Qed.
End Restart.

Section Restart2.
Context {F : Type} {HN : Num F}.
Variable np_pi : F.
Variable np_log : F → F.
Variable spsolve : spmatrix F → list F → option (list F).
Implicit Types (σ : gmap nat (ndarray F)) (k : nat * nat * nat).

Lemma solve_intro σ gr t k lSs lFQ lHI IBOUND eps kx ky kz Ss fq hi s Phi0 os :
  σ !! k.1.1 = Some kx → σ !! k.1.2 = Some ky → σ !! k.2 = Some kz →
  σ !! lSs = Some Ss →
  length (data IBOUND) = gr_nod gr →
  length (dx gr) = nx gr → length (dy gr) = ny gr →
  build_setup np_pi np_log gr (data kx) (data ky) (data kz) (data Ss) (data IBOUND) eps = Ok s →
  t ≠ [] → nz gr ≠ 0 → ny gr ≠ 0 → nx gr ≠ 0 →
  σ !! lFQ = Some fq → σ !! lHI = Some hi →
  row_assign (gr_nod gr) (data hi) = Ok Phi0 →
  time_loop spsolve s (data fq) (np_diff t) Phi0 = Ok os →
  solve np_pi np_log spsolve σ gr t k lSs lFQ lHI IBOUND eps
  = Ok {| out_t := t; Phi := Phi0 :: (st_Phi <$> os);
          Q := st_Q <$> os; Qs := st_Qs <$> os;
          Qx := st_Qx <$> os; Qy := st_Qy <$> os; Qz := st_Qz <$> os |}.
Proof.
  intros Hkx Hky Hkz HSs Hn Ldx Ldy Hs Ht Hz Hy Hx Hfq Hhi HPhi0 Hos.
  unfold solve, deref. rewrite Hkx, Hky, Hkz, HSs, Hfq, Hhi. cbn.
  destruct (decide (length (data IBOUND) = gr_nod gr)); [|done]. cbn.
  destruct (decide (length (dx gr) = nx gr ∧ length (dy gr) = ny gr)) as [_|N];
    [|by destruct N]. cbn.
  rewrite Hs. cbn.
  destruct (decide (t = [] ∨ nz gr = 0 ∨ ny gr = 0 ∨ nx gr = 0))
    as [[?|[?|[?|?]]]|]; try done.
  cbn. rewrite HPhi0. cbn. by rewrite Hos.
Qed.

Lemma time_loop_cons s FQ dt dts prev os :
  time_loop spsolve s FQ (dt :: dts) prev = Ok os ↔
  ∃ o os', time_step spsolve s FQ dt prev = Ok o
           ∧ time_loop spsolve s FQ dts (st_Phi o) = Ok os' ∧ os = o :: os'.
Proof.
  change (time_loop spsolve s FQ (dt :: dts) prev)
    with (time_step spsolve s FQ dt prev ≫= λ o,
            time_loop spsolve s FQ dts (st_Phi o) ≫= λ os', Ok (o :: os')).
  split.
  - intros H. apply bind_Ok in H as (o & Ho & H). apply bind_Ok in H as (os' & Hos' & H).
    injection H as <-. by exists o, os'.
  - intros (o & os' & Ho & Hos' & ->). rewrite Ho. cbn. by rewrite Hos'.
Qed.

(** Claim C8 as amended, partition of the time interval.  The head at the
    last time of a solve over [t0, t1, t2] is the head a second solve over
    [t1, t2] ends with when it is started from the head the solve over
    [t0, t1] ended with, all other inputs being the same: nothing but the
    head is carried from one step to the next.  (A single step over
    [t0, t2] is a different computation: see
    [one_step_differs_from_two_steps].) *)
Theorem stepping_has_no_hidden_state σ gr kxyz Ss FQ HI IBOUND eps t0 t1 t2 σ' out HI' :
  fdm3t np_pi np_log spsolve σ gr [t0; t1; t2] kxyz Ss FQ HI IBOUND eps = (σ', Ok out) →
  σ' !! HI' = None →
  ∃ out1 phi1 out2,
    fdm3t np_pi np_log spsolve σ gr [t0; t1] kxyz Ss FQ HI IBOUND eps = (σ', Ok out1)
    ∧ Phi out1 !! 1 = Some phi1
    ∧ fdm3t np_pi np_log spsolve (restart_store σ' gr HI' phi1) gr [t1; t2] kxyz Ss FQ HI'
        IBOUND eps = (restart_store σ' gr HI' phi1, Ok out2)
    ∧ Phi out2 !! 1 = Phi out !! 2.
Proof.
  intros H Hfresh. apply fdm3t_inv in H as (k & Hv & -> & H).
  pose proof (solve_reshaped _ _ _ _ _ _ _ _ _ _ _ _ _ H) as [Ldx Ldy].
  apply solve_inv in H as (kx & ky & kz & aSs & fq & hi & s & Phi0 & os & Hkx & Hky & Hkz
    & HSs & Hn & Hs & Ht & Hz & Hy & Hx & Hfq & Hhi & HPhi0 & Hos & ->).
  change (np_diff [t0; t1; t2]) with [fsub t1 t0; fsub t2 t1] in Hos.
  apply time_loop_cons in Hos as (o1 & os' & Ho1 & Hos' & ->).
  apply time_loop_cons in Hos' as (o2 & os'' & Ho2 & Hnil & ->).
  injection Hnil as <-.
  pose proof (build_setup_inv _ _ _ _ _ _ _ _ _ _ Hs) as (Hgr & _ & Ha & Hi & Hf & _).
  assert (length (st_Phi o1) = gr_nod gr) as Hlen1.
  { rewrite <- Hn. eapply time_step_length; try done. by rewrite Hgr. }
  exists {| out_t := [t0; t1]; Phi := Phi0 :: (st_Phi <$> [o1]);
            Q := st_Q <$> [o1]; Qs := st_Qs <$> [o1];
            Qx := st_Qx <$> [o1]; Qy := st_Qy <$> [o1]; Qz := st_Qz <$> [o1] |},
         (st_Phi o1),
         {| out_t := [t1; t2]; Phi := st_Phi o1 :: (st_Phi <$> [o2]);
            Q := st_Q <$> [o2]; Qs := st_Qs <$> [o2];
            Qx := st_Qx <$> [o2]; Qy := st_Qy <$> [o2]; Qz := st_Qz <$> [o2] |}.
  split; [|split; [done|split; [|done]]].
  - unfold fdm3t. rewrite Hv. f_equal.
    eapply solve_intro; try done.
    apply time_loop_cons. by exists o1, [].
  - pose proof (validate_Ok _ _ _ _ _ Hv) as (Hk & akx & aky & akz & aSs0 & Lx & Ly & Lz & Ls
      & Sx & Sy & Sz & SS).
    assert (HI' ≠ k.1.1) as N1 by (intros ->; congruence).
    assert (HI' ≠ k.1.2) as N2 by (intros ->; congruence).
    assert (HI' ≠ k.2) as N3 by (intros ->; congruence).
    assert (HI' ≠ Ss) as N4 by (intros ->; congruence).
    assert (HI' ≠ FQ) as N5 by (intros ->; congruence).
    assert (∀ l a0 b, σ !! l = Some a0 → clamp_store σ k !! l = Some b → shape b = shape a0)
      as Hshape.
    { intros l a0 b Hl. rewrite lookup_clamp_store, Hl. case_decide; intros [= <-]; done. }
    unfold fdm3t, restart_store.
    rewrite (validate_intro _ gr kxyz Ss k kx ky kz aSs); try done;
      try (rewrite lookup_insert_ne by done; done).
    + rewrite clamp_store_insert_ne, clamp_store_idem by done. f_equal.
      eapply solve_intro; try done; try (rewrite lookup_insert_ne by done; done).
      * by rewrite lookup_insert_eq.
      * simpl. by apply row_assign_same.
      * apply time_loop_cons. by exists o2, [].
    + by rewrite (Hshape _ _ _ Lx Hkx).
    + by rewrite (Hshape _ _ _ Ly Hky).
    + by rewrite (Hshape _ _ _ Lz Hkz).
    + by rewrite (Hshape _ _ _ Ls HSs).
Qed.
End Restart2.

Lemma stepping_has_no_hidden_state_witness :
  ∃ out1 phi1 out2,
    run3 [0; 1]%float = (store3', Ok out1)
    ∧ Phi out1 !! 1 = Some phi1
    ∧ fdm3t pi64 log_unused dense_solve (restart_store store3' gr3 4 phi1) gr3 [1; 2]%float
        (KArray l_K) l_Ss l_FQ 4 IBOUND3 1%float = (restart_store store3' gr3 4 phi1, Ok out2)
    ∧ Phi out2 !! 1 = Phi out3 !! 2.
Proof.
  pose proof (stepping_has_no_hidden_state pi64 log_unused dense_solve store3 gr3
                (KArray l_K) l_Ss l_FQ l_HI IBOUND3 1%float 0%float 1%float 2%float
                store3' out3 4) as H.
  apply H; vm_compute; reflexivity.
Defined.

Lemma run3_02 : run3 [0; 2]%float = (store3', Ok out3_one_step).
Proof. vm_compute. reflexivity. Qed.

(** Claim C8 fails: over the times 0, 1, 2 the active cell ends with the
    head 2.25, over the times 0, 2 with the head 3. *)
Lemma one_step_differs_from_two_steps :
  (run3 [0; 1; 2]%float).2 = Ok out3 ∧ (run3 [0; 2]%float).2 = Ok out3_one_step
  ∧ Phi out3 !! 2 ≠ Phi out3_one_step !! 1.
Proof.
  split; [by rewrite run3_012|]. split; [by rewrite run3_02|].
  simpl. intros H.
  assert (PrimFloat.eqb 2.25 3 = true) as E.
  { change 2.25%float with (default 0%float ((default [] (Some [0; 2.25; nan]%float)) !! 1)).
    rewrite H. reflexivity. }
  vm_compute in E. discriminate.
Qed.

(** * Arrays of three axes *)

Lemma idx3_lt nz ny nx z y x :
  z < nz → y < ny → x < nx → idx3 ny nx z y x < nz * ny * nx.
Proof.
  intros Hz Hy Hx. unfold idx3.
  assert (z * ny + y + 1 ≤ nz * ny) as H1 by nia.
  assert ((z * ny + y + 1) * nx ≤ nz * ny * nx) as H2 by (apply Nat.mul_le_mono_r; lia).
  lia.
Qed.

Lemma idx3_unravel ny nx z y x :
  y < ny → x < nx →
  idx3 ny nx z y x / (ny * nx) = z
  ∧ idx3 ny nx z y x / nx mod ny = y
  ∧ idx3 ny nx z y x mod nx = x.
Proof.
  intros Hy Hx. unfold idx3.
  assert ((z * ny + y) * nx + x = z * (ny * nx) + (y * nx + x)) as E by lia.
  split; [|split].
  - rewrite E. symmetry. apply (Nat.div_unique _ _ z (y * nx + x)); nia.
  - assert (((z * ny + y) * nx + x) / nx = z * ny + y) as ->.
    { symmetry. apply (Nat.div_unique _ _ (z * ny + y) x); lia. }
    symmetry. apply (Nat.mod_unique _ _ z y); lia.
  - symmetry. apply (Nat.mod_unique _ _ (z * ny + y) x); lia.
Qed.

Lemma length_tab3 {A} nz ny nx (f : nat → nat → nat → A) :
  length (tab3 nz ny nx f) = nz * ny * nx.
Proof. unfold tab3. by rewrite length_fmap, length_seq. Qed.

Lemma lookup_tab3 {A} nz ny nx (f : nat → nat → nat → A) z y x :
  z < nz → y < ny → x < nx →
  tab3 nz ny nx f !! idx3 ny nx z y x = Some (f z y x).
Proof.
  intros Hz Hy Hx. unfold tab3.
  rewrite list_lookup_fmap, lookup_seq_lt by by apply idx3_lt.
  simpl. destruct (idx3_unravel ny nx z y x Hy Hx) as (-> & -> & ->). done.
Qed.

Section Axial.
Context {F : Type} {HN : Num F}.
Variable np_pi : F.
Variable np_log : F → F.

Lemma cell_tab3 nz ny nx (f : nat → nat → nat → F) z y x :
  z < nz → y < ny → x < nx → cell ny nx (tab3 nz ny nx f) z y x = f z y x.
Proof. intros. unfold cell, at_. by rewrite lookup_tab3. Qed.

Lemma cell_mask_fill_false ny nx (a : list F) m c z y x :
  m !! idx3 ny nx z y x = Some false → cell ny nx (mask_fill a m c) z y x = cell ny nx a z y x.
Proof. intros Hm. unfold cell, at_. by rewrite lookup_mask_fill_false. Qed.

(** In axial mode the conductance of the first face of a row adds the
    outer half of the second cell and the inner half of the first cell:
    it reads [x[0]], the guarded innermost radius. *)
Lemma axial_first_conductance gr kx ky kz inact z y :
  axial gr = true → z < nz gr → y < ny gr → 2 ≤ nx gr →
  inact !! idx3 (ny gr) (nx gr) z y 0 = Some false →
  inact !! idx3 (ny gr) (nx gr) z y 1 = Some false →
  conductance_x gr (half_resistances np_pi np_log gr kx ky kz inact)
    !! idx3 (ny gr) (nx gr - 1) z y 0
  = Some (fdiv f1
      (fadd
         (fmul (fdiv f1 (fmul (fmul (fmul f2 np_pi) (cell (ny gr) (nx gr) kx z y 1))
                              (cell (ny gr) (nx gr) (DZ gr) z y 1)))
               (np_log (fdiv (at_ (guard_x (gx gr)) 2) (at_ (xm gr) 1))))
         (fmul (fdiv f1 (fmul (fmul (fmul f2 np_pi) (cell (ny gr) (nx gr) kx z y 0))
                              (cell (ny gr) (nx gr) (DZ gr) z y 0)))
               (np_log (fdiv (at_ (xm gr) 0) (at_ (guard_x (gx gr)) 0)))))).
Proof.
  intros Hax Hz Hy Hx Hi0 Hi1. unfold conductance_x.
  rewrite lookup_tab3 by lia. unfold half_resistances. rewrite Hax. simpl.
  rewrite !cell_mask_fill_false by done.
  unfold axial_Rx1, axial_Rx2. rewrite !cell_tab3 by lia. done.
Qed.

(** Claim C5, evaluated on the code.  In axial mode, when the innermost
    boundary radius [x[0]] is not positive, the proxy [0.1 * x[1]] put in its
    place is read by the conductance of the first face of every row: with
    both cells of the face active, [Cx[z, y, 0]] is
    1 / (Rx1[z, y, 1] + Rx2[z, y, 0]) and
    Rx2[z, y, 0] = log(xm[0] / proxy) / (2 pi kx[z, y, 0] DZ[z, y, 0]).
    The inner half-resistance of the innermost cell is not unused. *)
Theorem axial_first_conductance_reads_proxy gr kx ky kz inact z y x0 x1 xs :
  axial gr = true → z < nz gr → y < ny gr → 2 ≤ nx gr →
  inact !! idx3 (ny gr) (nx gr) z y 0 = Some false →
  inact !! idx3 (ny gr) (nx gr) z y 1 = Some false →
  gx gr = x0 :: x1 :: xs → fltb f0 x0 = false →
  conductance_x gr (half_resistances np_pi np_log gr kx ky kz inact)
    !! idx3 (ny gr) (nx gr - 1) z y 0
  = Some (fdiv f1
      (fadd
         (fmul (fdiv f1 (fmul (fmul (fmul f2 np_pi) (cell (ny gr) (nx gr) kx z y 1))
                              (cell (ny gr) (nx gr) (DZ gr) z y 1)))
               (np_log (fdiv (at_ (gx gr) 2) (at_ (xm gr) 1))))
         (fmul (fdiv f1 (fmul (fmul (fmul f2 np_pi) (cell (ny gr) (nx gr) kx z y 0))
                              (cell (ny gr) (nx gr) (DZ gr) z y 0)))
               (np_log (fdiv (at_ (xm gr) 0) (fmul ftenth x1)))))).
Proof.
  intros Hax Hz Hy Hx Hi0 Hi1 Hgx Hx0.
  rewrite (axial_first_conductance gr kx ky kz inact z y) by done.
  rewrite Hgx. unfold guard_x, at_. simpl. by rewrite Hx0.
Qed.
End Axial.

Lemma axial_first_conductance_reads_proxy_witness :
  conductance_x gr_axial
    (half_resistances pi64 ln_series gr_axial [1; 1]%float [1; 1]%float [1; 1]%float
       [false; false])
    !! 0
  = Some (1 / (1 / (2 * pi64 * 1 * 1) * ln_series (2 / 1.5)
               + 1 / (2 * pi64 * 1 * 1) * ln_series (0.5 / (0x1.999999999999ap-4 * 1))))%float.
Proof.
  pose proof (axial_first_conductance_reads_proxy pi64 ln_series gr_axial
                [1; 1]%float [1; 1]%float [1; 1]%float [false; false] 0 0
                0%float 1%float [2%float]) as H.
  apply H; try reflexivity; simpl; lia.
Defined.

(** The same face for every [np.log] and [np.pi]: the argument of the second
    logarithm is xm[0] / (0.1 * x[1]) = 0.5 / 0.1. *)
Lemma axial_example_conductance (pi : float) (log : float → float) :
  conductance_x gr_axial
    (half_resistances pi log gr_axial [1; 1]%float [1; 1]%float [1; 1]%float [false; false])
  = [(1 / (1 / (2 * pi * 1 * 1) * log (2 / 1.5)
           + 1 / (2 * pi * 1 * 1) * log (0.5 / (0x1.999999999999ap-4 * 1))))%float].
Proof. reflexivity. Qed.

(** * Cell numbers *)

Lemma idx3_inj ny nx z y x z' y' x' :
  y < ny → x < nx → y' < ny → x' < nx →
  idx3 ny nx z y x = idx3 ny nx z' y' x' → z = z' ∧ y = y' ∧ x = x'.
Proof.
  intros Hy Hx Hy' Hx' E.
  destruct (idx3_unravel ny nx z y x Hy Hx) as (E1 & E2 & E3).
  destruct (idx3_unravel ny nx z' y' x' Hy' Hx') as (E1' & E2' & E3').
  rewrite E in E1, E2, E3. lia.
Qed.

(** Every position of an array of shape (nz, ny, nx) is the position of
    one cell. *)
Lemma unravel_range nz ny nx k :
  k < nz * ny * nx →
  k / (ny * nx) < nz ∧ k / nx mod ny < ny ∧ k mod nx < nx
  ∧ idx3 ny nx (k / (ny * nx)) (k / nx mod ny) (k mod nx) = k.
Proof.
  intros Hk.
  assert (nx ≠ 0) as Hnx by (intros ->; lia).
  assert (ny ≠ 0) as Hny by (intros ->; lia).
  split; [|split; [|split]].
  - apply Nat.Div0.div_lt_upper_bound. lia.
  - by apply Nat.mod_upper_bound.
  - by apply Nat.mod_upper_bound.
  - unfold idx3. rewrite (Nat.mul_comm ny nx), <- Nat.Div0.div_div.
    pose proof (Nat.div_mod_eq (k / nx) ny) as E1.
    pose proof (Nat.div_mod_eq k nx) as E2.
    rewrite (Nat.mul_comm _ ny), <- E1. lia.
Qed.

Lemma idx3_east ny nx z y x : idx3 ny nx z y (x + 1) = idx3 ny nx z y x + 1.
Proof. unfold idx3. lia. Qed.

Lemma idx3_south ny nx z y x : idx3 ny nx z (y + 1) x = idx3 ny nx z y x + nx.
Proof. unfold idx3. lia. Qed.

Lemma idx3_bottom ny nx z y x : idx3 ny nx (z + 1) y x = idx3 ny nx z y x + ny * nx.
Proof. unfold idx3. lia. Qed.

(** * Filtering a tabulated array *)

Lemma filter_none {A} (P : A → Prop) `{∀ a, Decision (P a)} (l : list A) :
  (∀ a, a ∈ l → ¬ P a) → filter P l = [].
Proof.
  induction l as [|a l IH]; intros Hl; [done|].
  rewrite filter_cons_False by (apply Hl; left). apply IH. intros b Hb. apply Hl. by right.
Qed.

Lemma filter_fmap_seq_none {A} (P : A → Prop) `{∀ a, Decision (P a)} (g : nat → A) n :
  (∀ k, k < n → ¬ P (g k)) → filter P (g <$> seq 0 n) = [].
Proof.
  intros Hg. apply filter_none. intros a (k & -> & Hk)%list_elem_of_fmap.
  apply elem_of_seq in Hk. apply Hg. lia.
Qed.

Lemma filter_fmap_seq_one {A} (P : A → Prop) `{∀ a, Decision (P a)} (g : nat → A) n k0 :
  k0 < n → P (g k0) → (∀ k, k < n → P (g k) → k = k0) →
  filter P (g <$> seq 0 n) = [g k0].
Proof.
  intros Hk0 HP Huniq.
  replace n with (k0 + S (n - S k0)) by lia.
  rewrite seq_app, fmap_app, filter_app. simpl.
  rewrite filter_cons_True by done.
  rewrite !filter_none; [done| |].
  - intros a (k & -> & Hk)%list_elem_of_fmap. apply elem_of_seq in Hk.
    intros HPk. assert (k = k0) by (apply Huniq; [lia|done]). lia.
  - intros a (k & -> & Hk)%list_elem_of_fmap. apply elem_of_seq in Hk.
    intros HPk. assert (k = k0) by (apply Huniq; [lia|done]). lia.
Qed.

Lemma filter_tab3_none {A} (P : A → Prop) `{∀ a, Decision (P a)} nz ny nx
    (f : nat → nat → nat → A) :
  (∀ z y x, z < nz → y < ny → x < nx → ¬ P (f z y x)) →
  filter P (tab3 nz ny nx f) = [].
Proof.
  intros Hf. unfold tab3. apply filter_fmap_seq_none. intros k Hk.
  destruct (unravel_range nz ny nx k Hk) as (Hz & Hy & Hx & _). by apply Hf.
Qed.

Lemma filter_tab3_one {A} (P : A → Prop) `{∀ a, Decision (P a)} nz ny nx
    (f : nat → nat → nat → A) z0 y0 x0 :
  z0 < nz → y0 < ny → x0 < nx → P (f z0 y0 x0) →
  (∀ z y x, z < nz → y < ny → x < nx → P (f z y x) → z = z0 ∧ y = y0 ∧ x = x0) →
  filter P (tab3 nz ny nx f) = [f z0 y0 x0].
Proof.
  intros Hz0 Hy0 Hx0 HP Huniq. unfold tab3.
  rewrite (filter_fmap_seq_one P _ _ (idx3 ny nx z0 y0 x0)).
  - destruct (idx3_unravel ny nx z0 y0 x0 Hy0 Hx0) as (-> & -> & ->). done.
  - by apply idx3_lt.
  - destruct (idx3_unravel ny nx z0 y0 x0 Hy0 Hx0) as (-> & -> & ->). done.
  - intros k Hk HPk.
    destruct (unravel_range nz ny nx k Hk) as (Hz & Hy & Hx & <-).
    destruct (Huniq _ _ _ Hz Hy Hx HPk) as (-> & -> & ->). done.
Qed.

Lemma zip_tab3 {A B} nz ny nx (f : nat → nat → nat → A) (g : nat → nat → nat → B) :
  zip (tab3 nz ny nx f) (tab3 nz ny nx g) = tab3 nz ny nx (λ z y x, (f z y x, g z y x)).
Proof.
  unfold tab3. rewrite zip_with_fmap_l, zip_with_fmap_r, zip_with_diag. done.
Qed.

(** An array of the right length is the table of its cells. *)
Lemma tab3_cell {F} `{Num F} nz ny nx (l : list F) :
  length l = nz * ny * nx → tab3 nz ny nx (cell ny nx l) = l.
Proof.
  intros Hl. apply list_eq. intros k. unfold tab3.
  rewrite list_lookup_fmap.
  destruct (decide (k < nz * ny * nx)) as [Hk|Hk].
  - rewrite lookup_seq_lt by done. simpl.
    destruct (unravel_range nz ny nx k Hk) as (_ & _ & _ & E).
    unfold cell, at_. rewrite E.
    destruct (l !! k) eqn:El; [done|]. apply lookup_ge_None in El. lia.
  - rewrite lookup_seq_ge by lia. simpl. symmetry. apply lookup_ge_None. lia.
Qed.

(** * Sums in exact arithmetic *)

Lemma qsum_cons a l : qsum (a :: l) = (a + qsum l)%Qc.
Proof. reflexivity. Qed.

Lemma qsum_app l1 l2 : qsum (l1 ++ l2) = (qsum l1 + qsum l2)%Qc.
Proof.
  induction l1 as [|a l1 IH]; [simpl; ring|].
  rewrite <- app_comm_cons, !qsum_cons, IH. ring.
Qed.

Lemma qsum_opp l : qsum (Qcopp <$> l) = (- qsum l)%Qc.
Proof.
  induction l as [|a l IH]; [simpl; ring|].
  rewrite fmap_cons, !qsum_cons, IH. ring.
Qed.

Lemma foldl_xq_add_fin l a :
  Forall (λ b, is_fin b = true) l →
  foldl xq_add (Fin a) l = Fin (a + qsum (fin_val <$> l))%Qc.
Proof.
  intros Hl. revert a. induction Hl as [|b l Hb Hl IH]; intros a.
  - simpl. f_equal. ring.
  - destruct b as [q| | |]; try done.
    rewrite fmap_cons, qsum_cons. simpl. rewrite IH. f_equal. ring.
Qed.

Lemma fsum_fin l :
  Forall (λ b, is_fin b = true) l → fsum l = Fin (qsum (fin_val <$> l)).
Proof.
  intros Hl. unfold fsum. simpl. rewrite foldl_xq_add_fin by done. f_equal. ring.
Qed.

(** A sum is finite only if every term is. *)
Lemma foldl_xq_add_not_fin l a :
  is_fin a = false → is_fin (foldl xq_add a l) = false.
Proof.
  revert a. induction l as [|b l IH]; intros a Ha; simpl; [done|].
  apply IH. by destruct a, b.
Qed.

Lemma fsum_is_fin l : is_fin (fsum l) = true → Forall (λ b, is_fin b = true) l.
Proof.
  unfold fsum. simpl. generalize (Q2Qc 0).
  induction l as [|b l IH]; intros a H; simpl in *; [done|].
  destruct b as [q| | |]; simpl in *.
  - constructor; [done|]. by apply (IH (a + q)%Qc).
  - by rewrite (foldl_xq_add_not_fin l PInf) in H.
  - by rewrite (foldl_xq_add_not_fin l NInf) in H.
  - by rewrite (foldl_xq_add_not_fin l NaN) in H.
Qed.

Lemma xq_add_is_fin a b : is_fin (xq_add a b) = true → is_fin a = true ∧ is_fin b = true.
Proof. by destruct a, b. Qed.

Lemma xq_sub_is_fin a b : is_fin (xq_sub a b) = true → is_fin a = true ∧ is_fin b = true.
Proof. by destruct a, b. Qed.

Lemma xq_scale_not_fin s a : is_fin a = false → is_fin (xq_scale s a) = false.
Proof. by destruct s, a. Qed.

Lemma xq_mul_is_fin a b : is_fin (xq_mul a b) = true → is_fin a = true ∧ is_fin b = true.
Proof.
  destruct a as [p| | |], b as [q| | |]; simpl; try done;
    intros H; by rewrite xq_scale_not_fin in H.
Qed.

Lemma is_fin_Fin a : is_fin a = true → a = Fin (fin_val a).
Proof. by destruct a. Qed.

Lemma fin_val_opp a : fin_val (xq_opp a) = (- fin_val a)%Qc.
Proof. destruct a; simpl; try done; ring. Qed.

Lemma is_fin_opp a : is_fin (xq_opp a) = is_fin a.
Proof. by destruct a. Qed.

(** * Rows of a sparse matrix *)

Section SparseFacts.
Context {F : Type} {HN : Num F}.
Implicit Types (es : list (nat * nat * F)) (M : spmatrix F).

Lemma row_entries_app i es1 es2 :
  row_entries i (es1 ++ es2) = row_entries i es1 ++ row_entries i es2.
Proof. apply filter_app. Qed.

Lemma row_entries_fmap_val i (g : F → F) es :
  row_entries i ((λ e, (e.1, g e.2)) <$> es) = (λ e, (e.1, g e.2)) <$> row_entries i es.
Proof.
  unfold row_entries. induction es as [|e es IH]; [done|].
  rewrite fmap_cons. destruct (decide (e_row e = i)) as [E|E].
  - rewrite !filter_cons_True by done. by rewrite fmap_cons, IH.
  - rewrite !filter_cons_False by done. done.
Qed.

Lemma row_entries_diag_from off i (d : list F) :
  row_entries i (imap (λ k v, (off + k, off + k, v)) d)
  = match (if decide (off ≤ i) then d !! (i - off) else None) with
    | Some v => [(i, i, v)]
    | None => []
    end.
Proof.
  unfold row_entries. revert off. induction d as [|v d IH]; intros off.
  - simpl. by case_decide.
  - rewrite imap_cons.
    assert (imap ((λ k w, (off + k, off + k, w)) ∘ S) d
            = imap (λ k w, (S off + k, S off + k, w)) d) as ->.
    { apply imap_ext. intros k w _. simpl. repeat f_equal; lia. }
    destruct (decide (off + 0 = i)) as [E|E].
    + rewrite filter_cons_True by done. rewrite IH.
      rewrite decide_False by lia. rewrite decide_True by lia.
      replace (i - off) with 0 by lia. simpl. by rewrite <- E.
    + rewrite filter_cons_False by done. rewrite IH.
      destruct (decide (S off ≤ i)).
      * rewrite decide_True by lia. replace (i - off) with (S (i - S off)) by lia. done.
      * destruct (decide (off ≤ i)); [lia|done].
Qed.

Lemma row_entries_diags i (d : list F) :
  row_entries i (sp_entries (sp_diags d))
  = match d !! i with Some v => [(i, i, v)] | None => [] end.
Proof.
  pose proof (row_entries_diag_from 0 i d) as H.
  rewrite decide_True, Nat.sub_0_r in H by lia. exact H.
Qed.

Lemma sp_row_sums_lookup M i :
  i < sp_rows M →
  sp_row_sums M !! i = Some (fsum (e_val <$> row_entries i (sp_entries M))).
Proof. intros Hi. unfold sp_row_sums. by rewrite list_lookup_fmap, lookup_seq_lt. Qed.

Lemma sp_dot_lookup M v i :
  i < sp_rows M →
  sp_dot M v !! i
  = Some (fsum ((λ e, fmul (e_val e) (at_ v (e_col e))) <$> row_entries i (sp_entries M))).
Proof. intros Hi. unfold sp_dot. by rewrite list_lookup_fmap, lookup_seq_lt. Qed.

(** Row [i] of the system matrix: the conductances of the row with their
    sign changed, then their sum on the diagonal. *)
Lemma system_matrix_row (A0 : spmatrix F) i :
  i < sp_rows A0 →
  row_entries i (sp_entries (system_matrix A0))
  = ((λ e, (e.1, fopp e.2)) <$> row_entries i (sp_entries A0))
    ++ [(i, i, fsum (e_val <$> row_entries i (sp_entries A0)))].
Proof.
  intros Hi. unfold system_matrix, sp_add, sp_neg. simpl.
  rewrite row_entries_app, row_entries_fmap_val.
  change (imap (λ i0 v, (i0, i0, v)) (sp_row_sums A0))
    with (sp_entries (sp_diags (sp_row_sums A0))).
  by rewrite row_entries_diags, sp_row_sums_lookup.
Qed.
End SparseFacts.

(** * The conductance matrix, row by row *)

Section MatrixRows.
Context {F : Type} {HN : Num F}.

Lemma nod_at_standard (gr : Grid F) z y x :
  standard_numbering gr → z < nz gr → y < ny gr → x < nx gr →
  nod_at gr z y x = idx3 (ny gr) (nx gr) z y x.
Proof.
  intros Hs Hz Hy Hx. unfold nod_at. rewrite Hs.
  rewrite lookup_seq_lt by by apply idx3_lt. done.
Qed.

Lemma conductance_matrix_inv (gr : Grid F) Cx Cy Cz A0 :
  conductance_matrix gr Cx Cy Cz = Ok A0 →
  sp_rows A0 = gr_nod gr ∧ sp_cols A0 = gr_nod gr
  ∧ sp_entries A0
    = zip (zip (IE gr ++ IW gr ++ IN gr ++ IS gr ++ IB gr ++ IT gr)
               (IW gr ++ IE gr ++ IS gr ++ IN gr ++ IT gr ++ IB gr))
          (Cx ++ Cx ++ Cy ++ Cy ++ Cz ++ Cz).
Proof.
  unfold conductance_matrix, csc_matrix. destruct (_ && _); [|done].
  by intros [= <-].
Qed.

(** The triplets of line 138 as six tables, one for each direction. *)
Lemma conductance_blocks (gr : Grid F) Cx Cy Cz :
  length Cx = nz gr * ny gr * (nx gr - 1) →
  length Cy = nz gr * (ny gr - 1) * nx gr →
  length Cz = (nz gr - 1) * ny gr * nx gr →
  zip (zip (IE gr ++ IW gr ++ IN gr ++ IS gr ++ IB gr ++ IT gr)
           (IW gr ++ IE gr ++ IS gr ++ IN gr ++ IT gr ++ IB gr))
      (Cx ++ Cx ++ Cy ++ Cy ++ Cz ++ Cz)
  = tab3 (nz gr) (ny gr) (nx gr - 1) (λ z y c,
      (nod_at gr z y (c + 1), nod_at gr z y c, cell (ny gr) (nx gr - 1) Cx z y c))
    ++ tab3 (nz gr) (ny gr) (nx gr - 1) (λ z y c,
      (nod_at gr z y c, nod_at gr z y (c + 1), cell (ny gr) (nx gr - 1) Cx z y c))
    ++ tab3 (nz gr) (ny gr - 1) (nx gr) (λ z y c,
      (nod_at gr z y c, nod_at gr z (y + 1) c, cell (ny gr - 1) (nx gr) Cy z y c))
    ++ tab3 (nz gr) (ny gr - 1) (nx gr) (λ z y c,
      (nod_at gr z (y + 1) c, nod_at gr z y c, cell (ny gr - 1) (nx gr) Cy z y c))
    ++ tab3 (nz gr - 1) (ny gr) (nx gr) (λ z y c,
      (nod_at gr (z + 1) y c, nod_at gr z y c, cell (ny gr) (nx gr) Cz z y c))
    ++ tab3 (nz gr - 1) (ny gr) (nx gr) (λ z y c,
      (nod_at gr z y c, nod_at gr (z + 1) y c, cell (ny gr) (nx gr) Cz z y c)).
Proof.
  intros Hx Hy Hz.
  rewrite <- (tab3_cell _ _ _ Cx Hx) at 1 2.
  rewrite <- (tab3_cell _ _ _ Cy Hy) at 1 2.
  rewrite <- (tab3_cell _ _ _ Cz Hz) at 1 2.
  unfold IE, IW, IN, IS, IB, IT.
  repeat (rewrite zip_with_app by (by rewrite !length_tab3)).
  repeat (rewrite zip_with_app by (by rewrite ?length_zip_with, !length_tab3, ?Nat.min_id)).
  by rewrite !zip_tab3.
Qed.

(** The entries of one row in one table: at most one. *)
Lemma row_entries_table n1 n2 n3 (rowf colf : nat → nat → nat → nat)
    (valf : nat → nat → nat → F) i z1 y1 x1 (cond : Prop) `{Decision cond} :
  (cond → z1 < n1 ∧ y1 < n2 ∧ x1 < n3 ∧ rowf z1 y1 x1 = i) →
  (∀ z y x, z < n1 → y < n2 → x < n3 → rowf z y x = i →
     cond ∧ z = z1 ∧ y = y1 ∧ x = x1) →
  row_entries i (tab3 n1 n2 n3 (λ z y x, (rowf z y x, colf z y x, valf z y x)))
  = if decide cond then [(i, colf z1 y1 x1, valf z1 y1 x1)] else [].
Proof.
  intros Hin Huniq. unfold row_entries. case_decide as Hc.
  - destruct (Hin Hc) as (Hz & Hy & Hx & Hr).
    rewrite (filter_tab3_one _ n1 n2 n3 _ z1 y1 x1); try done.
    + by rewrite Hr.
    + intros z y x Hz' Hy' Hx' HP. by destruct (Huniq z y x Hz' Hy' Hx' HP) as (_ & ?).
  - apply filter_tab3_none. intros z y x Hz Hy Hx HP.
    by destruct (Huniq z y x Hz Hy Hx HP) as (? & _).
Qed.

Lemma conductance_matrix_row (gr : Grid F) Cx Cy Cz A0 z y x :
  standard_numbering gr →
  conductance_matrix gr Cx Cy Cz = Ok A0 →
  length Cx = nz gr * ny gr * (nx gr - 1) →
  length Cy = nz gr * (ny gr - 1) * nx gr →
  length Cz = (nz gr - 1) * ny gr * nx gr →
  z < nz gr → y < ny gr → x < nx gr →
  row_entries (idx3 (ny gr) (nx gr) z y x) (sp_entries A0) = faces gr Cx Cy Cz z y x.
Proof.
  intros Hs HA Lx Ly Lz Hz Hy Hx.
  apply conductance_matrix_inv in HA as (_ & _ & ->).
  rewrite conductance_blocks by done. rewrite !row_entries_app. unfold faces.
  repeat f_equal.
  - rewrite (row_entries_table _ _ _ _ _ _ _ z y (x - 1) (1 ≤ x)).
    + case_decide; [|done]. rewrite nod_at_standard by (done || lia). done.
    + intros Hc. rewrite nod_at_standard by (done || lia).
      replace (x - 1 + 1) with x by lia. repeat split; (done || lia).
    + intros z' y' x' Hz' Hy' Hx'. rewrite nod_at_standard by (done || lia).
      intros E. apply idx3_inj in E; lia.
  - rewrite (row_entries_table _ _ _ _ _ _ _ z y x (x + 1 < nx gr)).
    + case_decide; [|done]. rewrite nod_at_standard by (done || lia). done.
    + intros Hc. rewrite nod_at_standard by (done || lia). repeat split; (done || lia).
    + intros z' y' x' Hz' Hy' Hx'. rewrite nod_at_standard by (done || lia).
      intros E. apply idx3_inj in E; lia.
  - rewrite (row_entries_table _ _ _ _ _ _ _ z y x (y + 1 < ny gr)).
    + case_decide; [|done]. rewrite nod_at_standard by (done || lia). done.
    + intros Hc. rewrite nod_at_standard by (done || lia). repeat split; (done || lia).
    + intros z' y' x' Hz' Hy' Hx'. rewrite nod_at_standard by (done || lia).
      intros E. apply idx3_inj in E; lia.
  - rewrite (row_entries_table _ _ _ _ _ _ _ z (y - 1) x (1 ≤ y)).
    + case_decide; [|done]. rewrite nod_at_standard by (done || lia). done.
    + intros Hc. rewrite nod_at_standard by (done || lia).
      replace (y - 1 + 1) with y by lia. repeat split; (done || lia).
    + intros z' y' x' Hz' Hy' Hx'. rewrite nod_at_standard by (done || lia).
      intros E. apply idx3_inj in E; lia.
  - rewrite (row_entries_table _ _ _ _ _ _ _ (z - 1) y x (1 ≤ z)).
    + case_decide; [|done]. rewrite nod_at_standard by (done || lia). done.
    + intros Hc. rewrite nod_at_standard by (done || lia).
      replace (z - 1 + 1) with z by lia. repeat split; (done || lia).
    + intros z' y' x' Hz' Hy' Hx'. rewrite nod_at_standard by (done || lia).
      intros E. apply idx3_inj in E; lia.
  - rewrite (row_entries_table _ _ _ _ _ _ _ z y x (z + 1 < nz gr)).
    + case_decide; [|done]. rewrite nod_at_standard by (done || lia). done.
    + intros Hc. rewrite nod_at_standard by (done || lia). repeat split; (done || lia).
    + intros z' y' x' Hz' Hy' Hx'. rewrite nod_at_standard by (done || lia).
      intros E. apply idx3_inj in E; lia.
Qed.
End MatrixRows.

(** * The faces of a cell *)

Section FacesFacts.
Context {F : Type} {HN : Num F}.

Lemma faces_cols (gr : Grid F) Cx Cy Cz z y x :
  z < nz gr → y < ny gr → x < nx gr →
  NoDup (e_col <$> faces gr Cx Cy Cz z y x)
  ∧ idx3 (ny gr) (nx gr) z y x ∉ e_col <$> faces gr Cx Cy Cz z y x.
Proof.
  intros Hz Hy Hx. unfold faces.
  assert (1 ≤ x → idx3 (ny gr) (nx gr) z y (x - 1) + 1 = idx3 (ny gr) (nx gr) z y x) as HW.
  { intros. rewrite <- idx3_east. f_equal. lia. }
  assert (1 ≤ y → idx3 (ny gr) (nx gr) z (y - 1) x + nx gr = idx3 (ny gr) (nx gr) z y x) as HN'.
  { intros. rewrite <- idx3_south. f_equal. lia. }
  assert (1 ≤ z → idx3 (ny gr) (nx gr) (z - 1) y x + ny gr * nx gr
                  = idx3 (ny gr) (nx gr) z y x) as HT.
  { intros. rewrite <- idx3_bottom. f_equal. lia. }
  pose proof (idx3_east (ny gr) (nx gr) z y x) as HE.
  pose proof (idx3_south (ny gr) (nx gr) z y x) as HS.
  pose proof (idx3_bottom (ny gr) (nx gr) z y x) as HB.
  assert (nx gr ≤ ny gr * nx gr) as Ha1 by nia.
  assert (2 ≤ ny gr → 2 * nx gr ≤ ny gr * nx gr) as Ha2 by nia.
  repeat case_decide; simpl; unfold e_col; simpl;
    rewrite ?NoDup_cons, ?elem_of_cons, ?elem_of_nil;
    (split; [repeat split; try apply NoDup_nil_2; lia | lia]).
Qed.
End FacesFacts.

(** * The system matrix in exact arithmetic *)

Section ColumnFacts.
Context {F : Type} {HN : Num F}.
Implicit Types (es : list (nat * nat * F)).

Lemma col_filter_fmap_val j (g : F → F) es :
  filter (λ e, e_col e = j) ((λ e, (e.1, g e.2)) <$> es)
  = (λ e, (e.1, g e.2)) <$> filter (λ e, e_col e = j) es.
Proof.
  induction es as [|e es IH]; [done|].
  rewrite fmap_cons. destruct (decide (e_col e = j)) as [E|E].
  - rewrite !filter_cons_True by done. by rewrite fmap_cons, IH.
  - rewrite !filter_cons_False by done. done.
Qed.

Lemma col_filter_notin j es :
  j ∉ e_col <$> es → filter (λ e, e_col e = j) es = [].
Proof.
  intros Hj. apply filter_none. intros e He E. apply Hj.
  apply list_elem_of_fmap. by exists e.
Qed.

Lemma col_filter_NoDup es e :
  NoDup (e_col <$> es) → e ∈ es → filter (λ e', e_col e' = e_col e) es = [e].
Proof.
  induction es as [|e' es IH]; intros Hnd He; [by apply elem_of_nil in He|].
  rewrite fmap_cons in Hnd. apply NoDup_cons in Hnd as [Hnotin Hnd].
  apply elem_of_cons in He as [->|He].
  - rewrite filter_cons_True by done. by rewrite col_filter_notin.
  - rewrite filter_cons_False; [by apply IH|].
    intros E. apply Hnotin. rewrite E. apply list_elem_of_fmap. by exists e.
Qed.
End ColumnFacts.

Lemma Forall_filter_keep {A} (P Q : A → Prop) `{∀ a, Decision (P a)} (l : list A) :
  Forall Q l → Forall Q (filter P l).
Proof.
  rewrite !Forall_forall. intros Hl a Ha. apply list_elem_of_filter in Ha as [_ Ha]. by apply Hl.
Qed.

Lemma xq_add_0_l a : xq_add (Fin (Q2Qc 0)) a = a.
Proof. destruct a; simpl; try done. f_equal. ring. Qed.

Lemma fsum_single (a : xq) : fsum [a] = a.
Proof. unfold fsum. simpl. apply xq_add_0_l. Qed.

Lemma Forall_fin_opp (l : list xq) :
  Forall (λ b, is_fin b = true) l → Forall (λ b, is_fin b = true) (xq_opp <$> l).
Proof. intros H. apply Forall_fmap. eapply Forall_impl; [done|]. intros a. simpl. by rewrite is_fin_opp. Qed.

Lemma fin_val_fmap_opp (l : list xq) : fin_val <$> (xq_opp <$> l) = Qcopp <$> (fin_val <$> l).
Proof. rewrite <- !list_fmap_compose. apply list_fmap_ext. intros _ a _. apply fin_val_opp. Qed.

Lemma fsum_opp (l : list xq) :
  Forall (λ b, is_fin b = true) l → fsum (xq_opp <$> l) = xq_opp (fsum l).
Proof.
  intros Hl. rewrite !fsum_fin by (done || by apply Forall_fin_opp).
  rewrite fin_val_fmap_opp, qsum_opp. done.
Qed.

Lemma e_val_fmap_opp (es : list (nat * nat * xq)) :
  e_val <$> ((λ e, (e.1, fopp e.2)) <$> es) = xq_opp <$> (e_val <$> es).
Proof. rewrite <- !list_fmap_compose. by apply list_fmap_ext. Qed.

(** The system matrix in exact arithmetic: its elements in a row with
    finite conductances, and the row of a cell in the numbering of a grid. *)
Lemma system_matrix_exact (gr : Grid xq) Cx Cy Cz A0 :
  conductance_matrix gr Cx Cy Cz = Ok A0 →
  (∀ i, i < gr_nod gr →
     Forall (λ e, is_fin (e_val e) = true) (row_entries i (sp_entries A0)) →
     (∀ j, j ≠ i → sp_get (system_matrix A0) i j = xq_opp (sp_get A0 i j))
     ∧ sp_get (system_matrix A0) i i
       = xq_sub (fsum (e_val <$> row_entries i (sp_entries A0))) (sp_get A0 i i)
     ∧ sp_row_sums (system_matrix A0) !! i = Some (Fin (Q2Qc 0)))
  ∧ (standard_numbering gr →
     length Cx = nz gr * ny gr * (nx gr - 1) →
     length Cy = nz gr * (ny gr - 1) * nx gr →
     length Cz = (nz gr - 1) * ny gr * nx gr →
     ∀ z y x, z < nz gr → y < ny gr → x < nx gr →
       row_entries (idx3 (ny gr) (nx gr) z y x) (sp_entries A0) = faces gr Cx Cy Cz z y x
       ∧ (∀ e, e ∈ faces gr Cx Cy Cz z y x →
            sp_get A0 (idx3 (ny gr) (nx gr) z y x) (e_col e) = e_val e
            ∧ sp_get (system_matrix A0) (idx3 (ny gr) (nx gr) z y x) (e_col e)
              = xq_opp (e_val e))
       ∧ sp_get (system_matrix A0) (idx3 (ny gr) (nx gr) z y x) (idx3 (ny gr) (nx gr) z y x)
         = fsum (e_val <$> faces gr Cx Cy Cz z y x)).
Proof.
  intros HA. pose proof (conductance_matrix_inv _ _ _ _ _ HA) as (Hrows & _ & _).
  split.
  - intros i Hi Hfin. rewrite <- Hrows in Hi.
    assert (Forall (λ b, is_fin b = true) (e_val <$> row_entries i (sp_entries A0))) as Hvals.
    { apply Forall_fmap. done. }
    split; [|split].
    + intros j Hj. unfold sp_get. rewrite system_matrix_row by done.
      rewrite filter_app, col_filter_fmap_val.
      rewrite (filter_cons_False _ (i, i, _)) by (unfold e_col; simpl; lia).
      rewrite filter_nil, app_nil_r, e_val_fmap_opp.
      apply fsum_opp. apply Forall_fmap.
      by apply Forall_filter_keep.
    + unfold sp_get. rewrite system_matrix_row by done.
      rewrite filter_app, col_filter_fmap_val.
      rewrite (filter_cons_True _ (i, i, _)) by done.
      rewrite filter_nil, fmap_app, e_val_fmap_opp.
      assert (Forall (λ b, is_fin b = true)
                (e_val <$> filter (λ e, e_col e = i) (row_entries i (sp_entries A0)))) as Hd.
      { apply Forall_fmap. by apply Forall_filter_keep. }
      rewrite (fsum_fin (e_val <$> row_entries i (sp_entries A0))) by done.
      rewrite (fsum_fin (e_val <$> filter _ _)) by done.
      rewrite fsum_fin.
      2:{ apply Forall_app. split; [by apply Forall_fin_opp|]. repeat constructor. }
      simpl. f_equal. rewrite fmap_app, fin_val_fmap_opp, qsum_app, qsum_opp.
      simpl. ring.
    + rewrite sp_row_sums_lookup by done. f_equal.
      rewrite system_matrix_row by done.
      rewrite fmap_app, e_val_fmap_opp.
      rewrite (fsum_fin (e_val <$> row_entries i (sp_entries A0))) by done.
      rewrite fsum_fin.
      2:{ apply Forall_app. split; [by apply Forall_fin_opp|]. repeat constructor. }
      f_equal. rewrite fmap_app, fin_val_fmap_opp, qsum_app, qsum_opp.
      simpl. ring.
  - intros Hs Lx Ly Lz z y x Hz Hy Hx.
    pose proof (conductance_matrix_row gr Cx Cy Cz A0 z y x Hs HA Lx Ly Lz Hz Hy Hx) as Hrow.
    pose proof (faces_cols gr Cx Cy Cz z y x Hz Hy Hx) as [Hnd Hni].
    assert (idx3 (ny gr) (nx gr) z y x < sp_rows A0) as Hi.
    { rewrite Hrows. by apply idx3_lt. }
    split; [done|]. split.
    + intros e He. unfold sp_get. rewrite system_matrix_row by done. rewrite Hrow.
      rewrite filter_app, col_filter_fmap_val, (col_filter_NoDup _ e) by done.
      rewrite filter_cons_False.
      2:{ unfold e_col at 1. simpl. intros E. apply Hni. rewrite E.
          apply list_elem_of_fmap. by exists e. }
      simpl. by rewrite !fsum_single.
    + unfold sp_get. rewrite system_matrix_row by done. rewrite Hrow.
      rewrite filter_app, col_filter_fmap_val, col_filter_notin by done.
      rewrite filter_cons_True by done. simpl. by rewrite fsum_single.
Qed.

(** * The net flow of a cell and its face flows *)

Lemma qsum_faces_identity {A} (l : list A) (c p : A → Qc) (pi : Qc) :
  (qsum ((λ e, - c e * p e) <$> l) + (qsum (c <$> l) * pi + 0))%Qc
  = qsum ((λ e, c e * (pi - p e))%Qc <$> l).
Proof.
  induction l as [|e l IH]; [simpl; ring|].
  rewrite !fmap_cons, !qsum_cons, <- IH. ring.
Qed.

Lemma fin_val_Fin a q : a = Fin q → fin_val a = q.
Proof. by intros ->. Qed.

(** What [A.dot(Phi)] gives for a cell whose row holds the faces [fs]:
    the sum over the faces of conductance times head drop. *)
Lemma row_product_faces (fs : list (nat * nat * xq)) (Φ : list xq) i q :
  fsum ((λ e, fmul (e_val e) (at_ Φ (e_col e)))
          <$> (((λ e, (e.1, fopp e.2)) <$> fs) ++ [(i, i, fsum (e_val <$> fs))])) = Fin q →
  Forall (λ e, is_fin (e_val e) = true ∧ is_fin (at_ Φ (e_col e)) = true) fs
  ∧ is_fin (at_ Φ i) = true
  ∧ q = qsum ((λ e, fin_val (e_val e) * (fin_val (at_ Φ i) - fin_val (at_ Φ (e_col e))))%Qc
                <$> fs).
Proof.
  intros Hq.
  assert (is_fin (fsum ((λ e, fmul (e_val e) (at_ Φ (e_col e)))
          <$> (((λ e, (e.1, fopp e.2)) <$> fs) ++ [(i, i, fsum (e_val <$> fs))]))) = true)
    as Hfin by by rewrite Hq.
  apply fsum_is_fin in Hfin. rewrite fmap_app, Forall_app in Hfin.
  destruct Hfin as [Hfs Hd].
  rewrite <- list_fmap_compose, Forall_fmap in Hfs.
  simpl in Hd. rewrite Forall_singleton in Hd. unfold e_val at 1, e_col at 1 in Hd.
  simpl in Hd.
  apply xq_mul_is_fin in Hd as [HS Hi].
  assert (Forall (λ e, is_fin (e_val e) = true ∧ is_fin (at_ Φ (e_col e)) = true) fs) as Hall.
  { eapply Forall_impl; [exact Hfs|]. intros e He. simpl in He.
    apply xq_mul_is_fin in He as [H1 H2]. unfold e_val in H1. simpl in H1.
    rewrite is_fin_opp in H1. done. }
  split; [done|]. split; [done|].
  rewrite fsum_fin in Hq.
  2:{ rewrite fmap_app. apply Forall_app. split.
      - rewrite <- list_fmap_compose. apply Forall_fmap. exact Hfs.
      - apply Forall_singleton. unfold e_val, e_col. simpl.
        by rewrite (is_fin_Fin _ HS), (is_fin_Fin _ Hi). }
  injection Hq as <-.
  rewrite fmap_app, fmap_app, qsum_app. rewrite <- !list_fmap_compose.
  rewrite <- (qsum_faces_identity fs (λ e, fin_val (e_val e)) (λ e, fin_val (at_ Φ (e_col e)))).
  f_equal.
  - f_equal. apply Forall_fmap_ext. eapply Forall_impl; [exact Hall|].
    intros [[r c] v] [H1 H2]. unfold compose, e_val, e_col in *. simpl in *.
    destruct v as [cv| | |]; [|done..]. destruct (at_ Φ c) as [pv| | |]; [|done..].
    simpl. ring.
  - simpl. unfold e_val at 1, e_col at 1. simpl.
    rewrite (is_fin_Fin _ Hi).
    rewrite (fsum_fin (e_val <$> fs)).
    2:{ apply Forall_fmap. eapply Forall_impl; [exact Hall|]. by intros e [H1 _]. }
    simpl. rewrite <- list_fmap_compose. done.
Qed.

Lemma fsum_Fin_map {A} (g : A → Qc) (l : list A) :
  fsum ((λ e, Fin (g e)) <$> l) = Fin (qsum (g <$> l)).
Proof.
  rewrite fsum_fin by (apply Forall_fmap, Forall_forall; done).
  by rewrite <- list_fmap_compose.
Qed.

(** The signed sum of the face flows out of a cell, face by face. *)
Lemma face_outflow_faces (gr : Grid xq) Cx Cy Cz (Φ : list xq) z y x :
  z < nz gr → y < ny gr → x < nx gr →
  Forall (λ e, is_fin (e_val e) = true ∧ is_fin (at_ Φ (e_col e)) = true)
    (faces gr Cx Cy Cz z y x) →
  is_fin (at_ Φ (idx3 (ny gr) (nx gr) z y x)) = true →
  face_outflow gr (face_flows_x gr Cx Φ) (face_flows_y gr Cy Φ) (face_flows_z gr Cz Φ) z y x
  = Fin (qsum ((λ e, fin_val (e_val e)
                     * (fin_val (at_ Φ (idx3 (ny gr) (nx gr) z y x))
                        - fin_val (at_ Φ (e_col e))))%Qc
                 <$> faces gr Cx Cy Cz z y x)).
Proof.
  intros Hz Hy Hx Hall Hi.
  rewrite <- fsum_Fin_map. unfold face_outflow. f_equal.
  unfold faces in *. rewrite !Forall_app in Hall.
  destruct Hall as (H1 & H2 & H3 & H4 & H5 & H6).
  rewrite !fmap_app.
  apply is_fin_Fin in Hi. revert Hi.
  generalize (fin_val (at_ Φ (idx3 (ny gr) (nx gr) z y x))). intros pi Hi.
  f_equal; [|f_equal; [|f_equal; [|f_equal; [|f_equal]]]].
  - destruct (decide (1 ≤ x)); [|done]. simpl. f_equal.
    rewrite Forall_singleton in H1. unfold e_val, e_col in *. simpl in *.
    destruct H1 as [Hc Hp]. apply is_fin_Fin in Hc, Hp. revert Hc Hp.
    generalize (fin_val (cell (ny gr) (nx gr - 1) Cx z y (x - 1)))
      (fin_val (at_ Φ (idx3 (ny gr) (nx gr) z y (x - 1)))). intros c p Hc Hp.
    unfold face_flows_x. rewrite cell_tab3 by lia.
    replace (x - 1 + 1) with x by lia. unfold cell at 1 2. rewrite Hi, Hp, Hc.
    simpl. f_equal. ring.
  - destruct (decide (x + 1 < nx gr)); [|done]. simpl. f_equal.
    rewrite Forall_singleton in H2. unfold e_val, e_col in *. simpl in *.
    destruct H2 as [Hc Hp]. apply is_fin_Fin in Hc, Hp. revert Hc Hp.
    generalize (fin_val (cell (ny gr) (nx gr - 1) Cx z y x))
      (fin_val (at_ Φ (idx3 (ny gr) (nx gr) z y (x + 1)))). intros c p Hc Hp.
    unfold face_flows_x. rewrite cell_tab3 by lia.
    unfold cell at 1 2. rewrite Hi, Hp, Hc.
    simpl. f_equal. ring.
  - destruct (decide (y + 1 < ny gr)); [|done]. simpl. f_equal.
    rewrite Forall_singleton in H3. unfold e_val, e_col in *. simpl in *.
    destruct H3 as [Hc Hp]. apply is_fin_Fin in Hc, Hp. revert Hc Hp.
    generalize (fin_val (cell (ny gr - 1) (nx gr) Cy z y x))
      (fin_val (at_ Φ (idx3 (ny gr) (nx gr) z (y + 1) x))). intros c p Hc Hp.
    unfold face_flows_y. rewrite cell_tab3 by lia.
    unfold cell at 1 2. rewrite Hi, Hp, Hc.
    simpl. f_equal. ring.
  - destruct (decide (1 ≤ y)); [|done]. simpl. f_equal.
    rewrite Forall_singleton in H4. unfold e_val, e_col in *. simpl in *.
    destruct H4 as [Hc Hp]. apply is_fin_Fin in Hc, Hp. revert Hc Hp.
    generalize (fin_val (cell (ny gr - 1) (nx gr) Cy z (y - 1) x))
      (fin_val (at_ Φ (idx3 (ny gr) (nx gr) z (y - 1) x))). intros c p Hc Hp.
    unfold face_flows_y. rewrite cell_tab3 by lia.
    replace (y - 1 + 1) with y by lia. unfold cell at 1 2. rewrite Hi, Hp, Hc.
    simpl. f_equal. ring.
  - destruct (decide (1 ≤ z)); [|done]. simpl. f_equal.
    rewrite Forall_singleton in H5. unfold e_val, e_col in *. simpl in *.
    destruct H5 as [Hc Hp]. apply is_fin_Fin in Hc, Hp. revert Hc Hp.
    generalize (fin_val (cell (ny gr) (nx gr) Cz (z - 1) y x))
      (fin_val (at_ Φ (idx3 (ny gr) (nx gr) (z - 1) y x))). intros c p Hc Hp.
    unfold face_flows_z. rewrite cell_tab3 by lia.
    replace (z - 1 + 1) with z by lia. unfold cell at 1 2. rewrite Hi, Hp, Hc.
    simpl. f_equal. ring.
  - destruct (decide (z + 1 < nz gr)); [|done]. simpl. f_equal.
    rewrite Forall_singleton in H6. unfold e_val, e_col in *. simpl in *.
    destruct H6 as [Hc Hp]. apply is_fin_Fin in Hc, Hp. revert Hc Hp.
    generalize (fin_val (cell (ny gr) (nx gr) Cz z y x))
      (fin_val (at_ Φ (idx3 (ny gr) (nx gr) (z + 1) y x))). intros c p Hc Hp.
    unfold face_flows_z. rewrite cell_tab3 by lia.
    unfold cell at 1 2. rewrite Hi, Hp, Hc.
    simpl. f_equal. ring.
Qed.

Lemma net_flow_is_face_outflow (gr : Grid xq) Cx Cy Cz A0 (Φ : list xq) z y x q :
  standard_numbering gr →
  conductance_matrix gr Cx Cy Cz = Ok A0 →
  length Cx = nz gr * ny gr * (nx gr - 1) →
  length Cy = nz gr * (ny gr - 1) * nx gr →
  length Cz = (nz gr - 1) * ny gr * nx gr →
  z < nz gr → y < ny gr → x < nx gr →
  sp_dot (system_matrix A0) Φ !! idx3 (ny gr) (nx gr) z y x = Some (Fin q) →
  face_outflow gr (face_flows_x gr Cx Φ) (face_flows_y gr Cy Φ) (face_flows_z gr Cz Φ) z y x
  = Fin q.
Proof.
  intros Hs HA Lx Ly Lz Hz Hy Hx HQ.
  pose proof (conductance_matrix_inv _ _ _ _ _ HA) as (Hrows & _ & _).
  assert (idx3 (ny gr) (nx gr) z y x < sp_rows A0) as Hi.
  { rewrite Hrows. by apply idx3_lt. }
  rewrite sp_dot_lookup, system_matrix_row in HQ by done.
  rewrite (conductance_matrix_row gr Cx Cy Cz A0 z y x) in HQ by done.
  apply (inj Some) in HQ.
  apply row_product_faces in HQ as (Hall & Hfi & ->).
  by apply face_outflow_faces.
Qed.

(** * The reduced system *)

Lemma rank_0 m : rank m 0 = 0.
Proof. unfold rank. by rewrite take_0. Qed.

Lemma rank_lt m a b :
  a < b → m !! a = Some true → rank m a < rank m b.
Proof.
  revert a b. induction m as [|c m IH]; intros a b Hab Ha; [done|].
  destruct b as [|b]; [lia|]. destruct a as [|a].
  - simpl in Ha. injection Ha as ->. rewrite rank_S, rank_0. lia.
  - rewrite !rank_S. simpl in Ha. specialize (IH a b ltac:(lia) Ha). lia.
Qed.

Lemma rank_inj m a b :
  m !! a = Some true → m !! b = Some true → rank m a = rank m b → a = b.
Proof.
  intros Ha Hb E. destruct (Nat.lt_trichotomy a b) as [H|[H|H]]; [|done|].
  - pose proof (rank_lt m a b H Ha). lia.
  - pose proof (rank_lt m b a H Hb). lia.
Qed.

Lemma rank_lt_count m a : m !! a = Some true → rank m a < count_true m.
Proof.
  revert a. induction m as [|c m IH]; intros a Ha; [done|].
  rewrite count_true_cons. destruct a as [|a].
  - simpl in Ha. injection Ha as ->. rewrite rank_0. lia.
  - rewrite rank_S. simpl in Ha. specialize (IH a Ha). lia.
Qed.

Section ReducedFacts.
Context {F : Type} {HN : Num F}.
Implicit Types (M : spmatrix F) (m : list bool).

Lemma filter_fmap_pre {A B} (P : B → Prop) `{∀ b, Decision (P b)} (f : A → B) (l : list A) :
  filter P (f <$> l) = f <$> filter (λ a, P (f a)) l.
Proof.
  induction l as [|a l IH]; [done|].
  rewrite fmap_cons, !filter_cons. destruct (decide (P (f a))).
  - by rewrite fmap_cons, IH.
  - done.
Qed.

Lemma row_entries_take_cols M m i :
  row_entries i (sp_entries (sp_take_cols M m))
  = (λ e, (e_row e, rank m (e_col e), e_val e))
      <$> filter (λ e, m !! e_col e = Some true) (row_entries i (sp_entries M)).
Proof.
  unfold sp_take_cols, row_entries. simpl.
  rewrite filter_fmap_pre. f_equal.
  rewrite !list_filter_filter. apply list_filter_iff.
  intros e. unfold e_row. simpl. tauto.
Qed.

Lemma row_entries_take_rows M m i :
  m !! i = Some true →
  row_entries (rank m i) (sp_entries (sp_take_rows M m))
  = (λ e, (rank m (e_row e), e_col e, e_val e)) <$> row_entries i (sp_entries M).
Proof.
  intros Hi. unfold sp_take_rows, row_entries. simpl.
  rewrite filter_fmap_pre. f_equal.
  rewrite list_filter_filter. apply list_filter_iff.
  intros e. unfold e_row at 1. simpl. split.
  - intros [E Hm]. by apply (rank_inj m).
  - intros ->. done.
Qed.

(** The provisional head: zeros with the solution in the active cells. *)
Lemma at_scatter_zeros m (sol : list F) j :
  length sol = count_true m →
  at_ (mask_scatter (replicate (length m) f0) m sol) j
  = match m !! j with Some true => at_ sol (rank m j) | _ => f0 end.
Proof.
  intros Hsol. unfold at_.
  destruct (m !! j) as [[|]|] eqn:Hj.
  - rewrite lookup_scatter_true; try done. by rewrite length_replicate.
  - rewrite lookup_scatter_false by done.
    rewrite lookup_replicate_2; [done|]. by apply lookup_lt_Some in Hj.
  - rewrite (proj2 (lookup_ge_None _ _)); [done|].
    rewrite length_mask_scatter, length_replicate. by apply lookup_ge_None.
Qed.
End ReducedFacts.

Section ReducedSystem.
Context {F : Type} {HN : Num F}.
Implicit Types (M : spmatrix F) (m : list bool).

(** Row [rank m i] of the reduced system [M[m][:, m] . sol]. *)
Lemma reduced_row M m (sol : list F) i :
  m !! i = Some true →
  sp_dot (sp_take_cols (sp_take_rows M m) m) sol !! rank m i
  = Some (fsum ((λ e, fmul (e_val e) (at_ sol (rank m (e_col e))))
                  <$> filter (λ e, m !! e_col e = Some true) (row_entries i (sp_entries M)))).
Proof.
  intros Hi. rewrite sp_dot_lookup by (simpl; by apply rank_lt_count).
  rewrite row_entries_take_cols, row_entries_take_rows by done.
  rewrite filter_fmap_pre, <- !list_fmap_compose. done.
Qed.

(** Row [i] of the step operator [A + diags(Cs/dt)]. *)
Lemma step_operator_row (s : setup F) dt i c :
  s_Cs s !! i = Some c →
  row_entries i (sp_entries (step_operator s dt))
  = row_entries i (sp_entries (s_A s)) ++ [(i, i, fdiv c dt)].
Proof.
  intros Hc. unfold step_operator, sp_add. simpl. rewrite row_entries_app.
  change (imap (λ i0 v, (i0, i0, v)) ((λ c0, fdiv c0 dt) <$> s_Cs s))
    with (sp_entries (sp_diags ((λ c0, fdiv c0 dt) <$> s_Cs s))).
  by rewrite row_entries_diags, list_lookup_fmap, Hc.
Qed.

Lemma step_vector_lookup (s : setup F) dt prev RHS i rhs c p :
  length RHS = length (s_active s) → length (s_Cs s) = length (s_active s) →
  length prev = length (s_active s) →
  s_active s !! i = Some true →
  RHS !! i = Some rhs → s_Cs s !! i = Some c → prev !! i = Some p →
  step_vector s dt prev RHS !! rank (s_active s) i
  = Some (fadd rhs (fmul (fdiv c dt) p)).
Proof.
  intros L1 L2 L3 Hi Hr Hc Hp. unfold step_vector.
  rewrite !lookup_zip_with, list_lookup_fmap.
  rewrite !lookup_select_rank by done. by rewrite Hr, Hc, Hp.
Qed.
End ReducedSystem.

Lemma qsum_filter_zero {A} (P : A → Prop) `{∀ a, Decision (P a)} (g : A → Qc) (l : list A) :
  (∀ a, ¬ P a → g a = Q2Qc 0) → qsum (g <$> l) = qsum (g <$> filter P l).
Proof.
  intros Hg. induction l as [|a l IH]; [done|].
  rewrite fmap_cons, qsum_cons, filter_cons. destruct (decide (P a)).
  - by rewrite fmap_cons, qsum_cons, IH.
  - rewrite Hg, IH by done. ring.
Qed.

Lemma xq_div_opp_fin a b c : xq_div (xq_opp a) b = Fin c → xq_div a b = Fin (- c)%Qc.
Proof.
  destruct a as [p| | |], b as [q| | |]; simpl; try done; unfold qc_sign;
    repeat match goal with
           | |- context [Qccompare ?u ?w] => destruct (Qccompare u w) eqn:?
           end; simpl; try done; intros [= <-]; f_equal; try ring;
    field; intros ->;
    match goal with H : Qccompare (Q2Qc 0) (Q2Qc 0) = _ |- _ => by vm_compute in H end.
Qed.

(** * The balance of an active cell *)


Lemma length_sp_dot {F} `{Num F} (M : spmatrix F) v : length (sp_dot M v) = sp_rows M.
Proof. unfold sp_dot. by rewrite length_fmap, length_seq. Qed.

Lemma at_scatter_zeros_xq m (sol : list xq) j :
  length sol = count_true m →
  at_ (mask_scatter (replicate (length m) (Fin (Q2Qc 0))) m sol) j
  = match m !! j with Some true => at_ sol (rank m j) | _ => Fin (Q2Qc 0) end.
Proof. intros H. exact (at_scatter_zeros (HN := xq_num) m sol j H). Qed.

(** One step, in exact arithmetic with an exact solver: the net flow of
    an active cell is its prescribed flow plus its storage release, less
    what the columns of the fixed-head cells moved to the right-hand
    side. *)
Section Balance.
Variable spsolve : spmatrix xq → list xq → option (list xq).
Hypothesis Hex : solver_exact spsolve.

Lemma step_balance (s : setup xq) ib FQ dt prev o i v q qs :
  s_active s = (λ v, bool_decide (0 < v)%Z) <$> ib →
  s_fxhd s = (λ v, bool_decide (v < 0)%Z) <$> ib →
  length ib = gr_nod (s_gr s) →
  sp_rows (s_A s) = length ib →
  length FQ = length ib → length (s_Cs s) = length ib → length prev = length ib →
  time_step spsolve s FQ dt prev = Ok o →
  ib !! i = Some v → (0 < v)%Z →
  st_Q o !! i = Some (Fin q) → st_Qs o !! i = Some (Fin qs) →
  ∃ f FX,
    FQ !! i = Some (Fin f)
    ∧ sp_dot (sp_take_cols (step_operator s dt) (s_fxhd s)) (mask_select (s_fxhd s) prev) !! i
      = Some (Fin FX)
    ∧ q = (f + qs - FX)%Qc.
Proof.
  intros Hact Hfxh Hn HA HFQ HCs Hprev Hstep Hi Hv HQ HQs.
  apply time_step_inv in Hstep
    as (RHS & sol & Pit & Pa & Pf & HRHS & Hsol & Hit & _ & _ & ->).
  simpl in HQ, HQs.
  destruct (Hex _ _ _ Hsol) as (Hdot & Hfin & Hlen). simpl in Hlen.
  assert (s_active s !! i = Some true) as Hai.
  { rewrite Hact, list_lookup_fmap, Hi. simpl. by rewrite bool_decide_eq_true_2. }
  assert (length (s_active s) = length ib) as Lact by by rewrite Hact, length_fmap.
  pose proof (lookup_lt_Some _ _ _ Hi) as Hilt.
  unfold mask_assign in Hit. rewrite decide_True in Hit by done. injection Hit as <-.
  rewrite <- Hn, <- Lact in HQ, HQs.
  destruct (lookup_lt_is_Some_2 (s_Cs s) i ltac:(lia)) as [c Hc].
  destruct (lookup_lt_is_Some_2 prev i ltac:(lia)) as [p Hp].
  destruct (lookup_lt_is_Some_2 FQ i ltac:(lia)) as [fq Hfq].
  remember (sp_dot (sp_take_cols (step_operator s dt) (s_fxhd s))
              (mask_select (s_fxhd s) prev)) as Dfx eqn:HDfx.
  assert (length Dfx = length ib) as LD.
  { rewrite HDfx, length_sp_dot. simpl. done. }
  destruct (lookup_lt_is_Some_2 Dfx i ltac:(lia)) as [d Hd].
  unfold step_RHS in HRHS. rewrite <- HDfx in HRHS. unfold np_op in HRHS.
  rewrite decide_True in HRHS by lia. injection HRHS as <-.
  (* the row of the reduced system *)
  assert (sp_dot (step_matrix s dt) sol !! rank (s_active s) i
          = step_vector s dt prev (zip_with fsub FQ Dfx) !! rank (s_active s) i) as E1
    by by rewrite Hdot.
  unfold step_matrix in E1. rewrite reduced_row in E1 by done.
  rewrite (step_operator_row s dt i c Hc) in E1.
  rewrite filter_app, (filter_cons_True _ (i, i, _)) in E1 by done.
  rewrite filter_nil, fmap_app in E1.
  rewrite (step_vector_lookup s dt prev _ i (fsub fq d) c p) in E1;
    [|rewrite length_zip_with; lia|lia|lia|done| |done|done].
  2:{ rewrite lookup_zip_with, Hfq, Hd. done. }
  apply (inj Some) in E1.
  (* the net flow *)
  rewrite sp_dot_lookup in HQ by lia. apply (inj Some) in HQ.
  (* the storage flow *)
  rewrite !lookup_zip_with, list_lookup_fmap, Hc, Hp in HQs.
  rewrite lookup_scatter_true in HQs by (rewrite ?length_replicate; done).
  destruct (sol !! rank (s_active s) i) as [xs|] eqn:Hxs; [|done].
  simpl in HQs. apply (inj Some) in HQs.
  (* what is finite *)
  destruct (xq_mul_is_fin _ _ ltac:(by rewrite HQs)) as [Hc' Hxp].
  apply xq_sub_is_fin in Hxp as [Hx Hpf].
  destruct (xq_div (xq_opp c) dt) as [c'| | |] eqn:Hcd'; try done.
  destruct xs as [x| | |]; try done. destruct p as [pp| | |]; try done.
  apply xq_div_opp_fin in Hcd'. simpl in HQs. injection HQs as <-.
  assert (∀ k, is_fin (at_ sol k) = true) as Hsolfin.
  { intros k. unfold at_. destruct (sol !! k) as [a|] eqn:Hk; [|done].
    simpl. rewrite Forall_forall in Hfin. apply Hfin. by eapply list_elem_of_lookup_2. }
  pose proof (fsum_is_fin _ ltac:(by rewrite HQ)) as HRA.
  rewrite Forall_fmap in HRA.
  assert (Forall (λ e, is_fin (e_val e) = true) (row_entries i (sp_entries (s_A s)))) as Hvals.
  { eapply Forall_impl; [exact HRA|]. intros e He. simpl in He.
    by apply xq_mul_is_fin in He as [? _]. }
  (* the net flow as a sum over the active neighbours *)
  rewrite fsum_fin in HQ by (by apply Forall_fmap).
  injection HQ as <-.
  rewrite <- list_fmap_compose.
  rewrite (qsum_filter_zero (λ e, s_active s !! e_col e = Some true)).
  2:{ intros e He. simpl. rewrite at_scatter_zeros_xq by done.
      destruct (s_active s !! e_col e) as [[|]|]; try done;
        destruct (e_val e); simpl; try done; ring. }
  (* the row of the reduced system *)
  rewrite fsum_fin in E1.
  2:{ apply Forall_app. split.
      - apply Forall_fmap. apply Forall_filter_keep.
        eapply Forall_impl; [exact Hvals|]. intros e He. simpl.
        rewrite (is_fin_Fin _ He), (is_fin_Fin _ (Hsolfin _)). done.
      - simpl. apply Forall_singleton. unfold e_val, e_col. simpl.
        unfold fdiv. simpl. rewrite Hcd', (is_fin_Fin _ (Hsolfin _)). done. }
  assert (is_fin (fadd (fsub fq d) (fmul (fdiv c dt) (Fin pp))) = true) as HR
    by by rewrite <- E1.
  apply xq_add_is_fin in HR as [HR _]. apply xq_sub_is_fin in HR as [Hf Hdf].
  destruct fq as [f| | |]; try done. destruct d as [FX| | |]; try done.
  exists f, FX. split; [done|]. split; [done|].
  unfold fdiv in E1. simpl in E1. rewrite Hcd' in E1. simpl in E1. injection E1 as E1.
  rewrite fmap_app, qsum_app in E1. simpl in E1.
  change (e_col (i, i, Fin (- c')%Qc)) with i in E1.
  assert (at_ sol (rank (s_active s) i) = Fin x) as Hat
    by (unfold at_; by rewrite Hxs).
  rewrite Hat in E1. simpl in E1.
  rewrite list_fmap_compose.
  assert (((λ e, xq_mul (e_val e)
                   (at_ (mask_scatter (replicate (length (s_active s)) (Fin (Q2Qc 0)))
                           (s_active s) sol) (e_col e)))
                  <$> filter (λ e, s_active s !! e_col e = Some true)
                        (row_entries i (sp_entries (s_A s))))
          = ((λ e, xq_mul (e_val e) (at_ sol (rank (s_active s) (e_col e))))
                  <$> filter (λ e, s_active s !! e_col e = Some true)
                        (row_entries i (sp_entries (s_A s))))) as ->.
  { apply Forall_fmap_ext, Forall_forall.
    intros e He. apply list_elem_of_filter in He as [He _].
    rewrite at_scatter_zeros_xq by done. by rewrite He. }
  revert E1.
  generalize (qsum (fin_val <$> ((λ e, xq_mul (e_val e) (at_ sol (rank (s_active s) (e_col e))))
                  <$> filter (λ e, s_active s !! e_col e = Some true)
                        (row_entries i (sp_entries (s_A s)))))).
  intros T E1.
  assert (T = (f + - FX + - c' * pp - - c' * x)%Qc) as ->.
  { rewrite <- E1. ring. }
  ring.
Qed.

End Balance.

(** * The steps of a solve *)

Section Steps.
Context {F : Type} {HN : Num F}.
Variable spsolve : spmatrix F → list F → option (list F).
Variables (s : setup F) (ib : list Z) (FQ : list F).
Hypothesis Hact : s_active s = (λ v, bool_decide (0 < v)%Z) <$> ib.
Hypothesis Hina : s_inact s = (λ v, bool_decide (v = 0)%Z) <$> ib.
Hypothesis Hfxh : s_fxhd s = (λ v, bool_decide (v < 0)%Z) <$> ib.
Hypothesis Hnod : length ib = gr_nod (s_gr s).

(** Every element of the loop's result is one [time_step], started from a
    head of the grid's size. *)
Lemma time_loop_steps dts prev os n o :
  time_loop spsolve s FQ dts prev = Ok os → length prev = length ib →
  os !! n = Some o →
  ∃ dt prev', dts !! n = Some dt ∧ length prev' = length ib
    ∧ time_step spsolve s FQ dt prev' = Ok o.
Proof.
  revert prev os n. induction dts as [|dt dts IH]; intros prev os n H Hprev Hn; simpl in H.
  - injection H as <-. done.
  - apply bind_Ok in H as (o1 & Ho1 & H). apply bind_Ok in H as (os' & Hos' & H).
    injection H as <-. destruct n as [|n]; simpl in Hn.
    + injection Hn as <-. by exists dt, prev.
    + eapply IH in Hos' as (dt' & prev' & ? & ? & ?); [|by eapply time_step_length|done].
      by exists dt', prev'.
Qed.

End Steps.

(** * The exact solver *)

Lemma xq_eqb_eq a b : xq_eqb a b = true → a = b.
Proof.
  destruct a as [p| | |], b as [q| | |]; simpl; try done.
  intros H. f_equal. apply Qc_is_canon. by apply Qeq_bool_iff.
Qed.

Lemma zip_eqb_eq (l1 l2 : list xq) :
  length l1 = length l2 →
  forallb (λ p, xq_eqb p.1 p.2) (zip l1 l2) = true → l1 = l2.
Proof.
  revert l2. induction l1 as [|a l1 IH]; intros [|b l2] Hl H; simpl in *; try done.
  apply andb_true_iff in H as [H1 H2]. f_equal; [by apply xq_eqb_eq|].
  apply IH; [lia|done].
Qed.

Lemma exact_solve_exact : solver_exact exact_solve.
Proof.
  intros M b x H. unfold exact_solve in H.
  destruct (dense_solve M b) as [x'|]; [|done].
  destruct (forallb is_fin x' && _ && _ && _) eqn:E; [|done].
  injection H as ->.
  apply andb_true_iff in E as [E E4]. apply andb_true_iff in E as [E E3].
  apply andb_true_iff in E as [E1 E2].
  apply Nat.eqb_eq in E3, E4.
  split; [|split; [|done]].
  - apply zip_eqb_eq; [|done]. rewrite length_sp_dot. done.
  - apply Forall_forall. intros a Ha. rewrite forallb_forall in E1. apply E1.
    by apply list_elem_of_In.
Qed.

(** * The small model, run *)

Lemma fdm3t_clamps_in_place_witness :
  (run3 [0; 1; 2]%float).1 !! l_K = Some (arr3 [1; 1; ftiny]%float)
  ∧ (run3 [0; 1; 2]%float).1 !! l_HI = store3 !! l_HI.
Proof.
  destruct (fdm3t_clamps_in_place pi64 log_unused dense_solve store3 gr3 [0; 1; 2]%float
              (KArray l_K) l_Ss l_FQ l_HI IBOUND3 1%float (l_K, l_K, l_K))
    as (_ & _ & Hk & Hframe).
  { vm_compute. reflexivity. }
  split.
  - destruct (Hk l_K (arr3 [1; 1; 0]%float)) as (a' & Ha' & Hs & Hd).
    + vm_compute. left.
    + vm_compute. reflexivity.
    + destruct a' as [sh d]. simpl in Hs, Hd. subst. exact Ha'.
  - apply Hframe. vm_compute. intros H. inversion H as [|? ? ? H1]; subst.
    inversion H1 as [|? ? ? H2]; subst. inversion H2 as [|? ? ? H3]; subst. inversion H3.
Defined.

Lemma Fdm3t_epsilon_is_ignored_witness :
  fdm3t pi64 log_unused dense_solve store3 gr3 [0; 1; 2]%float (KTuple [l_K; l_K; l_K])
    l_Ss l_FQ l_HI IBOUND3 1%float = (store3', Ok out3).
Proof.
  pose proof (proj2 (Fdm3t_epsilon_is_ignored pi64 log_unused dense_solve store3 gr3
                       [0; 1; 2]%float (KArray l_K) l_Ss l_FQ l_HI IBOUND3)
                0x1.570a3d70a3d71p-1%float store3' self3) as H.
  simpl in H. apply H. vm_compute. reflexivity.
Defined.

Lemma shape_mismatch_is_asserted_witness :
  fdm3t pi64 log_unused dense_solve store3_K_column gr3 [0; 1; 2]%float (KArray l_K)
    l_Ss l_FQ l_HI IBOUND3 1%float
  = (store3_K_column,
     Raise (AssertionError "shape of kx (3, 1, 1) differs from that of model (1, 1, 3)"))
  ∧ Fdm3t__init__ pi64 log_unused dense_solve store3_K_column gr3 [0; 1; 2]%float
      (KArray l_K) l_Ss l_FQ l_HI IBOUND3 1%float
    = (store3_K_column, Raise (AssertionError "gr.shape != Kh.shape")).
Proof.
  pose proof (shape_mismatch_is_asserted pi64 log_unused dense_solve
                store3_K_column gr3 [0; 1; 2]%float (KArray l_K) l_Ss l_FQ l_HI
                IBOUND3 1%float) as (H1 & _ & H3 & _).
  split.
  - rewrite (H1 (l_K, l_K, l_K)
               {| shape := [3; 1; 1]; data := [1; 1; 0]%float |}
               {| shape := [3; 1; 1]; data := [1; 1; 0]%float |}
               {| shape := [3; 1; 1]; data := [1; 1; 0]%float |}
               (arr3 [1; 1; 1]%float) "kx"
               {| shape := [3; 1; 1]; data := [1; 1; 0]%float |});
      [|vm_compute; reflexivity..].
    vm_compute. reflexivity.
  - rewrite (H3 (l_K, l_K)
               {| shape := [3; 1; 1]; data := [1; 1; 0]%float |}
               {| shape := [3; 1; 1]; data := [1; 1; 0]%float |}
               (arr3 [0; 0; 0]%float) "Kh"
               {| shape := [3; 1; 1]; data := [1; 1; 0]%float |});
      [|vm_compute; reflexivity..].
    vm_compute. reflexivity.
Defined.

(** Claim C6 fails for [HI]: its shape (3, 1, 1) is not the grid's
    (1, 1, 3), and the solve returns as if it were. *)
Lemma HI_shape_is_not_checked :
  (∃ hi, store3_HI_column !! l_HI = Some hi ∧ shape hi ≠ gr_shape gr3)
  ∧ (fdm3t pi64 log_unused dense_solve store3_HI_column gr3 [0; 1; 2]%float (KArray l_K)
       l_Ss l_FQ l_HI IBOUND3 1%float).2 = Ok out3.
Proof.
  split.
  - exists {| shape := [3; 1; 1]; data := [0; 9; 7]%float |}. split; [vm_compute; reflexivity|].
    simpl. discriminate.
  - vm_compute. reflexivity.
Qed.

(** The class compares the shape of [Ss] with the grid's under the name of
    [HI], and the shape of [HI] with nothing. *)
Lemma class_reports_Ss_as_HI :
  (Fdm3t__init__ pi64 log_unused dense_solve store3_Ss_column gr3 [0; 1; 2]%float
     (KArray l_K) l_Ss l_FQ l_HI IBOUND3 1%float).2
  = Raise (AssertionError "gr.shape != HI.shape")
  ∧ is_ok (Fdm3t__init__ pi64 log_unused dense_solve store3_HI_column gr3 [0; 1; 2]%float
             (KArray l_K) l_Ss l_FQ l_HI IBOUND3 1%float).2 = true.
Proof. split; vm_compute; reflexivity. Qed.

(** Claim C7 fails: a time vector of one point is not refused. *)
Lemma one_point_time_vector_is_accepted :
  length [5%float] < 2 ∧ run3 [5]%float = (store3', Ok (out3_start 5)).
Proof. split; [simpl; lia|]. vm_compute. reflexivity. Qed.

(** Nor is a decreasing one: the step is computed with dt = -2. *)
Lemma decreasing_time_vector_is_accepted :
  np_diff [2; 0]%float = [(-2)%float] ∧ run3 [2; 0]%float = (store3', Ok out3_backwards).
Proof. split; vm_compute; reflexivity. Qed.

(** * The small model in exact arithmetic, run *)

Lemma Fin_canon (p q : Qc) : (p == q)%Q → Fin p = Fin q.
Proof. intros H. f_equal. by apply Qc_is_canon. Qed.

Lemma run4_returns : run4 = (store4, Ok out4).
Proof. vm_compute. reflexivity. Qed.


(** With the signs of the code the identity holds in the run that refutes
    the worded one, in the program's arithmetic. *)
Lemma conservation_with_code_signs_holds :
  (run3 [0; 1; 2]%float).2 = Ok out3
  ∧ conservation_with_code_signs gr3 [0; 0; 0]%float IBOUND3 out3.
Proof.
  split; [by rewrite run3_012|].
  intros n z y x v Hn Hz Hy Hx Hv Hpos. simpl in Hn, Hz, Hy, Hx.
  assert (z = 0) as -> by lia. assert (y = 0) as -> by lia.
  destruct x as [|[|[|x]]]; [| | |lia].
  - vm_compute in Hv. injection Hv as <-. lia.
  - destruct n as [|[|n]]; [| |lia]; split; vm_compute; reflexivity.
  - vm_compute in Hv. injection Hv as <-. lia.
Qed.

(** * More of the program: proofs *)

(** * The outputs of a solve, step by step *)

Section StepsOfASolve.
Context {F : Type} {HN : Num F}.
Variable np_pi : F.
Variable np_log : F → F.
Variable spsolve : spmatrix F → list F → option (list F).

(** Step [n] of the loop starts from slice [n] of the heads. *)
Lemma time_loop_prev (s : setup F) (ib : list Z) FQ dts prev os n o :
  s_active s = (λ v, bool_decide (0 < v)%Z) <$> ib →
  s_inact s = (λ v, bool_decide (v = 0)%Z) <$> ib →
  s_fxhd s = (λ v, bool_decide (v < 0)%Z) <$> ib →
  length ib = gr_nod (s_gr s) →
  time_loop spsolve s FQ dts prev = Ok os → length prev = length ib →
  os !! n = Some o →
  ∃ dt prev', dts !! n = Some dt ∧ (prev :: (st_Phi <$> os)) !! n = Some prev'
    ∧ length prev' = length ib
    ∧ time_step spsolve s FQ dt prev' = Ok o.
Proof.
  intros Ha Hi Hf Hn.
  revert prev os n. induction dts as [|dt dts IH]; intros prev os n H Hprev Ho; simpl in H.
  - injection H as <-. done.
  - apply bind_Ok in H as (o1 & Ho1 & H). apply bind_Ok in H as (os' & Hos' & H).
    injection H as <-. destruct n as [|n]; simpl in Ho.
    + injection Ho as <-. by exists dt, prev.
    + eapply IH in Hos' as (dt' & prev' & ? & ? & ? & ?);
        [|by eapply (time_step_length spsolve s ib)|done].
      by exists dt', prev'.
Qed.

(** What a solve that returned went through, for its step [n]. *)
Lemma fdm3t_step σ gr t kxyz Ss FQ HI IBOUND eps σ' out n Qn :
  fdm3t np_pi np_log spsolve σ gr t kxyz Ss FQ HI IBOUND eps = (σ', Ok out) →
  Q out !! n = Some Qn →
  ∃ k kx ky kz ss fq s dt prev o,
    σ' !! k.1.1 = Some kx ∧ σ' !! k.1.2 = Some ky ∧ σ' !! k.2 = Some kz
    ∧ σ' !! Ss = Some ss ∧ σ' !! FQ = Some fq
    ∧ length (data IBOUND) = gr_nod gr
    ∧ build_setup np_pi np_log gr (data kx) (data ky) (data kz) (data ss) (data IBOUND) eps
      = Ok s
    ∧ np_diff t !! n = Some dt ∧ Phi out !! n = Some prev ∧ length prev = gr_nod gr
    ∧ time_step spsolve s (data fq) dt prev = Ok o
    ∧ Phi out !! S n = Some (st_Phi o)
    ∧ Q out !! n = Some (st_Q o) ∧ Qs out !! n = Some (st_Qs o)
    ∧ Qx out !! n = Some (st_Qx o) ∧ Qy out !! n = Some (st_Qy o)
    ∧ Qz out !! n = Some (st_Qz o)
    ∧ unpack_kxyz kxyz = Ok k ∧ σ' = clamp_store σ k.
Proof.
  intros H HQ. apply fdm3t_inv in H as (k & Hv & Hσ & H).
  apply validate_Ok in Hv as (Hk & _).
  apply solve_inv in H as (kx & ky & kz & ss & fq & hi & s & Phi0 & os & Hkx & Hky & Hkz & HSs
    & Hn & Hs & Ht & _ & _ & _ & Hfq & Hhi & HPhi0 & Hos & ->).
  simpl in *. rewrite list_lookup_fmap in HQ.
  destruct (os !! n) as [o|] eqn:Ho; [|done].
  pose proof (build_setup_inv _ _ _ _ _ _ _ _ _ _ Hs) as (Hgr & _ & Ha & Hi & Hf & HCs).
  pose proof (row_assign_length _ _ _ HPhi0) as Hl0.
  eapply (time_loop_prev s (data IBOUND)) in Hos as (dt & prev & Hdt & Hprev & Lprev & Hstep);
    [|done|done|done|by rewrite Hgr|lia|done].
  exists k, kx, ky, kz, ss, fq, s, dt, prev, o.
  rewrite !list_lookup_fmap, Ho. simpl. repeat split; try done. lia.
Qed.

(** All flows have one slice for each step. *)
Lemma fdm3t_flow_lengths σ gr t kxyz Ss FQ HI IBOUND eps σ' out :
  fdm3t np_pi np_log spsolve σ gr t kxyz Ss FQ HI IBOUND eps = (σ', Ok out) →
  length (Phi out) = S (length (Q out))
  ∧ length (Qs out) = length (Q out) ∧ length (Qx out) = length (Q out)
  ∧ length (Qy out) = length (Q out) ∧ length (Qz out) = length (Q out).
Proof.
  intros H. apply fdm3t_inv in H as (k & _ & _ & H).
  apply solve_inv in H as (kx & ky & kz & ss & fq & hi & s & Phi0 & os & _ & _ & _ & _ & _ & _
    & _ & _ & _ & _ & _ & _ & _ & _ & ->).
  simpl. by rewrite !length_fmap.
Qed.
End StepsOfASolve.

Section OutputFacts.
Context {F : Type} {HN : Num F}.
Variable np_pi : F.
Variable np_log : F → F.
Variable spsolve : spmatrix F → list F → option (list F).

Lemma sp_rows_system_matrix (A0 : spmatrix F) : sp_rows (system_matrix A0) = sp_rows A0.
Proof. done. Qed.

Lemma build_setup_rows gr kx ky kz Ss ib eps s :
  build_setup np_pi np_log gr kx ky kz Ss ib eps = Ok s → sp_rows (s_A s) = gr_nod gr.
Proof.
  unfold build_setup. intros H. apply bind_Ok in H as (A0 & HA0 & H). injection H as <-.
  simpl. by apply conductance_matrix_inv in HA0 as (? & _).
Qed.

Lemma build_setup_faces gr kx ky kz Ss ib eps s :
  build_setup np_pi np_log gr kx ky kz Ss ib eps = Ok s →
  length (s_Cx s) = nz gr * ny gr * (nx gr - 1)
  ∧ length (s_Cy s) = nz gr * (ny gr - 1) * nx gr
  ∧ length (s_Cz s) = (nz gr - 1) * ny gr * nx gr.
Proof.
  unfold build_setup. intros H. apply bind_Ok in H as (A0 & HA0 & H). injection H as <-.
  simpl. unfold conductance_x, conductance_y, conductance_z. by rewrite !length_tab3.
Qed.

(** The shapes of what [fdm3t] returns (lines 146-152 and 191-196): one
    slice of heads for each time, one slice of every flow for each step,
    each of the size of its array. *)
Theorem fdm3t_output_shapes σ gr t kxyz Ss FQ HI IBOUND eps σ' out :
  fdm3t np_pi np_log spsolve σ gr t kxyz Ss FQ HI IBOUND eps = (σ', Ok out) →
  out_t out = t
  ∧ length (Phi out) = length t
  ∧ length (Q out) = length t - 1 ∧ length (Qs out) = length t - 1
  ∧ length (Qx out) = length t - 1 ∧ length (Qy out) = length t - 1
  ∧ length (Qz out) = length t - 1
  ∧ Forall (λ r, length r = gr_nod gr) (Phi out)
  ∧ Forall (λ r, length r = gr_nod gr) (Q out)
  ∧ Forall (λ r, length r = nz gr * ny gr * (nx gr - 1)) (Qx out)
  ∧ Forall (λ r, length r = nz gr * (ny gr - 1) * nx gr) (Qy out)
  ∧ Forall (λ r, length r = (nz gr - 1) * ny gr * nx gr) (Qz out)
  ∧ (∀ ss, σ' !! Ss = Some ss → length (data ss) = gr_nod gr →
       length (Volume gr) = gr_nod gr →
       Forall (λ r, length r = gr_nod gr) (Qs out)).
Proof.
  intros H.
  pose proof H as H2.
  apply fdm3t_slices in H2 as (hi & Phi0 & _ & HPhi0 & H0 & HlenPhi & Hrows).
  apply fdm3t_inv in H as (k & _ & _ & H).
  apply solve_inv in H as (kx & ky & kz & ss & fq & hi' & s & Phi0' & os & Hkx & Hky & Hkz
    & HSs & Hn & Hs & Ht & _ & _ & _ & Hfq & Hhi & HPhi0' & Hos & ->).
  simpl in *. rewrite !length_fmap in *.
  assert (length os = length t - 1) as Los by lia.
  split; [done|]. split; [done|]. do 5 (split; [done|]).
  injection H0 as ->.
  pose proof (build_setup_inv _ _ _ _ _ _ _ _ _ _ Hs) as (Hgr & _ & Ha & Hi & Hf & HCs).
  pose proof (build_setup_rows _ _ _ _ _ _ _ _ Hs) as HA.
  pose proof (build_setup_faces _ _ _ _ _ _ _ _ Hs) as (Lx & Ly & Lz).
  pose proof (row_assign_length _ _ _ HPhi0) as Hl0.
  assert (∀ o, o ∈ os → ∃ dt prev Pit, length prev = gr_nod gr ∧ length Pit = gr_nod gr
            ∧ st_Q o = sp_dot (s_A s) Pit
            ∧ st_Qs o = zip_with fmul ((λ c, fdiv (fopp c) dt) <$> s_Cs s)
                          (zip_with fsub Pit prev)
            ∧ st_Qx o = face_flows_x gr (s_Cx s) Pit
            ∧ st_Qy o = face_flows_y gr (s_Cy s) Pit
            ∧ st_Qz o = face_flows_z gr (s_Cz s) Pit) as Hos'.
  { intros o Ho. apply list_elem_of_lookup in Ho as [n Ho].
    eapply (time_loop_steps spsolve s (data IBOUND)) in Hos as (dt & prev & _ & Lp & Hst);
      [|done|done|done|by rewrite Hgr|lia|done].
    apply time_step_inv in Hst as (RHS & sol & Pit & Pa & Pf & _ & _ & Hit & _ & _ & ->).
    apply mask_assign_length in Hit; [|by rewrite Ha, length_fmap, length_replicate, Hgr].
    rewrite length_replicate in Hit. simpl. rewrite Hgr in *.
    exists dt, prev, Pit. repeat split; try done; lia. }
  split.
  { apply Forall_cons. split; [done|]. apply Forall_forall. intros r Hr.
    apply list_elem_of_lookup in Hr as [n Hr]. by apply (Hrows n r). }
  split.
  { apply Forall_fmap, Forall_forall. intros o Ho. unfold compose.
    destruct (Hos' o Ho) as (dt & prev & Pit & _ & _ & -> & _). simpl.
    by rewrite length_sp_dot. }
  split.
  { apply Forall_fmap, Forall_forall. intros o Ho. unfold compose.
    destruct (Hos' o Ho) as (dt & prev & Pit & _ & _ & _ & _ & -> & _). simpl.
    unfold face_flows_x. by rewrite length_tab3. }
  split.
  { apply Forall_fmap, Forall_forall. intros o Ho. unfold compose.
    destruct (Hos' o Ho) as (dt & prev & Pit & _ & _ & _ & _ & _ & -> & _). simpl.
    unfold face_flows_y. by rewrite length_tab3. }
  split.
  { apply Forall_fmap, Forall_forall. intros o Ho. unfold compose.
    destruct (Hos' o Ho) as (dt & prev & Pit & _ & _ & _ & _ & _ & _ & ->). simpl.
    unfold face_flows_z. by rewrite length_tab3. }
  intros ss' Hss' Lss LV. assert (ss' = ss) as -> by congruence.
  apply Forall_fmap, Forall_forall. intros o Ho. unfold compose.
  destruct (Hos' o Ho) as (dt & prev & Pit & Lp & LPit & _ & -> & _). simpl.
  rewrite !length_zip_with, length_fmap, HCs. unfold storage.
  rewrite length_zip_with. lia.
Qed.
End OutputFacts.

Lemma fdm3t_output_shapes_witness :
  length (Phi out3) = 3 ∧ length (Q out3) = 2 ∧ length (Qx out3) = 2
  ∧ Forall (λ r, length r = 3) (Phi out3) ∧ Forall (λ r, length r = 3) (Q out3)
  ∧ Forall (λ r, length r = 2) (Qx out3) ∧ Forall (λ r, length r = 0) (Qy out3).
Proof.
  pose proof (fdm3t_output_shapes pi64 log_unused dense_solve store3 gr3 [0; 1; 2]%float
                (KArray l_K) l_Ss l_FQ l_HI IBOUND3 1%float store3' out3 run3_012)
    as (_ & H1 & H2 & _ & H3 & _ & _ & H4 & H5 & H6 & H7 & _).
  done.
Defined.

Section StorageFacts.
Context {F : Type} {HN : Num F}.
Variable np_pi : F.
Variable np_log : F → F.
Variable spsolve : spmatrix F → list F → option (list F).

(** The provisional head of a step holds zero outside the active cells. *)
Lemma provisional_head_zero (m : list bool) (sol : list F) n Pit i :
  mask_assign (replicate n f0) m sol = Ok Pit → length m = n →
  m !! i = Some false → Pit !! i = Some f0.
Proof.
  intros H Hm Hi. unfold mask_assign in H.
  assert (i < n) as Hlt by (apply lookup_lt_Some in Hi; lia).
  destruct (decide (length sol = count_true m)).
  - injection H as <-. rewrite lookup_scatter_false by done.
    by apply lookup_replicate_2.
  - destruct sol as [|c [|]]; try done. injection H as <-.
    rewrite lookup_mask_fill_false by done. by apply lookup_replicate_2.
Qed.

(** The storage release reported for a cell that is not active (lines
    176-178).  [Qs[idt] = -Cs/dt * (Phi[it] - Phi[it-1])] is evaluated
    while [Phi[it]] still holds zero in the fixed-head and inactive cells:
    there it is [-Cs/dt * (0 - Phi[it-1])], not zero. *)
Theorem storage_release_outside_active_cells σ gr t kxyz Ss FQ HI IBOUND eps σ' out ss
    n dt prev Qsn i v s vol p :
  fdm3t np_pi np_log spsolve σ gr t kxyz Ss FQ HI IBOUND eps = (σ', Ok out) →
  σ' !! Ss = Some ss →
  np_diff t !! n = Some dt → Phi out !! n = Some prev → Qs out !! n = Some Qsn →
  data IBOUND !! i = Some v → (v ≤ 0)%Z →
  data ss !! i = Some s → Volume gr !! i = Some vol → prev !! i = Some p →
  Qsn !! i = Some (fmul (fdiv (fopp (fdiv (fmul s vol) eps)) dt) (fsub f0 p)).
Proof.
  intros H Hss Hdt Hprev HQs Hv Hle Hs Hvol Hp.
  assert (∃ Qn, Q out !! n = Some Qn) as [Qn HQ].
  { apply lookup_lt_is_Some. apply lookup_lt_Some in HQs.
    apply fdm3t_flow_lengths in H as (_ & ? & _). lia. }
  destruct (fdm3t_step _ _ _ _ _ _ _ _ _ _ _ _ _ _ n Qn H HQ)
    as (k & kx & ky & kz & ss' & fq & st & dt' & prev' & o & _ & _ & _ & Hss' & _ & Hn & Hst
        & Hdt' & Hprev' & Lp & Hstep & _ & _ & HQs' & _).
  assert (ss' = ss) as -> by congruence. assert (dt' = dt) as -> by congruence.
  assert (prev' = prev) as -> by congruence.
  assert (Qsn = st_Qs o) as -> by congruence.
  pose proof (build_setup_inv _ _ _ _ _ _ _ _ _ _ Hst) as (Hgr & _ & Ha & _ & _ & HCs).
  apply time_step_inv in Hstep as (RHS & sol & Pit & Pa & Pf & _ & _ & Hit & _ & _ & ->).
  simpl. rewrite Hgr in Hit.
  eapply (provisional_head_zero _ _ _ _ i) in Hit.
  2:{ by rewrite Ha, length_fmap. }
  2:{ rewrite Ha, list_lookup_fmap, Hv. simpl. f_equal. apply bool_decide_eq_false. lia. }
  rewrite !lookup_zip_with, list_lookup_fmap, HCs. unfold storage.
  rewrite lookup_zip_with, Hs, Hvol, Hit, Hp. done.
Qed.
End StorageFacts.

Lemma storage_release_outside_active_cells_witness :
  [-0; 4.5; 7]%float !! 2 = Some ((- (1 * 1 / 1) / (1 - 0)) * (0 - 7))%float.
Proof.
  pose proof (storage_release_outside_active_cells pi64 log_unused dense_solve store3 gr3
                [0; 1; 2]%float (KArray l_K) l_Ss l_FQ l_HI IBOUND3 1%float store3' out3
                (arr3 [1; 1; 1]%float) 0 (1 - 0)%float [0; 9; 7]%float [-0; 4.5; 7]%float
                2 0%Z 1%float 1%float 7%float run3_012) as H.
  apply H; try reflexivity; lia.
Defined.

(** * When a solve returns *)

Section Returns.
Context {F : Type} {HN : Num F}.
Variable np_pi : F.
Variable np_log : F → F.
Variable spsolve : spmatrix F → list F → option (list F).

Lemma forallb_tab3 (P : nat → bool) n1 n2 n3 (f : nat → nat → nat → nat) :
  (∀ z y x, P (f z y x) = true) → forallb P (tab3 n1 n2 n3 f) = true.
Proof.
  intros Hf. apply forallb_forall. intros i Hi. apply list_elem_of_In in Hi.
  unfold tab3 in Hi. apply list_elem_of_fmap in Hi as (j & -> & _). apply Hf.
Qed.

(** Cell numbers below [nod] are all [csc_matrix] asks for. *)
Lemma conductance_matrix_returns (gr : Grid F) Cx Cy Cz :
  Forall (λ i, i < gr_nod gr) (NOD gr) → gr_nod gr ≠ 0 →
  ∃ A0, conductance_matrix gr Cx Cy Cz = Ok A0.
Proof.
  intros HN0 Hnod. unfold conductance_matrix, csc_matrix.
  assert (∀ z y x, (nod_at gr z y x <? gr_nod gr) = true) as Hlt.
  { intros z y x. apply Nat.ltb_lt. unfold nod_at.
    destruct (NOD gr !! idx3 (ny gr) (nx gr) z y x) as [i|] eqn:Hi; simpl; [|lia].
    rewrite Forall_forall in HN0. apply HN0. by eapply list_elem_of_lookup_2. }
  rewrite !forallb_app. unfold IE, IW, IN, IS, IB, IT.
  rewrite !forallb_tab3 by (intros; apply Hlt). simpl. eauto.
Qed.

Lemma count_true_le m : count_true m ≤ length m.
Proof. unfold count_true. apply length_filter. Qed.

Lemma mask_assign_Ok {A} (v : list A) m xs :
  length xs = count_true m → mask_assign v m xs = Ok (mask_scatter v m xs).
Proof. intros H. unfold mask_assign. by rewrite decide_True. Qed.

(** One step returns when the arrays have the grid's size and the solver
    answers. *)
Lemma time_step_returns (s : setup F) (ib : list Z) FQ dt prev :
  solver_answers spsolve →
  s_active s = (λ v, bool_decide (0 < v)%Z) <$> ib →
  s_fxhd s = (λ v, bool_decide (v < 0)%Z) <$> ib →
  length ib = gr_nod (s_gr s) → sp_rows (s_A s) = length ib →
  length (s_Cs s) = length ib → length FQ = length ib → length prev = length ib →
  ∃ o, time_step spsolve s FQ dt prev = Ok o.
Proof.
  intros Hsolver Ha Hf Hn HA HCs HFQ Hprev.
  assert (length (s_active s) = length ib) as La by by rewrite Ha, length_fmap.
  assert (length (s_fxhd s) = length ib) as Lf by by rewrite Hf, length_fmap.
  unfold time_step, step_RHS, np_op.
  destruct (decide (length FQ = length (sp_dot _ _))) as [_|N];
    [|contradict N; rewrite length_sp_dot; simpl; lia].
  cbn [mbind result_bind].
  set (RHS := zip_with fsub FQ _).
  assert (length RHS = length ib) as LRHS.
  { unfold RHS. rewrite length_zip_with, length_sp_dot. simpl. lia. }
  destruct (Hsolver (step_matrix s dt) (step_vector s dt prev RHS)) as (sol & -> & Lsol).
  { done. }
  { unfold step_vector. simpl.
    rewrite !length_zip_with, length_fmap, !length_mask_select by lia. lia. }
  simpl in Lsol.
  rewrite (mask_assign_Ok _ _ sol) by done. cbn [mbind result_bind].
  set (Pit := mask_scatter _ _ sol).
  assert (length Pit = length ib) as LPit.
  { unfold Pit. by rewrite length_mask_scatter, length_replicate. }
  rewrite (mask_assign_Ok Pit).
  2:{ rewrite length_zip_with, length_fmap, !length_mask_select;
        [lia|rewrite length_zip_with; lia|lia]. }
  cbn [mbind result_bind]. rewrite mask_assign_Ok.
  2:{ rewrite length_mask_select by lia. done. }
  cbn [mbind result_bind]. eauto.
Qed.

Lemma time_loop_returns (s : setup F) (ib : list Z) FQ dts prev :
  solver_answers spsolve →
  s_active s = (λ v, bool_decide (0 < v)%Z) <$> ib →
  s_inact s = (λ v, bool_decide (v = 0)%Z) <$> ib →
  s_fxhd s = (λ v, bool_decide (v < 0)%Z) <$> ib →
  length ib = gr_nod (s_gr s) → sp_rows (s_A s) = length ib →
  length (s_Cs s) = length ib → length FQ = length ib → length prev = length ib →
  ∃ os, time_loop spsolve s FQ dts prev = Ok os.
Proof.
  intros Hsolver Ha Hi Hf Hn HA HCs HFQ. revert prev.
  induction dts as [|dt dts IH]; intros prev Hprev; [by exists []|].
  destruct (time_step_returns s ib FQ dt prev) as [o Ho]; try done.
  destruct (IH (st_Phi o)) as [os Hos].
  { by eapply (time_step_length spsolve s ib). }
  exists (o :: os). simpl. rewrite Ho. cbn. by rewrite Hos.
Qed.
End Returns.

Section Returns2.
Context {F : Type} {HN : Num F}.
Variable np_pi : F.
Variable np_log : F → F.
Variable spsolve : spmatrix F → list F → option (list F).
Implicit Types (σ : gmap nat (ndarray F)) (k : nat * nat * nat).

Lemma clamp_store_data σ k l a :
  σ !! l = Some a →
  ∃ a', clamp_store σ k !! l = Some a' ∧ shape a' = shape a
        ∧ length (data a') = length (data a).
Proof.
  intros Hl. rewrite lookup_clamp_store, Hl. case_decide.
  - exists (clamp_array a). simpl. by rewrite length_fmap.
  - by exists a.
Qed.

(** What a call with inputs of the right sizes goes through: the checks
    pass, the conductivities are clamped, the masks, conductances and the
    system matrix are made, an empty time vector is refused when the
    arrays of the results are allocated, and with any other time vector
    every step of the loop returns. *)
Lemma fdm3t_runs σ gr kxyz Ss FQ HI IBOUND eps k akx aky akz aSs fq hi :
  solver_answers spsolve →
  unpack_kxyz kxyz = Ok k →
  σ !! k.1.1 = Some akx → σ !! k.1.2 = Some aky → σ !! k.2 = Some akz →
  σ !! Ss = Some aSs →
  shape akx = gr_shape gr → shape aky = gr_shape gr →
  shape akz = gr_shape gr → shape aSs = gr_shape gr →
  length (data aSs) = gr_nod gr → length (Volume gr) = gr_nod gr →
  length (data IBOUND) = gr_nod gr →
  length (dx gr) = nx gr → length (dy gr) = ny gr →
  Forall (λ i, i < gr_nod gr) (NOD gr) →
  nz gr ≠ 0 → ny gr ≠ 0 → nx gr ≠ 0 →
  σ !! FQ = Some fq → length (data fq) = gr_nod gr →
  σ !! HI = Some hi → length (data hi) = gr_nod gr →
  ∃ kx ky kz ss fq' hi' s,
    clamp_store σ k !! k.1.1 = Some kx ∧ clamp_store σ k !! k.1.2 = Some ky
    ∧ clamp_store σ k !! k.2 = Some kz ∧ clamp_store σ k !! Ss = Some ss
    ∧ clamp_store σ k !! FQ = Some fq' ∧ clamp_store σ k !! HI = Some hi'
    ∧ length (data hi') = gr_nod gr
    ∧ build_setup np_pi np_log gr (data kx) (data ky) (data kz) (data ss) (data IBOUND) eps
      = Ok s
    ∧ fdm3t np_pi np_log spsolve σ gr [] kxyz Ss FQ HI IBOUND eps
      = (clamp_store σ k, Raise (ValueError "negative dimensions are not allowed"))
    ∧ ∀ t, t ≠ [] →
        ∃ os, time_loop spsolve s (data fq') (np_diff t) (data hi') = Ok os
          ∧ fdm3t np_pi np_log spsolve σ gr t kxyz Ss FQ HI IBOUND eps
            = (clamp_store σ k,
               Ok {| out_t := t; Phi := data hi' :: (st_Phi <$> os);
                     Q := st_Q <$> os; Qs := st_Qs <$> os;
                     Qx := st_Qx <$> os; Qy := st_Qy <$> os; Qz := st_Qz <$> os |}).
Proof.
  intros Hsolver Hk Hkx Hky Hkz HSs Sx Sy Sz SS LSs LV Lib Ldx Ldy HNOD Hz Hy Hx Hfq Lfq
    Hhi Lhi.
  destruct (clamp_store_data σ k _ _ Hkx) as (kx' & Hkx' & _ & _).
  destruct (clamp_store_data σ k _ _ Hky) as (ky' & Hky' & _ & _).
  destruct (clamp_store_data σ k _ _ Hkz) as (kz' & Hkz' & _ & _).
  destruct (clamp_store_data σ k _ _ HSs) as (ss' & Hss' & _ & Lss').
  destruct (clamp_store_data σ k _ _ Hfq) as (fq' & Hfq' & _ & Lfq').
  destruct (clamp_store_data σ k _ _ Hhi) as (hi' & Hhi' & _ & Lhi').
  assert (gr_nod gr ≠ 0) as Hnod by (unfold gr_nod; lia).
  destruct (conductance_matrix_returns gr
              (conductance_x gr (half_resistances np_pi np_log gr (data kx') (data ky')
                 (data kz') ((λ v, bool_decide (v = 0)%Z) <$> data IBOUND)))
              (conductance_y gr (half_resistances np_pi np_log gr (data kx') (data ky')
                 (data kz') ((λ v, bool_decide (v = 0)%Z) <$> data IBOUND)))
              (conductance_z gr (half_resistances np_pi np_log gr (data kx') (data ky')
                 (data kz') ((λ v, bool_decide (v = 0)%Z) <$> data IBOUND)))
              HNOD Hnod) as [A0 HA0].
  assert (∃ s, build_setup np_pi np_log gr (data kx') (data ky') (data kz') (data ss')
                 (data IBOUND) eps = Ok s) as [s Hs].
  { unfold build_setup. rewrite HA0. cbn. eauto. }
  pose proof (build_setup_inv _ _ _ _ _ _ _ _ _ _ Hs) as (Hgr & _ & Ha & Hi & Hf & HCs).
  pose proof (build_setup_rows _ _ _ _ _ _ _ _ _ _ Hs) as HA.
  exists kx', ky', kz', ss', fq', hi', s.
  do 6 (split; [done|]). split; [lia|]. split; [done|]. split.
  - unfold fdm3t. rewrite (validate_intro σ gr kxyz Ss k akx aky akz aSs) by done.
    f_equal. unfold solve, deref. rewrite Hkx', Hky', Hkz', Hss'. cbn.
    destruct (decide (length (data IBOUND) = gr_nod gr)); [|done]. cbn.
    destruct (decide (length (dx gr) = nx gr ∧ length (dy gr) = ny gr)) as [_|N];
      [|by destruct N]. cbn.
    rewrite Hs. cbn.
    destruct (decide ([] = [] ∨ nz gr = 0 ∨ ny gr = 0 ∨ nx gr = 0)) as [_|N]; [done|].
    destruct N. by left.
  - intros t Ht.
    destruct (time_loop_returns spsolve s (data IBOUND) (data fq') (np_diff t) (data hi'))
      as [os Hos]; try done; try lia.
    { by rewrite Hgr. }
    { rewrite HCs. unfold storage. rewrite length_zip_with. lia. }
    exists os. split; [done|].
    unfold fdm3t. rewrite (validate_intro σ gr kxyz Ss k akx aky akz aSs) by done.
    f_equal. eapply solve_intro; try done.
    apply row_assign_same. lia.
Qed.

(** Inputs of the right sizes are always accepted (lines 69-196): with a
    grid object whose attributes have the sizes of the grid, [kxyz] a tuple
    of three arrays or one array, [kx], [ky], [kz], [Ss] of the grid's
    shape, [Ss], [FQ], [HI] and [IBOUND] with one element for each cell, at
    least one time and no empty axis, the call returns, whatever the values
    in the arrays and in [t] and whatever [epsilon] is. *)
Theorem fdm3t_returns_on_well_shaped_input σ gr t kxyz Ss FQ HI IBOUND eps
    k akx aky akz aSs fq hi :
  solver_answers spsolve →
  grid_wf gr →
  unpack_kxyz kxyz = Ok k →
  σ !! k.1.1 = Some akx → σ !! k.1.2 = Some aky → σ !! k.2 = Some akz →
  σ !! Ss = Some aSs →
  shape akx = gr_shape gr → shape aky = gr_shape gr →
  shape akz = gr_shape gr → shape aSs = gr_shape gr →
  length (data aSs) = gr_nod gr →
  length (data IBOUND) = gr_nod gr →
  t ≠ [] → nz gr ≠ 0 → ny gr ≠ 0 → nx gr ≠ 0 →
  σ !! FQ = Some fq → length (data fq) = gr_nod gr →
  σ !! HI = Some hi → length (data hi) = gr_nod gr →
  ∃ out, fdm3t np_pi np_log spsolve σ gr t kxyz Ss FQ HI IBOUND eps
         = (clamp_store σ k, Ok out).
Proof.
  intros Hsolver (Ldx & Ldy & _ & _ & _ & LV & _ & HNOD) Hk Hkx Hky Hkz HSs Sx Sy Sz SS
    LSs Lib Ht Hz Hy Hx Hfq Lfq Hhi Lhi.
  destruct (fdm3t_runs σ gr kxyz Ss FQ HI IBOUND eps k akx aky akz aSs fq hi)
    as (kx & ky & kz & ss & fq' & hi' & s & _ & _ & _ & _ & _ & _ & _ & _ & _ & Hrun);
    try done.
  destruct (Hrun t Ht) as (os & _ & ->). by eexists.
Qed.

(** Claim C7 as amended, the time vector.  [fdm3t] does not validate [t].
    On inputs of the right sizes (as above), an empty [t] makes the call
    fail with a ValueError when the arrays of the results are allocated,
    after the conductivities were clamped; every other [t] is accepted,
    also one of a single point and one that is not strictly increasing:
    the call returns [len(t)] heads and [len(t) - 1] steps, and step [n] is
    computed with [dt = t[n+1] - t[n]], whatever its sign. *)
Theorem time_vector_is_not_validated σ gr t kxyz Ss FQ HI IBOUND eps
    k akx aky akz aSs fq hi :
  solver_answers spsolve →
  grid_wf gr →
  unpack_kxyz kxyz = Ok k →
  σ !! k.1.1 = Some akx → σ !! k.1.2 = Some aky → σ !! k.2 = Some akz →
  σ !! Ss = Some aSs →
  shape akx = gr_shape gr → shape aky = gr_shape gr →
  shape akz = gr_shape gr → shape aSs = gr_shape gr →
  length (data aSs) = gr_nod gr →
  length (data IBOUND) = gr_nod gr →
  nz gr ≠ 0 → ny gr ≠ 0 → nx gr ≠ 0 →
  σ !! FQ = Some fq → length (data fq) = gr_nod gr →
  σ !! HI = Some hi → length (data hi) = gr_nod gr →
  (t = [] →
   fdm3t np_pi np_log spsolve σ gr t kxyz Ss FQ HI IBOUND eps
   = (clamp_store σ k, Raise (ValueError "negative dimensions are not allowed")))
  ∧ (t ≠ [] →
     ∃ out kx ky kz ss fq' s,
       fdm3t np_pi np_log spsolve σ gr t kxyz Ss FQ HI IBOUND eps = (clamp_store σ k, Ok out)
       ∧ out_t out = t ∧ length (Phi out) = length t ∧ length (Q out) = length t - 1
       ∧ clamp_store σ k !! k.1.1 = Some kx ∧ clamp_store σ k !! k.1.2 = Some ky
       ∧ clamp_store σ k !! k.2 = Some kz ∧ clamp_store σ k !! Ss = Some ss
       ∧ clamp_store σ k !! FQ = Some fq'
       ∧ build_setup np_pi np_log gr (data kx) (data ky) (data kz) (data ss) (data IBOUND)
           eps = Ok s
       ∧ ∀ n, S n < length t →
           ∃ prev o,
             Phi out !! n = Some prev
             ∧ time_step spsolve s (data fq') (fsub (at_ t (S n)) (at_ t n)) prev = Ok o
             ∧ Phi out !! S n = Some (st_Phi o)
             ∧ Q out !! n = Some (st_Q o) ∧ Qs out !! n = Some (st_Qs o)
             ∧ Qx out !! n = Some (st_Qx o) ∧ Qy out !! n = Some (st_Qy o)
             ∧ Qz out !! n = Some (st_Qz o)).
Proof.
  intros Hsolver (Ldx & Ldy & _ & _ & _ & LV & _ & HNOD) Hk Hkx Hky Hkz HSs Sx Sy Sz SS
    LSs Lib Hz Hy Hx Hfq Lfq Hhi Lhi.
  destruct (fdm3t_runs σ gr kxyz Ss FQ HI IBOUND eps k akx aky akz aSs fq hi)
    as (kx & ky & kz & ss & fq' & hi' & s & Hkx' & Hky' & Hkz' & Hss' & Hfq' & Hhi' & Lhi'
        & Hs & Hempty & Hrun); try done.
  split; [by intros ->|].
  intros Ht. destruct (Hrun t Ht) as (os & Hos & ->).
  pose proof (build_setup_inv _ _ _ _ _ _ _ _ _ _ Hs) as (Hgr & _ & Ha & Hi & Hf & _).
  assert (length os = length t - 1) as Los.
  { pose proof Hos as Hos'.
    eapply (time_loop_slices spsolve s (data IBOUND)) in Hos' as [-> _];
      try done; [|by rewrite Hgr|lia].
    unfold np_diff. rewrite length_zip_with. destruct t; simpl; lia. }
  eexists _, kx, ky, kz, ss, fq', s. split; [done|]. simpl.
  rewrite !length_fmap. split; [done|]. split; [destruct t; [done|simpl in *; lia]|].
  split; [done|]. do 5 (split; [done|]). split; [done|].
  intros n Hn.
  destruct (lookup_lt_is_Some_2 os n ltac:(lia)) as [o Ho].
  destruct (time_loop_prev spsolve s (data IBOUND) (data fq') (np_diff t) (data hi') os n o)
    as (dt & prev & Hdt & Hprev & _ & Hstep); try done; try lia.
  { by rewrite Hgr. }
  exists prev, o. split; [done|].
  assert (dt = fsub (at_ t (S n)) (at_ t n)) as <-.
  { unfold np_diff in Hdt. rewrite lookup_zip_with in Hdt.
    unfold at_. rewrite <- lookup_tail.
    destruct (tail t !! n) as [a|]; [|done]. simpl in Hdt.
    destruct (t !! n) as [b|]; [|done]. simpl in Hdt. by injection Hdt as <-. }
  split; [done|].
  rewrite !list_lookup_fmap, Ho. done.
Qed.
End Returns2.

Section Solver2.
Context {F : Type} {HN : Num F}.

Lemma length_eliminate k (rows : list (list F)) : length (eliminate k rows) = length rows.
Proof. unfold eliminate. destruct (rows !! k); [|done]. by rewrite length_imap. Qed.

Lemma length_gauss_jordan n (rows : list (list F)) :
  length (gauss_jordan n rows) = length rows.
Proof.
  unfold gauss_jordan. generalize (seq 0 n). intros ks. revert rows.
  induction ks as [|k ks IH]; intros rows; [done|].
  simpl. by rewrite IH, length_eliminate.
Qed.

(** The dense solver answers every square system. *)
Lemma dense_solve_answers : solver_answers (dense_solve (F := F)).
Proof.
  intros M b Hsq Hb. unfold dense_solve. eexists. split; [done|].
  rewrite length_fmap, length_gauss_jordan, length_zip_with. unfold dense.
  rewrite length_fmap, length_seq. lia.
Qed.
End Solver2.

Lemma gr3_wf : grid_wf gr3.
Proof. unfold grid_wf. repeat split; try reflexivity. repeat constructor. Qed.

Lemma fdm3t_returns_on_well_shaped_input_witness :
  ∃ out, run3 [0; 1; 2]%float = (clamp_store store3 (l_K, l_K, l_K), Ok out).
Proof.
  pose proof (fdm3t_returns_on_well_shaped_input pi64 log_unused dense_solve store3 gr3
                [0; 1; 2]%float (KArray l_K) l_Ss l_FQ l_HI IBOUND3 1%float
                (l_K, l_K, l_K) (arr3 [1; 1; 0]%float) (arr3 [1; 1; 0]%float)
                (arr3 [1; 1; 0]%float) (arr3 [1; 1; 1]%float) (arr3 [0; 0; 0]%float)
                (arr3 [0; 9; 7]%float) dense_solve_answers gr3_wf) as H.
  apply H; try reflexivity; done.
Defined.

Lemma time_vector_is_not_validated_witness :
  ∃ out, run3 [2; 0]%float = (clamp_store store3 (l_K, l_K, l_K), Ok out)
         ∧ length (Phi out) = 2 ∧ length (Q out) = 1.
Proof.
  pose proof (time_vector_is_not_validated pi64 log_unused dense_solve store3 gr3
                [2; 0]%float (KArray l_K) l_Ss l_FQ l_HI IBOUND3 1%float
                (l_K, l_K, l_K) (arr3 [1; 1; 0]%float) (arr3 [1; 1; 0]%float)
                (arr3 [1; 1; 0]%float) (arr3 [1; 1; 1]%float) (arr3 [0; 0; 0]%float)
                (arr3 [0; 9; 7]%float) dense_solve_answers gr3_wf) as H.
  destruct H as [_ H]; try reflexivity; try done.
  destruct (H ltac:(discriminate)) as (out & kx & ky & kz & ss & fq' & s & Hrun & _ & LP & LQ & _).
  exists out. split; [exact Hrun|]. split; [exact LP|exact LQ].
Defined.

(** * What a call accepts *)

Section Accepts.
Context {F : Type} {HN : Num F}.
Variable np_pi : F.
Variable np_log : F → F.
Variable spsolve : spmatrix F → list F → option (list F).
Implicit Types (σ : gmap nat (ndarray F)) (k : nat * nat * nat).

(** What [fdm3t] has checked when it returns (lines 69-81, 87, 146-158):
    [kxyz] was a tuple of three arrays or one array, [kx], [ky], [kz] and
    [Ss] have the grid's shape, [IBOUND] has one element for each cell,
    there is at least one time and no empty axis, and [HI] has one element
    for each cell or a single element, which is then the initial head of
    every cell.  The store left is the store given with the conductivities
    clamped. *)
Theorem fdm3t_returns_only_on σ gr t kxyz Ss FQ HI IBOUND eps σ' out :
  fdm3t np_pi np_log spsolve σ gr t kxyz Ss FQ HI IBOUND eps = (σ', Ok out) →
  ∃ k akx aky akz aSs fq hi,
    unpack_kxyz kxyz = Ok k ∧ σ' = clamp_store σ k
    ∧ σ !! k.1.1 = Some akx ∧ σ !! k.1.2 = Some aky ∧ σ !! k.2 = Some akz
    ∧ σ !! Ss = Some aSs
    ∧ shape akx = gr_shape gr ∧ shape aky = gr_shape gr
    ∧ shape akz = gr_shape gr ∧ shape aSs = gr_shape gr
    ∧ length (data IBOUND) = gr_nod gr
    ∧ t ≠ [] ∧ nz gr ≠ 0 ∧ ny gr ≠ 0 ∧ nx gr ≠ 0
    ∧ σ' !! FQ = Some fq ∧ σ' !! HI = Some hi
    ∧ ((length (data hi) = gr_nod gr ∧ Phi out !! 0 = Some (data hi))
       ∨ (∃ c, data hi = [c] ∧ Phi out !! 0 = Some (replicate (gr_nod gr) c))).
Proof.
  intros H. apply fdm3t_inv in H as (k & Hv & -> & H).
  apply validate_Ok in Hv as (Hk & akx & aky & akz & aSs & Hkx & Hky & Hkz & HSs
    & Sx & Sy & Sz & SS).
  apply solve_inv in H as (kx & ky & kz & ss & fq & hi & s & Phi0 & os & _ & _ & _ & _
    & Hn & _ & Ht & Hz & Hy & Hx & Hfq & Hhi & HPhi0 & _ & ->).
  exists k, akx, aky, akz, aSs, fq, hi. repeat (split; [done|]). simpl.
  unfold row_assign in HPhi0. destruct (decide (length (data hi) = gr_nod gr)).
  - left. by injection HPhi0 as <-.
  - right. destruct (data hi) as [|c [|]]; try done. injection HPhi0 as <-. by exists c.
Qed.

Lemma validate_clamp_store σ gr kxyz lSs k :
  validate σ gr kxyz lSs = Ok k → validate (clamp_store σ k) gr kxyz lSs = Ok k.
Proof.
  intros Hv.
  apply validate_Ok in Hv as (Hk & akx & aky & akz & aSs & Hkx & Hky & Hkz & HSs
    & Sx & Sy & Sz & SS).
  destruct (clamp_store_data σ k _ _ Hkx) as (kx' & Hkx' & Sx' & _).
  destruct (clamp_store_data σ k _ _ Hky) as (ky' & Hky' & Sy' & _).
  destruct (clamp_store_data σ k _ _ Hkz) as (kz' & Hkz' & Sz' & _).
  destruct (clamp_store_data σ k _ _ HSs) as (ss' & Hss' & SS' & _).
  eapply validate_intro; try done; congruence.
Qed.

(** Clamping is done once (lines 83-85): a second call with the same
    arguments, on the arrays the first call left, changes nothing more and
    gives the same result or the same exception. *)
Theorem fdm3t_second_call σ gr t kxyz Ss FQ HI IBOUND eps σ' r :
  fdm3t np_pi np_log spsolve σ gr t kxyz Ss FQ HI IBOUND eps = (σ', r) →
  fdm3t np_pi np_log spsolve σ' gr t kxyz Ss FQ HI IBOUND eps = (σ', r).
Proof.
  unfold fdm3t. destruct (validate σ gr kxyz Ss) as [k|e] eqn:Hv.
  - intros [= <- <-]. rewrite (validate_clamp_store _ _ _ _ _ Hv).
    by rewrite clamp_store_idem.
  - intros [= <- <-]. by rewrite Hv.
Qed.

(** The forms of [kxyz] (lines 69-72): [fdm3t] takes a tuple of exactly
    three arrays or a single array.  A list is not unpacked and has no
    [shape]; a tuple of another length cannot be unpacked.  Nothing is
    written in either case. *)
Theorem fdm3t_kxyz_forms σ gr t Ss FQ HI IBOUND eps :
  (∀ l, fdm3t np_pi np_log spsolve σ gr t (KList l) Ss FQ HI IBOUND eps
        = (σ, Raise (AttributeError "'list' object has no attribute 'shape'")))
  ∧ (∀ l, length l ≠ 3 →
       ∃ msg, fdm3t np_pi np_log spsolve σ gr t (KTuple l) Ss FQ HI IBOUND eps
              = (σ, Raise (ValueError msg)))
  ∧ (∀ a, fdm3t np_pi np_log spsolve σ gr t (KArray a) Ss FQ HI IBOUND eps
          = fdm3t np_pi np_log spsolve σ gr t (KTuple [a; a; a]) Ss FQ HI IBOUND eps).
Proof.
  split; [|split].
  - intros l. done.
  - intros l Hl. unfold fdm3t, validate.
    destruct l as [|a [|b [|c [|d l]]]]; try done; cbn; eauto.
  - intros a. done.
Qed.
End Accepts.

Lemma fdm3t_returns_only_on_witness :
  ∃ k hi, unpack_kxyz (KArray l_K) = Ok k ∧ store3' = clamp_store store3 k
          ∧ store3' !! l_HI = Some hi ∧ Phi out3 !! 0 = Some (data hi).
Proof.
  destruct (fdm3t_returns_only_on pi64 log_unused dense_solve store3 gr3 [0; 1; 2]%float
              (KArray l_K) l_Ss l_FQ l_HI IBOUND3 1%float store3' out3 run3_012)
    as (k & akx & aky & akz & aSs & fq & hi & Hk & Hs & _ & _ & _ & _ & _ & _ & _ & _ & _
        & _ & _ & _ & _ & _ & Hhi & [[_ H0]|[c [Hc _]]]).
  - by exists k, hi.
  - exfalso. assert (hi = arr3 [0; 9; 7]%float) as ->.
    { apply (inj Some). rewrite <- Hhi. vm_compute. reflexivity. }
    discriminate Hc.
Defined.

Lemma fdm3t_second_call_witness :
  fdm3t pi64 log_unused dense_solve store3' gr3 [0; 1; 2]%float (KArray l_K) l_Ss l_FQ l_HI
    IBOUND3 1%float = (store3', Ok out3).
Proof.
  exact (fdm3t_second_call pi64 log_unused dense_solve store3 gr3 [0; 1; 2]%float
           (KArray l_K) l_Ss l_FQ l_HI IBOUND3 1%float store3' (Ok out3) run3_012).
Defined.

(** * The constructor of the class *)

Section ClassFacts.
Context {F : Type} {HN : Num F}.
Variable np_pi : F.
Variable np_log : F → F.
Variable spsolve : spmatrix F → list F → option (list F).
Implicit Types (σ : gmap nat (ndarray F)).

Lemma assert_shape_Ok σ gr l msg u :
  assert_shape σ gr l msg = Ok u ↔ ∃ a, σ !! l = Some a ∧ shape a = gr_shape gr.
Proof.
  unfold assert_shape, deref. destruct (σ !! l) as [a|]; cbn.
  - destruct (decide (gr_shape gr = shape a)) as [E|N]; split.
    + intros _. by exists a.
    + intros _. by destruct u.
    + done.
    + intros (a' & [= <-] & E). by rewrite E in N.
  - split; [done|]. by intros (a & ? & _).
Qed.

Lemma assert_shape_Raise σ gr l msg e :
  assert_shape σ gr l msg = Raise e →
  (σ !! l = None ∧ numeric_failure e)
  ∨ (∃ a, σ !! l = Some a ∧ shape a ≠ gr_shape gr ∧ e = AssertionError msg).
Proof.
  unfold assert_shape, deref. destruct (σ !! l) as [a|]; cbn.
  - case_decide; [done|]. intros [= <-]. right. exists a. split; [done|]. split; congruence.
  - intros [= <-]. by left.
Qed.

Lemma class_asserts_Ok σ gr kxyz Ss FQ IBOUND K :
  class_asserts σ gr kxyz Ss FQ IBOUND = Ok K →
  class_kxyz kxyz = Ok K
  ∧ ∃ aKh aKv aFQ aSs,
      σ !! K.1 = Some aKh ∧ σ !! K.2 = Some aKv ∧ σ !! FQ = Some aFQ ∧ σ !! Ss = Some aSs
      ∧ shape aKh = gr_shape gr ∧ shape aKv = gr_shape gr ∧ shape aFQ = gr_shape gr
      ∧ shape aSs = gr_shape gr ∧ shape IBOUND = gr_shape gr.
Proof.
  unfold class_asserts. intros H.
  apply bind_Ok in H as (K' & HK & H).
  apply bind_Ok in H as (u1 & H1 & H). apply bind_Ok in H as (u2 & H2 & H).
  apply bind_Ok in H as (u3 & H3 & H). apply bind_Ok in H as (u4 & H4 & H).
  apply bind_Ok in H as (u5 & H5 & H). injection H as <-.
  apply assert_shape_Ok in H1 as (aKh & ? & ?), H2 as (aKv & ? & ?),
    H3 as (aFQ & ? & ?), H4 as (aSs & ? & ?).
  destruct (decide (gr_shape gr = shape IBOUND)); [|done].
  split; [done|]. by exists aKh, aKv, aFQ, aSs.
Qed.

(** The messages of the five assertions of lines 264-268. *)
Lemma class_asserts_Raise σ gr kxyz Ss FQ IBOUND msg :
  class_asserts σ gr kxyz Ss FQ IBOUND = Raise (AssertionError msg) →
  msg ∈ ["gr.shape != Kh.shape"; "gr.shape != Kv.shape"; "gr.shape != FQ.shape";
         "gr.shape != HI.shape"; "gr.shape != IBOUND.shape"].
Proof.
  unfold class_asserts. intros H.
  apply bind_Raise in H as [H|(K & _ & H)].
  { unfold class_kxyz in H. destruct kxyz as [l|l|a]; [| |done];
      destruct l as [|? [|? [|? [|? ?]]]]; done. }
  apply bind_Raise in H as [H|(?u & _ & H)].
  { apply assert_shape_Raise in H as [[_ H]|(a & _ & _ & [= <-])]; [done|].
    rewrite !elem_of_cons. tauto. }
  apply bind_Raise in H as [H|(?u & _ & H)].
  { apply assert_shape_Raise in H as [[_ H]|(a & _ & _ & [= <-])]; [done|].
    rewrite !elem_of_cons. tauto. }
  apply bind_Raise in H as [H|(?u & _ & H)].
  { apply assert_shape_Raise in H as [[_ H]|(a & _ & _ & [= <-])]; [done|].
    rewrite !elem_of_cons. tauto. }
  apply bind_Raise in H as [H|(?u & _ & H)].
  { apply assert_shape_Raise in H as [[_ H]|(a & _ & _ & [= <-])]; [done|].
    rewrite !elem_of_cons. tauto. }
  apply bind_Raise in H as [H|(?u & _ & H)]; [|done].
  case_decide; [done|]. injection H as <-. rewrite !elem_of_cons. tauto.
Qed.

(** The assertions of the constructor (lines 264-268) and what they leave
    to [fdm3t].  An object is made only if [Kh], [Kv], [FQ], [Ss] and
    [IBOUND] have the grid's shape; since [kx], [ky], [kz] handed to
    [fdm3t] are [Kh], [Kh], [Kv], the shape checks of [fdm3t] then never
    fail: an AssertionError of the constructor is one of its own five,
    raised before anything is written, and names no shape. *)
Theorem Fdm3t_asserts_shapes σ gr t kxyz Ss FQ HI IBOUND eps :
  (∀ σ' self,
     Fdm3t__init__ np_pi np_log spsolve σ gr t kxyz Ss FQ HI IBOUND eps = (σ', Ok self) →
     ∃ aKh aKv aFQ aSs,
       σ !! self_Kh self = Some aKh ∧ σ !! self_Kv self = Some aKv
       ∧ σ !! FQ = Some aFQ ∧ σ !! Ss = Some aSs
       ∧ shape aKh = gr_shape gr ∧ shape aKv = gr_shape gr ∧ shape aFQ = gr_shape gr
       ∧ shape aSs = gr_shape gr ∧ shape IBOUND = gr_shape gr)
  ∧ (∀ σ' msg,
       Fdm3t__init__ np_pi np_log spsolve σ gr t kxyz Ss FQ HI IBOUND eps
       = (σ', Raise (AssertionError msg)) →
       σ' = σ
       ∧ msg ∈ ["gr.shape != Kh.shape"; "gr.shape != Kv.shape"; "gr.shape != FQ.shape";
                "gr.shape != HI.shape"; "gr.shape != IBOUND.shape"]).
Proof.
  unfold Fdm3t__init__.
  destruct (class_asserts σ gr kxyz Ss FQ IBOUND) as [K|e] eqn:HK.
  - pose proof (class_asserts_Ok _ _ _ _ _ _ _ HK)
      as (_ & aKh & aKv & aFQ & aSs & HKh & HKv & HFQ & HSs & S1 & S2 & S3 & S4 & S5).
    split.
    + intros σ' self [= <- H]. apply bind_Ok in H as (out & _ & H). injection H as <-.
      simpl. by exists aKh, aKv, aFQ, aSs.
    + intros σ' msg [= <- H]. exfalso.
      apply bind_Raise in H as [H|(out & _ & H)]; [|done].
      unfold fdm3t in H.
      rewrite (validate_intro σ gr (KTuple [K.1; K.1; K.2]) Ss (K.1, K.1, K.2)
                 aKh aKh aKv aSs) in H by done.
      simpl in H. by apply solve_Raise in H.
  - split; [done|]. intros σ' msg [= <- ->]. split; [done|].
    by eapply class_asserts_Raise.
Qed.

(** The forms of [kxyz] the constructor takes (lines 250-262): of a
    sequence of three it reads the first and the last, so that the middle
    one ([Ky]) is never looked at; a sequence of two is (Kh, Kv), a
    sequence of one or a single array is used for both.  A list is as good
    as a tuple; another length is refused. *)
Theorem Fdm3t_kxyz_forms σ gr t Ss FQ HI IBOUND eps :
  (∀ a b b' c,
     Fdm3t__init__ np_pi np_log spsolve σ gr t (KTuple [a; b; c]) Ss FQ HI IBOUND eps
     = Fdm3t__init__ np_pi np_log spsolve σ gr t (KTuple [a; b'; c]) Ss FQ HI IBOUND eps)
  ∧ (∀ a b c,
       Fdm3t__init__ np_pi np_log spsolve σ gr t (KTuple [a; b; c]) Ss FQ HI IBOUND eps
       = Fdm3t__init__ np_pi np_log spsolve σ gr t (KTuple [a; c]) Ss FQ HI IBOUND eps)
  ∧ (∀ a,
       Fdm3t__init__ np_pi np_log spsolve σ gr t (KTuple [a]) Ss FQ HI IBOUND eps
       = Fdm3t__init__ np_pi np_log spsolve σ gr t (KArray a) Ss FQ HI IBOUND eps)
  ∧ (∀ l,
       Fdm3t__init__ np_pi np_log spsolve σ gr t (KList l) Ss FQ HI IBOUND eps
       = Fdm3t__init__ np_pi np_log spsolve σ gr t (KTuple l) Ss FQ HI IBOUND eps)
  ∧ (∀ l, length l = 0 ∨ 3 < length l →
       Fdm3t__init__ np_pi np_log spsolve σ gr t (KTuple l) Ss FQ HI IBOUND eps
       = (σ, Raise (ValueError "Can't understand input kxyz, use (Kx, Kz) tuple"))).
Proof.
  repeat split; try done.
  intros l Hl. destruct l as [|a [|b [|c [|d l]]]]; simpl in Hl; try lia; done.
Qed.
End ClassFacts.

Lemma Fdm3t_asserts_shapes_witness :
  ∃ aKh, store3 !! l_K = Some aKh ∧ shape aKh = [1; 1; 3].
Proof.
  destruct (proj1 (Fdm3t_asserts_shapes pi64 log_unused dense_solve store3 gr3
                     [0; 1; 2]%float (KArray l_K) l_Ss l_FQ l_HI IBOUND3 1%float)
              store3' self3) as (aKh & _ & _ & _ & H & _ & _ & _ & S & _).
  { vm_compute. reflexivity. }
  by exists aKh.
Defined.

Lemma Fdm3t_kxyz_forms_witness :
  Fdm3t__init__ pi64 log_unused dense_solve store3 gr3 [0; 1; 2]%float (KTuple []) l_Ss l_FQ
    l_HI IBOUND3 1%float
  = (store3, Raise (ValueError "Can't understand input kxyz, use (Kx, Kz) tuple")).
Proof.
  apply (proj2 (proj2 (proj2 (proj2 (Fdm3t_kxyz_forms pi64 log_unused dense_solve store3 gr3
           [0; 1; 2]%float l_Ss l_FQ l_HI IBOUND3 1%float))))).
  left. reflexivity.
Defined.

(** * The head and the storage release of an active cell *)

Lemma mask_select_fmap {A B} (f : A → B) m (a : list A) :
  mask_select m (f <$> a) = f <$> mask_select m a.
Proof.
  revert a. induction m as [|b m IH]; intros [|x a]; simpl; try done.
  destruct b; simpl; by rewrite IH.
Qed.

Lemma mask_select_zip_with {A B C} (f : A → B → C) m (a : list A) (b : list B) :
  mask_select m (zip_with f a b) = zip_with f (mask_select m a) (mask_select m b).
Proof.
  revert a b. induction m as [|b0 m IH]; intros [|x a] [|y b]; simpl; try done.
  - by rewrite zip_with_nil_r.
  - destruct b0; simpl; by rewrite IH.
Qed.

Section ActiveCell.
Context {F : Type} {HN : Num F}.
Variable np_pi : F.
Variable np_log : F → F.
Variable spsolve : spmatrix F → list F → option (list F).

(** One step at an active cell: the head the step leaves and the storage
    release are made from the same solved head [x]. *)
Lemma time_step_active (s : setup F) (ib : list Z) FQ dt prev o i v p c :
  s_active s = (λ v, bool_decide (0 < v)%Z) <$> ib →
  s_inact s = (λ v, bool_decide (v = 0)%Z) <$> ib →
  s_fxhd s = (λ v, bool_decide (v < 0)%Z) <$> ib →
  length ib = gr_nod (s_gr s) → length prev = length ib →
  time_step spsolve s FQ dt prev = Ok o →
  ib !! i = Some v → (0 < v)%Z → prev !! i = Some p → s_Cs s !! i = Some c →
  ∃ x, st_Phi o !! i = Some (fadd p (fdiv (fsub x p) (s_epsilon s)))
       ∧ st_Qs o !! i = Some (fmul (fdiv (fopp c) dt) (fsub x p)).
Proof.
  intros Ha Hi Hf Hn Hprev Hstep Hv Hpos Hp Hc.
  apply time_step_inv in Hstep as (RHS & sol & Pit & Pa & Pf & _ & _ & Hit & HPa & HPf & ->).
  simpl.
  assert (length (s_active s) = length ib) as La by by rewrite Ha, length_fmap.
  assert (length (s_fxhd s) = length ib) as Lf by by rewrite Hf, length_fmap.
  pose proof (mask_assign_length _ _ _ _ Hit) as LPit.
  rewrite length_replicate in LPit. specialize (LPit ltac:(lia)).
  pose proof (mask_assign_length _ _ _ _ HPa ltac:(lia)) as LPa.
  pose proof (lookup_lt_Some _ _ _ Hv) as Hlt.
  destruct (lookup_lt_is_Some_2 Pit i ltac:(lia)) as [x Hx].
  exists x.
  assert (s_active s !! i = Some true) as Hai.
  { rewrite Ha, list_lookup_fmap, Hv. simpl. by rewrite bool_decide_eq_true_2. }
  assert (s_fxhd s !! i = Some false) as Hfi.
  { rewrite Hf, list_lookup_fmap, Hv. simpl. f_equal. apply bool_decide_eq_false. lia. }
  assert (s_inact s !! i = Some false) as Hii.
  { rewrite Hi, list_lookup_fmap, Hv. simpl. f_equal. apply bool_decide_eq_false. lia. }
  split.
  - rewrite lookup_mask_fill_false by done.
    rewrite <- mask_select_fmap, <- mask_select_zip_with in HPa.
    rewrite (mask_assign_select Pa (s_fxhd s) prev Pf i) by (done || lia).
    rewrite Hfi.
    rewrite (mask_assign_select Pit (s_active s)
               (zip_with fadd prev ((λ d, fdiv d (s_epsilon s)) <$> zip_with fsub Pit prev))
               Pa i ltac:(lia)
               ltac:(rewrite length_zip_with, length_fmap, length_zip_with; lia) HPa).
    rewrite Hai, lookup_zip_with, Hp. simpl.
    by rewrite list_lookup_fmap, lookup_zip_with, Hx, Hp.
  - rewrite !lookup_zip_with, list_lookup_fmap, Hc, Hx, Hp. done.
Qed.
End ActiveCell.

Lemma xq_div_fin p q : q ≠ Q2Qc 0 → xq_div (Fin p) (Fin q) = Fin (p / q)%Qc.
Proof.
  intros Hq. simpl. unfold qc_sign.
  destruct (Qccompare q (Q2Qc 0)) eqn:E; try done.
  by apply Qceq_alt in E.
Qed.

Lemma xq_div_fin_is_fin a q : q ≠ Q2Qc 0 → is_fin (xq_div a (Fin q)) = true → is_fin a = true.
Proof.
  intros Hq. destruct a; simpl; try done; unfold qc_sign;
    destruct (Qccompare q (Q2Qc 0)) eqn:E; try done.
Qed.

Section StorageIdentity.
Variable np_pi : xq.
Variable np_log : xq → xq.
Variable spsolve : spmatrix xq → list xq → option (list xq).

(** The storage release of an active cell, in exact arithmetic (lines
    124, 178 and 187): whatever the implicitness [epsilon] is, [Qs] is the
    specific storage times the volume of the cell times the fall of the
    head over the step, as it is returned in [Phi], divided by the length
    of the step. *)
Theorem storage_release_is_head_change σ gr t kxyz Ss FQ HI IBOUND e σ' out ss
    n d prev next Qsn i v s vol p p' :
  fdm3t np_pi np_log spsolve σ gr t kxyz Ss FQ HI IBOUND (Fin e) = (σ', Ok out) →
  e ≠ Q2Qc 0 → σ' !! Ss = Some ss →
  np_diff t !! n = Some (Fin d) → d ≠ Q2Qc 0 →
  Phi out !! n = Some prev → Phi out !! S n = Some next → Qs out !! n = Some Qsn →
  data IBOUND !! i = Some v → (0 < v)%Z →
  data ss !! i = Some (Fin s) → Volume gr !! i = Some (Fin vol) →
  prev !! i = Some (Fin p) → next !! i = Some (Fin p') →
  Qsn !! i = Some (Fin (- (s * vol) * (p' - p) / d)%Qc).
Proof.
  intros H He Hss Hdt Hd Hprev Hnext HQs Hv Hpos Hs Hvol Hp Hp'.
  assert (∃ Qn, Q out !! n = Some Qn) as [Qn HQ].
  { apply lookup_lt_is_Some. apply lookup_lt_Some in HQs.
    apply fdm3t_flow_lengths in H as (_ & ? & _). lia. }
  destruct (fdm3t_step _ _ _ _ _ _ _ _ _ _ _ _ _ _ n Qn H HQ)
    as (k & kx & ky & kz & ss' & fq & st & dt' & prev' & o & _ & _ & _ & Hss' & _ & Hn & Hst
        & Hdt' & Hprev' & Lp & Hstep & Hnext' & _ & HQs' & _).
  assert (ss' = ss) as -> by congruence. assert (dt' = Fin d) as -> by congruence.
  assert (prev' = prev) as -> by congruence.
  assert (Qsn = st_Qs o) as -> by congruence.
  assert (next = st_Phi o) as -> by congruence.
  pose proof (build_setup_inv _ _ _ _ _ _ _ _ _ _ Hst) as (Hgr & Heps & Ha & Hi & Hf & HCs).
  destruct (time_step_active spsolve st (data IBOUND) (data fq) (Fin d) prev o i v (Fin p)
              (Fin (s * vol / e)%Qc)) as (x & Hx1 & Hx2); try done.
  { by rewrite Hgr. }
  { lia. }
  { rewrite HCs. unfold storage. rewrite lookup_zip_with, Hs, Hvol. simpl.
    f_equal. by apply xq_div_fin. }
  rewrite Heps in Hx1. rewrite Hx1 in Hp'. apply (inj Some) in Hp'.
  assert (is_fin x = true) as Hfx.
  { assert (is_fin (xq_add (Fin p) (xq_div (xq_sub x (Fin p)) (Fin e))) = true) as Hfin.
    { change (xq_add (Fin p) (xq_div (xq_sub x (Fin p)) (Fin e)))
        with (fadd (Fin p) (fdiv (fsub x (Fin p)) (Fin e))).
      by rewrite Hp'. }
    apply xq_add_is_fin in Hfin as [_ Hfin]. apply xq_div_fin_is_fin in Hfin; [|done].
    by apply xq_sub_is_fin in Hfin as [? _]. }
  destruct x as [xv| | |]; try done.
  rewrite Hx2. f_equal.
  change (fsub (Fin xv) (Fin p)) with (Fin (xv - p)%Qc) in *.
  change (fopp (Fin (s * vol / e)%Qc)) with (Fin (- (s * vol / e))%Qc).
  change (@fdiv xq xq_num) with xq_div in *. change (@fmul xq xq_num) with xq_mul.
  change (@fadd xq xq_num) with xq_add in *.
  rewrite xq_div_fin in * by done.
  simpl in Hp'. injection Hp' as <-. simpl. f_equal. field. done.
Qed.
End StorageIdentity.

Lemma storage_release_is_head_change_witness :
  (Qs out4 !!! 0) !! 0
  = Some (Fin (- (qfrac 1 1 * qfrac 1 1) * (qfrac 7 15 - qfrac 0 1)
               / (qfrac 1 1 - qfrac 0 1))%Qc).
Proof.
  pose proof (storage_release_is_head_change (Fin (qfrac 355 113)) (λ _, NaN) exact_solve
    store4 gr4 [qn 0; qn 1] (KArray l_K) l_Ss l_FQ l_HI IBOUND4 (qfrac 1 1) store4 out4
    (arr4 [qn 1; qn 1; qn 1; qn 1]) 0 (qfrac 1 1 - qfrac 0 1)%Qc
    (Phi out4 !!! 0) (Phi out4 !!! 1) (Qs out4 !!! 0) 0 1%Z (qfrac 1 1) (qfrac 1 1)
    (qfrac 0 1) (qfrac 7 15) run4_returns) as H.
  apply H.
  - done.
  - vm_compute. reflexivity.
  - reflexivity.
  - done.
  - vm_compute. reflexivity.
  - vm_compute. reflexivity.
  - vm_compute. reflexivity.
  - reflexivity.
  - lia.
  - reflexivity.
  - reflexivity.
  - vm_compute. f_equal; by apply Fin_canon.
  - vm_compute. f_equal; by apply Fin_canon.
Defined.

(** * Inactive cells *)

Section CartesianResistances.
Context {F : Type} {HN : Num F}.
Variable np_pi : F.
Variable np_log : F → F.

(** The half-cell resistances of a Cartesian grid, cell by cell. *)
Lemma cartesian_half_resistances (gr : Grid F) kx ky kz (inact : list bool) z y c
    (b : bool) :
  axial gr = false → z < nz gr → y < ny gr → c < nx gr →
  inact !! idx3 (ny gr) (nx gr) z y c = Some b →
  let R := half_resistances np_pi np_log gr kx ky kz inact in
  let n3 := cell (ny gr) (nx gr) in
  let rx := fdiv (fdiv (fmul fhalf (at_ (dx gr) c)) (fmul (at_ (dy gr) y) (n3 (DZ gr) z y c)))
                 (n3 kx z y c) in
  let ry := fdiv (fdiv (fmul fhalf (at_ (dy gr) y)) (fmul (n3 (DZ gr) z y c) (at_ (dx gr) c)))
                 (n3 ky z y c) in
  let rz := fdiv (fdiv (fmul fhalf (n3 (DZ gr) z y c)) (fmul (at_ (dx gr) c) (at_ (dy gr) y)))
                 (n3 kz z y c) in
  n3 (Rx1 R) z y c = (if b then finf else rx) ∧ n3 (Rx2 R) z y c = (if b then finf else rx)
  ∧ n3 (Ry1 R) z y c = (if b then finf else ry) ∧ n3 (Ry2 R) z y c = (if b then finf else ry)
  ∧ n3 (Rz1 R) z y c = (if b then finf else rz) ∧ n3 (Rz2 R) z y c = (if b then finf else rz).
Proof.
  intros Hax Hz Hy Hc Hb. cbv zeta. unfold half_resistances. rewrite Hax. simpl.
  assert (idx3 (ny gr) (nx gr) z y c < nz gr * ny gr * nx gr) as Hlt by by apply idx3_lt.
  destruct b.
  - unfold cell, at_.
    rewrite !lookup_mask_fill_true; try done;
      rewrite ?length_mask_fill, ?length_tab3; try lia.
    all: apply lookup_lt_Some in Hb; lia.
  - rewrite !cell_mask_fill_false by done. by rewrite !cell_tab3.
Qed.
End CartesianResistances.

Lemma clamped_nonzero (a : xq) q : clamp a = Fin q → q ≠ Q2Qc 0.
Proof.
  unfold clamp. intros H ->. destruct (fltb a ftiny) eqn:E.
  - apply (f_equal fin_val) in H. apply (f_equal this) in H. vm_compute in H. discriminate.
  - subst a. vm_compute in E. discriminate.
Qed.

Lemma fin_pos_nonzero a : fin_pos a → ∃ q, a = Fin q ∧ q ≠ Q2Qc 0.
Proof.
  intros (q & -> & Hq). exists q. split; [done|]. intros E.
  apply Qclt_not_eq in Hq. by rewrite E in Hq.
Qed.

(** A half-cell resistance of a Cartesian grid is finite where the sizes
    of the cell are positive and the conductivity is finite and not zero. *)
Lemma half_resistance_fin (a b c k : xq) :
  fin_pos a → fin_pos b → fin_pos c → (∃ q, k = Fin q ∧ q ≠ Q2Qc 0) →
  is_fin (fdiv (fdiv (fmul fhalf a) (fmul b c)) k) = true.
Proof.
  intros (qa & -> & _) Hb Hc (qk & -> & Hk).
  apply fin_pos_nonzero in Hb as (qb & -> & Hqb), Hc as (qc & -> & Hqc).
  change (fmul fhalf (Fin qa)) with (Fin (Q2Qc (1 # 2) * qa)%Qc).
  change (fmul (Fin qb) (Fin qc)) with (Fin (qb * qc)%Qc).
  change (@fdiv xq xq_num) with xq_div.
  rewrite xq_div_fin.
  2:{ intros E. apply Qcmult_integral in E as [E|E]; done. }
  by rewrite xq_div_fin.
Qed.

(** Next to an infinite half-cell resistance the conductance is zero. *)
Lemma conductance_next_to_inf (r : xq) :
  r = PInf ∨ is_fin r = true →
  fdiv f1 (fadd PInf r) = Fin (Q2Qc 0) ∧ fdiv f1 (fadd r PInf) = Fin (Q2Qc 0).
Proof. intros [->|Hr]; [done|]. destruct r; done. Qed.

Section InactiveCell.
Variable np_pi : xq.
Variable np_log : xq → xq.
Variables (gr : Grid xq) (kx ky kz : list xq) (ib : list Z).
Hypothesis Hax : axial gr = false.
Hypothesis Ldx : length (dx gr) = nx gr.
Hypothesis Ldy : length (dy gr) = ny gr.
Hypothesis LDZ : length (DZ gr) = gr_nod gr.
Hypothesis Pdx : Forall fin_pos (dx gr).
Hypothesis Pdy : Forall fin_pos (dy gr).
Hypothesis PDZ : Forall fin_pos (DZ gr).
Hypothesis Lkx : length kx = gr_nod gr.
Hypothesis Lky : length ky = gr_nod gr.
Hypothesis Lkz : length kz = gr_nod gr.
Hypothesis Pkx : Forall (λ a, ∃ q, a = Fin q ∧ q ≠ Q2Qc 0) kx.
Hypothesis Pky : Forall (λ a, ∃ q, a = Fin q ∧ q ≠ Q2Qc 0) ky.
Hypothesis Pkz : Forall (λ a, ∃ q, a = Fin q ∧ q ≠ Q2Qc 0) kz.
Hypothesis Lib : length ib = gr_nod gr.

Lemma Forall_at_ (P : xq → Prop) (l : list xq) i : Forall P l → i < length l → P (at_ l i).
Proof.
  intros Hl Hi. unfold at_. destruct (lookup_lt_is_Some_2 l i Hi) as [a Ha].
  rewrite Ha. simpl. rewrite Forall_forall in Hl. apply Hl. by eapply list_elem_of_lookup_2.
Qed.

(** Every half-cell resistance is finite or, in an inactive cell, +inf. *)
Lemma half_resistances_ok z y c :
  z < nz gr → y < ny gr → c < nx gr →
  let R := half_resistances np_pi np_log gr kx ky kz ((λ v, bool_decide (v = 0)%Z) <$> ib) in
  let n3 := cell (ny gr) (nx gr) in
  Forall (λ r, (ib !! idx3 (ny gr) (nx gr) z y c = Some 0%Z → r = PInf)
               ∧ (r = PInf ∨ is_fin r = true))
    [n3 (Rx1 R) z y c; n3 (Rx2 R) z y c; n3 (Ry1 R) z y c; n3 (Ry2 R) z y c;
     n3 (Rz1 R) z y c; n3 (Rz2 R) z y c].
Proof.
  intros Hz Hy Hc. cbv zeta.
  assert (idx3 (ny gr) (nx gr) z y c < gr_nod gr) as Hlt by by apply idx3_lt.
  destruct (lookup_lt_is_Some_2 ib (idx3 (ny gr) (nx gr) z y c) ltac:(lia)) as [v Hv].
  destruct (cartesian_half_resistances np_pi np_log gr kx ky kz
              ((λ v, bool_decide (v = 0)%Z) <$> ib) z y c (bool_decide (v = 0)%Z)
              Hax Hz Hy Hc) as (E1 & E2 & E3 & E4 & E5 & E6).
  { by rewrite list_lookup_fmap, Hv. }
  rewrite E1, E2, E3, E4, E5, E6. clear E1 E2 E3 E4 E5 E6.
  assert (fin_pos (at_ (dx gr) c)) as Px by (apply Forall_at_; [done|lia]).
  assert (fin_pos (at_ (dy gr) y)) as Py by (apply Forall_at_; [done|lia]).
  assert (fin_pos (cell (ny gr) (nx gr) (DZ gr) z y c)) as Pz
    by (unfold cell; apply Forall_at_; [done|lia]).
  assert (∃ q, cell (ny gr) (nx gr) kx z y c = Fin q ∧ q ≠ Q2Qc 0) as Qx
    by (unfold cell; apply (Forall_at_ (λ a, ∃ q, a = Fin q ∧ q ≠ Q2Qc 0)); [done|lia]).
  assert (∃ q, cell (ny gr) (nx gr) ky z y c = Fin q ∧ q ≠ Q2Qc 0) as Qy
    by (unfold cell; apply (Forall_at_ (λ a, ∃ q, a = Fin q ∧ q ≠ Q2Qc 0)); [done|lia]).
  assert (∃ q, cell (ny gr) (nx gr) kz z y c = Fin q ∧ q ≠ Q2Qc 0) as Qz
    by (unfold cell; apply (Forall_at_ (λ a, ∃ q, a = Fin q ∧ q ≠ Q2Qc 0)); [done|lia]).
  pose proof (half_resistance_fin _ _ _ _ Px Py Pz Qx) as Fx.
  pose proof (half_resistance_fin _ _ _ _ Py Pz Px Qy) as Fy.
  pose proof (half_resistance_fin _ _ _ _ Pz Px Py Qz) as Fz.
  destruct (bool_decide (v = 0)%Z) eqn:Eb.
  - repeat constructor; auto.
  - apply bool_decide_eq_false in Eb.
    repeat (apply Forall_cons; split;
              [split; [intros E; rewrite Hv in E; injection E as ->; done|by right]|]).
    apply Forall_nil_2.
Qed.

Let R := half_resistances np_pi np_log gr kx ky kz ((λ v, bool_decide (v = 0)%Z) <$> ib).

(** No conductance across a face of an inactive cell. *)
Lemma conductance_x_inactive z y c :
  z < nz gr → y < ny gr → c + 1 < nx gr →
  ib !! idx3 (ny gr) (nx gr) z y c = Some 0%Z
  ∨ ib !! idx3 (ny gr) (nx gr) z y (c + 1) = Some 0%Z →
  cell (ny gr) (nx gr - 1) (conductance_x gr R) z y c = Fin (Q2Qc 0).
Proof.
  intros Hz Hy Hc Hi. unfold conductance_x. rewrite cell_tab3 by lia.
  pose proof (half_resistances_ok z y c Hz Hy ltac:(lia)) as H0.
  pose proof (half_resistances_ok z y (c + 1) Hz Hy ltac:(lia)) as H1.
  cbv zeta in H0, H1. fold R in H0, H1.
  apply Forall_cons in H0 as [_ H0]. apply Forall_cons in H0 as [[I0 G0] _].
  apply Forall_cons in H1 as [[I1 G1] _].
  destruct Hi as [Hi|Hi].
  - rewrite (I0 Hi). by apply conductance_next_to_inf.
  - rewrite (I1 Hi). by apply conductance_next_to_inf.
Qed.

Lemma conductance_y_inactive z y c :
  z < nz gr → y + 1 < ny gr → c < nx gr →
  ib !! idx3 (ny gr) (nx gr) z y c = Some 0%Z
  ∨ ib !! idx3 (ny gr) (nx gr) z (y + 1) c = Some 0%Z →
  cell (ny gr - 1) (nx gr) (conductance_y gr R) z y c = Fin (Q2Qc 0).
Proof.
  intros Hz Hy Hc Hi. unfold conductance_y. rewrite cell_tab3 by lia.
  pose proof (half_resistances_ok z y c Hz ltac:(lia) Hc) as H0.
  pose proof (half_resistances_ok z (y + 1) c Hz Hy Hc) as H1.
  cbv zeta in H0, H1. fold R in H0, H1.
  do 3 apply Forall_cons in H0 as [_ H0]. apply Forall_cons in H0 as [[I0 G0] _].
  do 2 apply Forall_cons in H1 as [_ H1]. apply Forall_cons in H1 as [[I1 G1] _].
  destruct Hi as [Hi|Hi].
  - rewrite (I0 Hi). by apply conductance_next_to_inf.
  - rewrite (I1 Hi). by apply conductance_next_to_inf.
Qed.

Lemma conductance_z_inactive z y c :
  z + 1 < nz gr → y < ny gr → c < nx gr →
  ib !! idx3 (ny gr) (nx gr) z y c = Some 0%Z
  ∨ ib !! idx3 (ny gr) (nx gr) (z + 1) y c = Some 0%Z →
  cell (ny gr) (nx gr) (conductance_z gr R) z y c = Fin (Q2Qc 0).
Proof.
  intros Hz Hy Hc Hi. unfold conductance_z. rewrite cell_tab3 by lia.
  pose proof (half_resistances_ok z y c ltac:(lia) Hy Hc) as H0.
  pose proof (half_resistances_ok (z + 1) y c Hz Hy Hc) as H1.
  cbv zeta in H0, H1. fold R in H0, H1.
  do 5 apply Forall_cons in H0 as [_ H0]. apply Forall_cons in H0 as [[I0 G0] _].
  do 4 apply Forall_cons in H1 as [_ H1]. apply Forall_cons in H1 as [[I1 G1] _].
  destruct Hi as [Hi|Hi].
  - rewrite (I0 Hi). by apply conductance_next_to_inf.
  - rewrite (I1 Hi). by apply conductance_next_to_inf.
Qed.

(** All faces of an inactive cell have the conductance zero. *)
Lemma inactive_faces_zero z y x :
  z < nz gr → y < ny gr → x < nx gr →
  ib !! idx3 (ny gr) (nx gr) z y x = Some 0%Z →
  Forall (λ e, e_val e = Fin (Q2Qc 0))
    (faces gr (conductance_x gr R) (conductance_y gr R) (conductance_z gr R) z y x).
Proof.
  intros Hz Hy Hx Hi. unfold faces. rewrite !Forall_app.
  repeat split; case_decide; try apply Forall_nil_2; apply Forall_singleton;
    unfold e_val; simpl.
  - apply conductance_x_inactive; try lia. right. by replace (x - 1 + 1) with x by lia.
  - apply conductance_x_inactive; try lia. by left.
  - apply conductance_y_inactive; try lia. by left.
  - apply conductance_y_inactive; try lia. right. by replace (y - 1 + 1) with y by lia.
  - apply conductance_z_inactive; try lia. right. by replace (z - 1 + 1) with z by lia.
  - apply conductance_z_inactive; try lia. by left.
Qed.
End InactiveCell.

Lemma fsum_zeros (l : list xq) :
  Forall (λ a, a = Fin (Q2Qc 0)) l → fsum l = Fin (Q2Qc 0).
Proof.
  intros Hl. rewrite fsum_fin.
  - f_equal. induction Hl as [|a l -> _ IH]; [done|].
    rewrite fmap_cons, qsum_cons, IH. simpl. ring.
  - eapply Forall_impl; [exact Hl|]. by intros a ->.
Qed.

Lemma clamp_fin (a : xq) :
  is_fin a = true → ∃ q, clamp a = Fin q ∧ q ≠ Q2Qc 0.
Proof.
  intros Ha. destruct (clamp a) as [q| | |] eqn:E.
  - exists q. split; [done|]. by eapply clamped_nonzero.
  - unfold clamp in E. destruct (fltb a ftiny); [done|]. by subst.
  - unfold clamp in E. destruct (fltb a ftiny); [done|]. by subst.
  - unfold clamp in E. destruct (fltb a ftiny); [done|]. by subst.
Qed.

Lemma mask_scatter_elem {A} (v : list A) m xs a :
  a ∈ mask_scatter v m xs → a ∈ v ∨ a ∈ xs.
Proof.
  revert m xs. induction v as [|b v IH]; intros [|[] m] xs; simpl; try (by left).
  - destruct xs as [|x xs]; rewrite elem_of_cons; intros [->|H].
    + left. by left.
    + apply IH in H as [H|H]; [left; by right|by right].
    + right. by left.
    + apply IH in H as [H|H]; [left; by right|right; by right].
  - rewrite elem_of_cons. intros [->|H]; [left; by left|].
    apply IH in H as [H|H]; [left; by right|by right].
Qed.

(** The provisional head of a step is finite when the solver's answer is. *)
Lemma provisional_head_fin (m : list bool) (sol : list xq) n Pit j :
  mask_assign (replicate n f0) m sol = Ok Pit →
  Forall (λ a, is_fin a = true) sol → is_fin (at_ Pit j) = true.
Proof.
  intros H Hsol. unfold at_. destruct (Pit !! j) as [a|] eqn:Ha; [|done]. simpl.
  apply list_elem_of_lookup_2 in Ha. unfold mask_assign in H.
  rewrite Forall_forall in Hsol.
  destruct (decide (length sol = count_true m)).
  - injection H as <-. apply mask_scatter_elem in Ha as [Ha|Ha]; [|by apply Hsol].
    by apply elem_of_replicate in Ha as [-> _].
  - destruct sol as [|c [|]]; try done. injection H as <-.
    unfold mask_fill in Ha. apply elem_of_lookup_zip_with in Ha as (i & u & b & -> & Hu & _).
    destruct b; [apply Hsol; by left|].
    apply list_elem_of_lookup_2 in Hu. by apply elem_of_replicate in Hu as [-> _].
Qed.

Section InactiveFlows.
Variable np_pi : xq.
Variable np_log : xq → xq.
Variable spsolve : spmatrix xq → list xq → option (list xq).

(** No flow at inactive cells (lines 110-121, 138-143, 175-183; the
    docstring: "inactive cells have 0").  In exact arithmetic, on a
    Cartesian grid with positive cell sizes and the usual numbering, with
    finite conductivities and a solver whose answers are finite: in every
    step the net inflow [Q] of a cell with IBOUND = 0 is zero, and so is
    the flow across each of its faces. *)
Theorem no_flow_at_inactive_cells σ gr t kxyz Ss FQ HI IBOUND eps σ' out k akx aky akz
    n Qn Qxn Qyn Qzn z y x :
  (∀ M b sol, spsolve M b = Some sol → Forall (λ a, is_fin a = true) sol) →
  axial gr = false → standard_numbering gr →
  length (dx gr) = nx gr → length (dy gr) = ny gr → length (DZ gr) = gr_nod gr →
  Forall fin_pos (dx gr) → Forall fin_pos (dy gr) → Forall fin_pos (DZ gr) →
  fdm3t np_pi np_log spsolve σ gr t kxyz Ss FQ HI IBOUND eps = (σ', Ok out) →
  unpack_kxyz kxyz = Ok k →
  σ !! k.1.1 = Some akx → σ !! k.1.2 = Some aky → σ !! k.2 = Some akz →
  length (data akx) = gr_nod gr → length (data aky) = gr_nod gr →
  length (data akz) = gr_nod gr →
  Forall (λ a, is_fin a = true) (data akx) → Forall (λ a, is_fin a = true) (data aky) →
  Forall (λ a, is_fin a = true) (data akz) →
  Q out !! n = Some Qn → Qx out !! n = Some Qxn → Qy out !! n = Some Qyn →
  Qz out !! n = Some Qzn →
  z < nz gr → y < ny gr → x < nx gr →
  data IBOUND !! idx3 (ny gr) (nx gr) z y x = Some 0%Z →
  Qn !! idx3 (ny gr) (nx gr) z y x = Some (Fin (Q2Qc 0))
  ∧ (1 ≤ x → cell (ny gr) (nx gr - 1) Qxn z y (x - 1) = Fin (Q2Qc 0))
  ∧ (x + 1 < nx gr → cell (ny gr) (nx gr - 1) Qxn z y x = Fin (Q2Qc 0))
  ∧ (1 ≤ y → cell (ny gr - 1) (nx gr) Qyn z (y - 1) x = Fin (Q2Qc 0))
  ∧ (y + 1 < ny gr → cell (ny gr - 1) (nx gr) Qyn z y x = Fin (Q2Qc 0))
  ∧ (1 ≤ z → cell (ny gr) (nx gr) Qzn (z - 1) y x = Fin (Q2Qc 0))
  ∧ (z + 1 < nz gr → cell (ny gr) (nx gr) Qzn z y x = Fin (Q2Qc 0)).
Proof.
  intros Hsolver Hax Hstd Ldx Ldy LDZ Pdx Pdy PDZ H Hk Hkx Hky Hkz Lkx Lky Lkz Fkx Fky Fkz
    HQ HQx HQy HQz Hz Hy Hx Hi.
  destruct (fdm3t_step _ _ _ _ _ _ _ _ _ _ _ _ _ _ n Qn H HQ)
    as (k' & kx & ky & kz & ss & fq & s & dt & prev & o & Hkx' & Hky' & Hkz' & _ & _ & Hn & Hs
        & _ & _ & Lp & Hstep & _ & HQ' & _ & HQx' & HQy' & HQz' & Hk' & ->).
  assert (k' = k) as -> by congruence.
  assert (Qn = st_Q o) as -> by congruence. assert (Qxn = st_Qx o) as -> by congruence.
  assert (Qyn = st_Qy o) as -> by congruence. assert (Qzn = st_Qz o) as -> by congruence.
  clear HQ HQx HQy HQz HQ' HQx' HQy' HQz' H.
  (* the conductivities the solve has read are the clamped ones *)
  assert (∀ l a0 a, l ∈ [k.1.1; k.1.2; k.2] → σ !! l = Some a0 →
            clamp_store σ k !! l = Some a → length (data a0) = gr_nod gr →
            Forall (λ a, is_fin a = true) (data a0) →
            length (data a) = gr_nod gr
            ∧ Forall (λ a, ∃ q, a = Fin q ∧ q ≠ Q2Qc 0) (data a)) as Hclamped.
  { intros l a0 a Hl Ha0 Ha La0 Fa0. rewrite lookup_clamp_store, Ha0 in Ha.
    rewrite decide_True in Ha by (revert Hl; rewrite !elem_of_cons, elem_of_nil; tauto).
    injection Ha as <-. simpl. rewrite length_fmap. split; [done|].
    apply Forall_fmap. eapply Forall_impl; [exact Fa0|]. intros a Ha. by apply clamp_fin. }
  destruct (Hclamped k.1.1 _ _ ltac:(rewrite !elem_of_cons; tauto) Hkx Hkx' Lkx Fkx) as [Lx Px].
  destruct (Hclamped k.1.2 _ _ ltac:(rewrite !elem_of_cons; tauto) Hky Hky' Lky Fky) as [Ly Py].
  destruct (Hclamped k.2 _ _ ltac:(rewrite !elem_of_cons; tauto) Hkz Hkz' Lkz Fkz) as [Lz Pz].
  clear Hclamped.
  pose proof (inactive_faces_zero np_pi np_log gr (data kx) (data ky) (data kz) (data IBOUND)
                Hax Ldx Ldy LDZ Pdx Pdy PDZ Lx Ly Lz Px Py Pz Hn z y x Hz Hy Hx Hi) as Hfaces.
  pose proof (build_setup_inv _ _ _ _ _ _ _ _ _ _ Hs) as (Hgr & _ & Ha & Hin & Hf & _).
  assert (∃ A0, conductance_matrix gr (s_Cx s) (s_Cy s) (s_Cz s) = Ok A0
                ∧ s_A s = system_matrix A0
                ∧ s_Cx s = conductance_x gr (half_resistances np_pi np_log gr (data kx)
                     (data ky) (data kz) ((λ v, bool_decide (v = 0)%Z) <$> data IBOUND))
                ∧ s_Cy s = conductance_y gr (half_resistances np_pi np_log gr (data kx)
                     (data ky) (data kz) ((λ v, bool_decide (v = 0)%Z) <$> data IBOUND))
                ∧ s_Cz s = conductance_z gr (half_resistances np_pi np_log gr (data kx)
                     (data ky) (data kz) ((λ v, bool_decide (v = 0)%Z) <$> data IBOUND)))
    as (A0 & HA0 & HA & ECx & ECy & ECz).
  { unfold build_setup in Hs. apply bind_Ok in Hs as (A0 & HA0 & Hs). injection Hs as <-.
    by exists A0. }
  pose proof (build_setup_faces _ _ _ _ _ _ _ _ _ _ Hs) as (LCx & LCy & LCz).
  rewrite <- ECx, <- ECy, <- ECz in Hfaces.
  apply time_step_inv in Hstep as (RHS & sol & Pit & Pa & Pf & _ & Hsol & Hit & _ & _ & ->).
  simpl. rewrite Hgr, HA.
  assert (∀ j, is_fin (at_ Pit j) = true) as HPit.
  { intros j. eapply provisional_head_fin; [exact Hit|]. by eapply Hsolver. }
  pose proof (conductance_matrix_inv _ _ _ _ _ HA0) as (Hrows & _ & _).
  assert (idx3 (ny gr) (nx gr) z y x < sp_rows A0) as Hlt.
  { rewrite Hrows. by apply idx3_lt. }
  (* the faces, one by one *)
  unfold faces in Hfaces. rewrite !Forall_app in Hfaces.
  destruct Hfaces as (F1 & F2 & F3 & F4 & F5 & F6).
  assert (∀ a b, is_fin a = true → fmul a (Fin (Q2Qc 0)) = Fin (Q2Qc 0)
                 ∧ fmul (Fin (Q2Qc 0)) a = Fin (Q2Qc 0)
                 ∧ (is_fin b = true →
                    fmul (fopp (fsub a b)) (Fin (Q2Qc 0)) = Fin (Q2Qc 0)
                    ∧ fmul (fsub a b) (Fin (Q2Qc 0)) = Fin (Q2Qc 0))) as Hmul.
  { intros [a| | |] b Hfa; try done. split; [simpl; f_equal; ring|].
    split; [simpl; f_equal; ring|].
    intros Hfb. destruct b as [b| | |]; try done. split; simpl; f_equal; ring. }
  assert (∀ a b, fmul (fopp (fsub (at_ Pit a) (at_ Pit b))) (Fin (Q2Qc 0)) = Fin (Q2Qc 0))
    as Hm1 by (intros a b; by apply (Hmul (at_ Pit a) (at_ Pit b) (HPit a))).
  assert (∀ a b, fmul (fsub (at_ Pit a) (at_ Pit b)) (Fin (Q2Qc 0)) = Fin (Q2Qc 0))
    as Hm2 by (intros a b; by apply (Hmul (at_ Pit a) (at_ Pit b) (HPit a))).
  split; [|repeat split].
  - rewrite sp_dot_lookup, system_matrix_row by done.
    rewrite (conductance_matrix_row gr (s_Cx s) (s_Cy s) (s_Cz s) A0 z y x) by done.
    f_equal. apply fsum_zeros.
    assert (Forall (λ e, e_val e = Fin (Q2Qc 0))
              (faces gr (s_Cx s) (s_Cy s) (s_Cz s) z y x)) as Hall.
    { unfold faces. rewrite !Forall_app. done. }
    rewrite fmap_app. apply Forall_app. split.
    + rewrite <- list_fmap_compose. apply Forall_fmap.
      eapply Forall_impl; [exact Hall|]. intros [[r c] v] Hv. unfold e_val in Hv.
      simpl in Hv. subst v. unfold compose, e_val, e_col. simpl.
      destruct (at_ Pit c) as [p| | |] eqn:Ep; try (specialize (HPit c); by rewrite Ep in HPit).
      f_equal. ring.
    + simpl. apply Forall_singleton. unfold e_val at 1, e_col. simpl.
      rewrite fsum_zeros by (by apply Forall_fmap).
      by apply Hmul.
  - intros H1. rewrite decide_True in F1 by done. rewrite Forall_singleton in F1.
    unfold e_val in F1. simpl in F1.
    unfold face_flows_x. rewrite cell_tab3 by lia. rewrite F1.
    unfold cell. apply Hm1.
  - intros H1. rewrite decide_True in F2 by done. rewrite Forall_singleton in F2.
    unfold e_val in F2. simpl in F2.
    unfold face_flows_x. rewrite cell_tab3 by lia. rewrite F2.
    unfold cell. apply Hm1.
  - intros H1. rewrite decide_True in F4 by done. rewrite Forall_singleton in F4.
    unfold e_val in F4. simpl in F4.
    unfold face_flows_y. rewrite cell_tab3 by lia. rewrite F4.
    unfold cell. apply Hm2.
  - intros H1. rewrite decide_True in F3 by done. rewrite Forall_singleton in F3.
    unfold e_val in F3. simpl in F3.
    unfold face_flows_y. rewrite cell_tab3 by lia. rewrite F3.
    unfold cell. apply Hm2.
  - intros H1. rewrite decide_True in F5 by done. rewrite Forall_singleton in F5.
    unfold e_val in F5. simpl in F5.
    unfold face_flows_z. rewrite cell_tab3 by lia. rewrite F5.
    unfold cell. apply Hm2.
  - intros H1. rewrite decide_True in F6 by done. rewrite Forall_singleton in F6.
    unfold e_val in F6. simpl in F6.
    unfold face_flows_z. rewrite cell_tab3 by lia. rewrite F6.
    unfold cell. apply Hm2.
Qed.
End InactiveFlows.

Lemma run4i_returns : run4i = (store4, Ok out4i).
Proof. vm_compute. reflexivity. Qed.

Lemma exact_solve_finite M b sol :
  exact_solve M b = Some sol → Forall (λ a, is_fin a = true) sol.
Proof. intros H. by apply exact_solve_exact in H as (_ & ? & _). Qed.

Lemma fin_pos_qn1 : fin_pos (qn 1).
Proof. exists (Q2Qc (inject_Z 1)). split; reflexivity. Qed.

Lemma no_flow_at_inactive_cells_witness :
  (Q out4i !!! 0) !! 3 = Some (Fin (Q2Qc 0))
  ∧ cell 2 1 (Qx out4i !!! 0) 0 1 0 = Fin (Q2Qc 0)
  ∧ cell 1 2 (Qy out4i !!! 0) 0 0 1 = Fin (Q2Qc 0).
Proof.
  pose proof (no_flow_at_inactive_cells (Fin (qfrac 355 113)) (λ _, NaN) exact_solve
    store4 gr4 [qn 0; qn 1] (KArray l_K) l_Ss l_FQ l_HI IBOUND4i (qn 1) store4 out4i
    (l_K, l_K, l_K) (arr4 [qn 1; qn 1; qn 1; qn 1]) (arr4 [qn 1; qn 1; qn 1; qn 1])
    (arr4 [qn 1; qn 1; qn 1; qn 1])
    0 (Q out4i !!! 0) (Qx out4i !!! 0) (Qy out4i !!! 0) (Qz out4i !!! 0) 0 1 1
    exact_solve_finite eq_refl eq_refl eq_refl eq_refl eq_refl) as H.
  destruct H as (H1 & H2 & _ & H3 & _).
  - repeat constructor; apply fin_pos_qn1.
  - repeat constructor; apply fin_pos_qn1.
  - repeat constructor; apply fin_pos_qn1.
  - exact run4i_returns.
  - reflexivity.
  - reflexivity.
  - reflexivity.
  - reflexivity.
  - reflexivity.
  - reflexivity.
  - reflexivity.
  - repeat constructor.
  - repeat constructor.
  - repeat constructor.
  - vm_compute. reflexivity.
  - vm_compute. reflexivity.
  - vm_compute. reflexivity.
  - vm_compute. reflexivity.
  - simpl. lia.
  - simpl. lia.
  - simpl. lia.
  - reflexivity.
  - split; [exact H1|]. split; [apply H2; lia|apply H3; lia].
Defined.

(** * The methods of the class *)

Section MethodFacts.
Context {F : Type} {HN : Num F}.

Lemma length_cumsum_from (acc : list F) rows : length (cumsum_from acc rows) = length rows.
Proof. revert acc. induction rows as [|r rows IH]; intros acc; simpl; [done|]. by rewrite IH. Qed.

Lemma cumsum_from_lookup (acc : list F) rows k r :
  rows !! S k = Some r →
  ∃ p, cumsum_from acc rows !! k = Some p
       ∧ cumsum_from acc rows !! S k = Some (zip_with fadd p r).
Proof.
  revert acc k. induction rows as [|r0 rows IH]; intros acc k Hr; [done|].
  simpl in Hr. simpl. destruct k as [|k].
  - destruct rows as [|r1 rows]; [done|]. simpl in Hr. injection Hr as ->.
    eexists. split; [done|]. done.
  - apply (IH (zip_with fadd acc r0)) in Hr as (p & H1 & H2). by exists p.
Qed.

(** [np.cumsum] along the first axis: the first row is kept, every other
    row is the row before it in the result plus the row of the argument. *)
Lemma np_cumsum_lookup (rows : list (list F)) :
  length (np_cumsum rows) = length rows
  ∧ np_cumsum rows !! 0 = rows !! 0
  ∧ ∀ k r, rows !! S k = Some r →
      ∃ p, np_cumsum rows !! k = Some p ∧ np_cumsum rows !! S k = Some (zip_with fadd p r).
Proof.
  destruct rows as [|r0 rows]; [done|]. simpl. rewrite length_cumsum_from.
  split; [done|]. split; [done|]. intros k r Hr. destruct k as [|k].
  - destruct rows as [|r1 rows]; [done|]. simpl in Hr. injection Hr as ->.
    eexists. split; [done|]. done.
  - apply (cumsum_from_lookup r0) in Hr as (p & H1 & H2). by exists p.
Qed.

(** The stream function: the rows of [Qx] summed from the last row
    upwards, over a row of zeros. *)
Lemma stream_rows (rows : list (list F)) (z : list F) :
  let psi := reverse (np_cumsum (reverse (rows ++ [z]))) in
  length psi = length rows + 1
  ∧ psi !! length rows = Some z
  ∧ ∀ i r, rows !! i = Some r →
      ∃ p, psi !! S i = Some p ∧ psi !! i = Some (zip_with fadd p r).
Proof.
  cbv zeta.
  destruct (np_cumsum_lookup (reverse (rows ++ [z]))) as (Hlen & H0 & Hk).
  rewrite length_reverse, length_app in Hlen. simpl in Hlen.
  split; [by rewrite length_reverse|]. split.
  - rewrite reverse_lookup by lia. rewrite Hlen.
    replace (length rows + 1 - S (length rows)) with 0 by lia.
    rewrite H0, reverse_lookup by (rewrite length_app; simpl; lia).
    rewrite length_app. simpl.
    replace (length rows + 1 - 1) with (length rows) by lia.
    by rewrite lookup_app_r, Nat.sub_diag by lia.
  - intros i r Hr. pose proof (lookup_lt_Some _ _ _ Hr) as Hi.
    destruct (Hk (length rows - S i) r) as (p & Hp1 & Hp2).
    { rewrite reverse_lookup by (rewrite length_app; simpl; lia).
      rewrite length_app. simpl.
      replace (length rows + 1 - S (S (length rows - S i))) with i by lia.
      by rewrite lookup_app_l by lia. }
    exists p. rewrite !reverse_lookup by lia. rewrite Hlen.
    replace (length rows + 1 - S (S i)) with (length rows - S i) by lia.
    replace (length rows + 1 - S i) with (S (length rows - S i)) by lia.
    done.
Qed.
End MethodFacts.

Lemma fmap_const_replicate {A B} (b : B) (l : list A) :
  (λ _, b) <$> l = replicate (length l) b.
Proof. induction l as [|a l IH]; [done|]. simpl. by rewrite <- IH. Qed.

Section MethodTheorems.
Context {F : Type} {HN : Num F}.
Variable np_pi : F.
Variable np_log : F → F.
Variable spsolve : spmatrix F → list F → option (list F).

(** What the stream function is (lines 373-378).  When [get_psi] returns,
    it has stored what it returns in [self.psi] and changed nothing else;
    for a grid of [nz] >= 1 layers the result has [nz] + 1 rows of
    [nx] - 1 values, its last row is zero, and every other row is the row
    below it plus the flow [Qx] of the last time step in that layer, in
    the first row of the grid (y = 0):
    psi[z, c] = psi[z + 1, c] + Qx[-1][z, 0, c]. *)
Theorem get_psi_stream_function (self self' : Fdm3t_object F) psi :
  get_psi self = (self', Returns psi) → nz (self_gr (obj_init self)) ≠ 0 →
  let gr := self_gr (obj_init self) in
  ∃ Qx_last,
    last (Qx (self_out (obj_init self))) = Some Qx_last
    ∧ self' = {| obj_init := obj_init self; obj_points := obj_points self;
                 obj_psi := Some psi |}
    ∧ length psi = nz gr + 1
    ∧ Forall (λ r, length r = nx gr - 1) psi
    ∧ psi !! nz gr = Some (replicate (nx gr - 1) f0)
    ∧ ∀ z c, z < nz gr → c < nx gr - 1 →
        (psi !!! z) !! c
        = Some (fadd (at_ (psi !!! (z + 1)) c) (cell (ny gr) (nx gr - 1) Qx_last z 0 c)).
Proof.
  unfold get_psi. intros H Hnz. cbv zeta.
  destruct (last (Qx (self_out (obj_init self)))) as [Qx_last|]; [|by injection H].
  destruct (decide (ny (self_gr (obj_init self)) = 0)); [by injection H|].
  injection H as <- <-. exists Qx_last. split; [done|]. split; [done|].
  set (gr := self_gr (obj_init self)) in *.
  set (rows := (λ z, (λ c, cell (ny gr) (nx gr - 1) Qx_last z 0 c) <$> seq 0 (nx gr - 1))
                 <$> seq 0 (nz gr)).
  assert (length rows = nz gr) as Lrows by (unfold rows; by rewrite length_fmap, length_seq).
  assert (∀ z, z < nz gr →
            rows !! z = Some ((λ c, cell (ny gr) (nx gr - 1) Qx_last z 0 c)
                                <$> seq 0 (nx gr - 1))) as Hrow.
  { intros z Hz. unfold rows. by rewrite list_lookup_fmap, lookup_seq_lt. }
  assert ((λ r : list F, (λ _, f0) <$> r) <$> drop (length rows - 1) rows
          = [replicate (nx gr - 1) f0]) as ->.
  { rewrite Lrows. rewrite (drop_S rows _ (nz gr - 1) (Hrow (nz gr - 1) ltac:(lia))).
    replace (S (nz gr - 1)) with (length rows) by lia. rewrite drop_all. simpl. f_equal.
    by rewrite fmap_const_replicate, length_fmap, length_seq. }
  destruct (stream_rows rows (replicate (nx gr - 1) f0)) as (Hlen & Hz0 & Hrec).
  cbv zeta in Hlen, Hz0, Hrec. rewrite Lrows in Hlen, Hz0.
  set (psi := reverse (np_cumsum (reverse (rows ++ [replicate (nx gr - 1) f0])))) in *.
  (* every row has nx - 1 values *)
  assert (∀ k, k ≤ nz gr → ∃ r, psi !! (nz gr - k) = Some r ∧ length r = nx gr - 1) as Hall.
  { intros k. induction k as [|k IH]; intros Hk.
    - rewrite Nat.sub_0_r, Hz0. eexists. split; [done|]. by rewrite length_replicate.
    - destruct (IH ltac:(lia)) as (p & Hp & Lp).
      destruct (Hrec (nz gr - S k) _ (Hrow (nz gr - S k) ltac:(lia))) as (p' & Hp' & Hq).
      replace (S (nz gr - S k)) with (nz gr - k) in Hp' by lia.
      assert (p' = p) as -> by congruence.
      eexists. split; [exact Hq|]. rewrite length_zip_with, length_fmap, length_seq. lia. }
  split; [done|]. split.
  { apply Forall_forall. intros r Hr. apply list_elem_of_lookup in Hr as [i Hi].
    pose proof (lookup_lt_Some _ _ _ Hi) as Hlt.
    destruct (Hall (nz gr - i) ltac:(lia)) as (r' & Hr' & Lr').
    replace (nz gr - (nz gr - i)) with i in Hr' by lia. congruence. }
  split; [done|].
  intros z c Hz Hc.
  destruct (Hrec z _ (Hrow z Hz)) as (p & Hp & Hq).
  rewrite (list_lookup_total_correct _ _ _ Hq).
  replace (z + 1) with (S z) by lia. rewrite (list_lookup_total_correct _ _ _ Hp).
  destruct (Hall (nz gr - S z) ltac:(lia)) as (p' & Hp' & Lp').
  replace (nz gr - (nz gr - S z)) with (S z) in Hp' by lia.
  assert (p' = p) as -> by congruence.
  rewrite lookup_zip_with, list_lookup_fmap, lookup_seq_lt by done. simpl.
  unfold at_. destruct (lookup_lt_is_Some_2 p c ltac:(lia)) as [a ->]. done.
Qed.

(** [get_psi] needs a time step (line 373): on the object the
    constructor has made it raises IndexError when the time vector had a
    single point, leaving the object as it was, and returns otherwise. *)
Theorem get_psi_needs_a_step σ gr t kxyz Ss FQ HI IBOUND eps σ' self :
  Fdm3t__init__ np_pi np_log spsolve σ gr t kxyz Ss FQ HI IBOUND eps = (σ', Ok self) →
  (length t = 1 →
     get_psi (new_object self)
     = (new_object self,
        RaisesIndexError "index -1 is out of bounds for axis 0 with size 0"))
  ∧ (1 < length t →
     ∃ psi, get_psi (new_object self)
            = ({| obj_init := self; obj_points := None; obj_psi := Some psi |}, Returns psi)).
Proof.
  unfold Fdm3t__init__.
  destruct (class_asserts σ gr kxyz Ss FQ IBOUND) as [K|e]; [|done].
  intros [= <- H]. apply bind_Ok in H as (out & Hout & H). injection H as <-.
  destruct (fdm3t np_pi np_log spsolve σ gr t _ Ss FQ HI IBOUND f1) as [σ'' r] eqn:Hf.
  simpl in Hout. subst r.
  pose proof (fdm3t_flow_lengths _ _ _ _ _ _ _ _ _ _ _ _ _ _ Hf) as (HPhi & _ & HQx & _).
  pose proof Hf as Hf2. apply fdm3t_slices in Hf2 as (_ & _ & _ & _ & _ & Hlen & _).
  apply fdm3t_inv in Hf as (k & _ & _ & Hs).
  apply solve_inv in Hs as (_ & _ & _ & _ & _ & _ & _ & _ & _ & _ & _ & _ & _ & _ & _
    & _ & _ & Hny & _).
  unfold get_psi, new_object. simpl. split.
  - intros Ht. destruct (Qx out) as [|a l]; [done|]. simpl in *. lia.
  - intros Ht. destruct (last (Qx out)) as [Qx_last|] eqn:El.
    + rewrite decide_False by done. eauto.
    + apply last_None in El. rewrite El in HQx. simpl in *. lia.
Qed.
End MethodTheorems.

Section PointFacts.
Context {F : Type}.

Lemma column_Returns i (pts : list (list (pyval F))) :
  Forall (λ p, i < length p) pts →
  ∃ vs, column i pts = Returns vs ∧ length vs = length pts
        ∧ ∀ n p, pts !! n = Some p → vs !! n = p !! i.
Proof.
  induction 1 as [|p ps Hp _ (vs & Hvs & Lvs & Hn)]; [by exists []|].
  destruct (lookup_lt_is_Some_2 p i Hp) as [v Hv].
  exists (v :: vs). simpl. rewrite Hv, Hvs. split; [done|]. split; [by rewrite Lvs|].
  intros [|n] q Hq; simpl in *; [by injection Hq as <-|by apply Hn].
Qed.

Lemma column_IndexError i (pts : list (list (pyval F))) :
  Exists (λ p, length p ≤ i) pts → ∃ msg, column i pts = RaisesIndexError msg.
Proof.
  induction pts as [|p ps IH]; intros H; [by apply Exists_nil in H|].
  simpl. destruct (p !! i) as [v|] eqn:Hv; [|eauto].
  apply Exists_cons in H as [H|H].
  - apply lookup_lt_Some in Hv. lia.
  - destruct (IH H) as [msg ->]. eauto.
Qed.

(** The observation points (lines 287-295).  [obsNames], [r_ow] and
    [z_ow] read [self.points], which the constructor does not set: on a
    new object they raise AttributeError.  Once the points are there, they
    are the first, second and third components of the points, in the order
    of the points; a point that is too short makes the property that asks
    for the missing component raise IndexError. *)
Theorem observation_point_columns (self : Fdm3t_object F) :
  (obj_points self = None →
     obsNames self = Raises (AttributeError "'Fdm3t' object has no attribute 'points'")
     ∧ r_ow self = Raises (AttributeError "'Fdm3t' object has no attribute 'points'")
     ∧ z_ow self = Raises (AttributeError "'Fdm3t' object has no attribute 'points'"))
  ∧ (∀ pts, obj_points self = Some pts → Forall (λ p, 3 ≤ length p) pts →
       ∃ ns rs zs,
         obsNames self = Returns ns ∧ r_ow self = Returns rs ∧ z_ow self = Returns zs
         ∧ length ns = length pts ∧ length rs = length pts ∧ length zs = length pts
         ∧ ∀ n p, pts !! n = Some p →
             ns !! n = p !! 0 ∧ rs !! n = p !! 1 ∧ zs !! n = p !! 2)
  ∧ (∀ pts i, obj_points self = Some pts → Exists (λ p, length p ≤ i) pts →
       ∃ msg, point_column i self = RaisesIndexError msg).
Proof.
  unfold obsNames, r_ow, z_ow, point_column. split; [|split].
  - by intros ->.
  - intros pts -> Hpts.
    destruct (column_Returns 0 pts) as (ns & -> & Ln & Hn).
    { eapply Forall_impl; [exact Hpts|]. simpl. lia. }
    destruct (column_Returns 1 pts) as (rs & -> & Lr & Hr).
    { eapply Forall_impl; [exact Hpts|]. simpl. lia. }
    destruct (column_Returns 2 pts) as (zs & -> & Lz & Hz).
    { eapply Forall_impl; [exact Hpts|]. simpl. lia. }
    exists ns, rs, zs. repeat split; try done; eauto.
  - intros pts i -> H. by apply column_IndexError.
Qed.
End PointFacts.

Lemma get_psi_stream_function_witness :
  length psi3 = 2 ∧ psi3 !! 1 = Some [0; 0]%float
  ∧ (psi3 !!! 0) !! 0 = Some (0 + (-2.25))%float.
Proof.
  destruct (get_psi_stream_function object3
              {| obj_init := self3; obj_points := None; obj_psi := Some psi3 |} psi3)
    as (Qx_last & Hlast & _ & Hlen & _ & Hz & Hrec).
  - vm_compute. reflexivity.
  - simpl. lia.
  - injection Hlast as <-. split; [exact Hlen|]. split; [exact Hz|].
    exact (Hrec 0 0 ltac:(simpl; lia) ltac:(simpl; lia)).
Defined.

Lemma get_psi_needs_a_step_witness :
  ∃ psi, get_psi object3
         = ({| obj_init := self3; obj_points := None; obj_psi := Some psi |}, Returns psi).
Proof.
  pose proof (get_psi_needs_a_step pi64 log_unused dense_solve store3 gr3 [0; 1; 2]%float
                (KArray l_K) l_Ss l_FQ l_HI IBOUND3 1%float store3' self3) as H.
  destruct H as [_ H]; [vm_compute; reflexivity|].
  apply H. simpl. lia.
Defined.

Lemma observation_point_columns_witness :
  obsNames object3 = Raises (AttributeError "'Fdm3t' object has no attribute 'points'").
Proof.
  apply (proj1 (observation_point_columns object3)). reflexivity.
Defined.

(** * The axial mode *)

Lemma tab3_const {A} nz ny nx (f : nat → nat → nat → A) a :
  (∀ z y x, z < nz → y < ny → x < nx → f z y x = a) →
  tab3 nz ny nx f = replicate (nz * ny * nx) a.
Proof.
  intros Hf. apply list_eq. intros k. unfold tab3. rewrite list_lookup_fmap.
  destruct (decide (k < nz * ny * nx)) as [Hk|Hk].
  - rewrite lookup_seq_lt by done. simpl.
    destruct (unravel_range nz ny nx k Hk) as (Hz & Hy & Hx & _).
    rewrite Hf by done. symmetry. by apply lookup_replicate_2.
  - rewrite lookup_seq_ge by lia. simpl. symmetry. apply lookup_ge_None.
    rewrite length_replicate. lia.
Qed.

Section AxialMode.
Variable np_pi : float.
Variable np_log : float → float.

(** In axial mode the y-values are ignored (lines 66-67, 106, 120): the
    resistances do not depend on [ky], and, in binary64, every conductance
    between two rows is 1/(inf + inf) = 0, so that rows exchange no
    water. *)
Theorem axial_mode_ignores_y (gr : Grid float) kx ky kz inact :
  axial gr = true → length inact = gr_nod gr →
  (∀ ky', half_resistances np_pi np_log gr kx ky' kz inact
          = half_resistances np_pi np_log gr kx ky kz inact)
  ∧ conductance_y gr (half_resistances np_pi np_log gr kx ky kz inact)
    = replicate (nz gr * (ny gr - 1) * nx gr) 0%float.
Proof.
  intros Hax Hlen. split.
  - intros ky'. unfold half_resistances. by rewrite Hax.
  - unfold conductance_y. apply tab3_const. intros z y x Hz Hy Hx.
    unfold half_resistances. rewrite Hax. simpl.
    assert (∀ y', y' < ny gr →
              cell (ny gr) (nx gr)
                (mask_fill (tab3 (nz gr) (ny gr) (nx gr) (λ _ _ _, (infinity * 1)%float))
                   inact infinity) z y' x = infinity) as Hinf.
    { intros y' Hy'. unfold cell, at_.
      assert (idx3 (ny gr) (nx gr) z y' x < nz gr * ny gr * nx gr) as Hlt by by apply idx3_lt.
      destruct (lookup_lt_is_Some_2 inact (idx3 (ny gr) (nx gr) z y' x)
                  ltac:(unfold gr_nod in Hlen; lia)) as [[|] Hb].
      - rewrite lookup_mask_fill_true; [done|done|by rewrite length_tab3].
      - rewrite lookup_mask_fill_false by done. by rewrite lookup_tab3. }
    rewrite !Hinf by lia. reflexivity.
Qed.
End AxialMode.

Lemma axial_mode_ignores_y_witness :
  conductance_y gr_axial_rows
    (half_resistances pi64 ln_series gr_axial_rows [1; 1; 1; 1]%float [5; 5; 5; 5]%float
       [1; 1; 1; 1]%float [false; false; false; false])
  = [0; 0]%float.
Proof.
  exact (proj2 (axial_mode_ignores_y pi64 ln_series gr_axial_rows [1; 1; 1; 1]%float
                  [5; 5; 5; 5]%float [1; 1; 1; 1]%float [false; false; false; false]
                  eq_refl eq_refl)).
Defined.

(** * The symmetry of the system matrix *)

Section Symmetry.
Context {F : Type} {HN : Num F}.

(** A face seen from the cell on its other side has the same conductance. *)
Lemma faces_reverse (gr : Grid F) Cx Cy Cz z y x z' y' x' v :
  z < nz gr → y < ny gr → x < nx gr → z' < nz gr → y' < ny gr → x' < nx gr →
  (idx3 (ny gr) (nx gr) z y x, idx3 (ny gr) (nx gr) z' y' x', v) ∈ faces gr Cx Cy Cz z y x →
  (idx3 (ny gr) (nx gr) z' y' x', idx3 (ny gr) (nx gr) z y x, v) ∈ faces gr Cx Cy Cz z' y' x'.
Proof.
  intros Hz Hy Hx Hz' Hy' Hx' H. unfold faces in H. rewrite !elem_of_app in H.
  unfold faces. rewrite !elem_of_app.
  destruct H as [H|[H|[H|[H|[H|H]]]]]; case_decide; try (by apply elem_of_nil in H);
    apply list_elem_of_singleton in H; injection H as E ->;
    apply idx3_inj in E as (-> & -> & ->); try lia.
  - right. left. rewrite decide_True by lia. apply list_elem_of_singleton.
    by replace (x - 1 + 1) with x by lia.
  - do 0 right. left. rewrite decide_True by lia. apply list_elem_of_singleton.
    by replace (x + 1 - 1) with x by lia.
  - do 3 right. left. rewrite decide_True by lia. apply list_elem_of_singleton.
    by replace (y + 1 - 1) with y by lia.
  - do 2 right. left. rewrite decide_True by lia. apply list_elem_of_singleton.
    by replace (y - 1 + 1) with y by lia.
  - do 5 right. rewrite decide_True by lia. apply list_elem_of_singleton.
    by replace (z - 1 + 1) with z by lia.
  - do 4 right. left. rewrite decide_True by lia. apply list_elem_of_singleton.
    by replace (z + 1 - 1) with z by lia.
Qed.

Lemma faces_rows (gr : Grid F) Cx Cy Cz z y x e :
  e ∈ faces gr Cx Cy Cz z y x → e_row e = idx3 (ny gr) (nx gr) z y x.
Proof.
  unfold faces. rewrite !elem_of_app.
  intros [H|[H|[H|[H|[H|H]]]]]; case_decide; try (by apply elem_of_nil in H);
    apply list_elem_of_singleton in H; by subst.
Qed.
End Symmetry.

Section Symmetry2.
Context {F : Type} {HN : Num F}.

Lemma off_diagonal_faces (gr : Grid F) Cx Cy Cz A0 z y x j :
  standard_numbering gr → conductance_matrix gr Cx Cy Cz = Ok A0 →
  length Cx = nz gr * ny gr * (nx gr - 1) →
  length Cy = nz gr * (ny gr - 1) * nx gr →
  length Cz = (nz gr - 1) * ny gr * nx gr →
  z < nz gr → y < ny gr → x < nx gr → j ≠ idx3 (ny gr) (nx gr) z y x →
  sp_get (system_matrix A0) (idx3 (ny gr) (nx gr) z y x) j
  = fsum (fopp <$> (e_val <$> filter (λ e, e_col e = j) (faces gr Cx Cy Cz z y x))).
Proof.
  intros Hs HA Lx Ly Lz Hz Hy Hx Hj.
  pose proof (conductance_matrix_inv _ _ _ _ _ HA) as (Hrows & _ & _).
  unfold sp_get. rewrite system_matrix_row by (rewrite Hrows; by apply idx3_lt).
  rewrite (conductance_matrix_row gr Cx Cy Cz A0 z y x) by done.
  rewrite filter_app, col_filter_fmap_val.
  rewrite filter_cons_False by (unfold e_col; simpl; congruence).
  rewrite filter_nil, app_nil_r. f_equal.
  rewrite <- !list_fmap_compose. done.
Qed.

(** The system matrix is symmetric (lines 138-143): with the cells
    numbered as [np.arange(nod).reshape(shape)], A[i, j] = A[j, i] for all
    cells, whatever the conductances are. *)
Theorem system_matrix_symmetric (gr : Grid F) Cx Cy Cz A0 i j :
  standard_numbering gr → conductance_matrix gr Cx Cy Cz = Ok A0 →
  length Cx = nz gr * ny gr * (nx gr - 1) →
  length Cy = nz gr * (ny gr - 1) * nx gr →
  length Cz = (nz gr - 1) * ny gr * nx gr →
  i < gr_nod gr → j < gr_nod gr →
  sp_get (system_matrix A0) i j = sp_get (system_matrix A0) j i.
Proof.
  intros Hs HA Lx Ly Lz Hi Hj.
  destruct (decide (i = j)) as [->|Hij]; [done|].
  destruct (unravel_range _ _ _ i Hi) as (Hz & Hy & Hx & Ei).
  destruct (unravel_range _ _ _ j Hj) as (Hz' & Hy' & Hx' & Ej).
  revert Hz Hy Hx Ei Hz' Hy' Hx' Ej.
  generalize (i / (ny gr * nx gr)) (i / nx gr mod ny gr) (i mod nx gr)
    (j / (ny gr * nx gr)) (j / nx gr mod ny gr) (j mod nx gr).
  intros z y x z' y' x' Hz Hy Hx Ei Hz' Hy' Hx' Ej. subst i j.
  rewrite !(off_diagonal_faces gr Cx Cy Cz A0) by (done || congruence).
  f_equal. f_equal.
  pose proof (faces_cols gr Cx Cy Cz z y x Hz Hy Hx) as [Hnd _].
  pose proof (faces_cols gr Cx Cy Cz z' y' x' Hz' Hy' Hx') as [Hnd' _].
  assert (∀ a b c a' b' c' e, a < nz gr → b < ny gr → c < nx gr →
            a' < nz gr → b' < ny gr → c' < nx gr →
            e ∈ faces gr Cx Cy Cz a b c → e_col e = idx3 (ny gr) (nx gr) a' b' c' →
            (idx3 (ny gr) (nx gr) a' b' c', idx3 (ny gr) (nx gr) a b c, e_val e)
              ∈ faces gr Cx Cy Cz a' b' c') as Hrev.
  { intros a b c a' b' c' [[r cl] v] ? ? ? ? ? ? He Hc.
    pose proof (faces_rows _ _ _ _ _ _ _ _ He) as Hr. unfold e_row, e_col, e_val in *.
    simpl in *. subst r cl. by apply faces_reverse. }
  destruct (decide (idx3 (ny gr) (nx gr) z' y' x' ∈ e_col <$> faces gr Cx Cy Cz z y x))
    as [Hin|Hnot].
  - apply list_elem_of_fmap in Hin as (e & Hc & He). symmetry in Hc.
    pose proof (Hrev _ _ _ _ _ _ e Hz Hy Hx Hz' Hy' Hx' He Hc) as He'.
    pose proof (col_filter_NoDup _ e Hnd He) as Hf. rewrite Hc in Hf.
    assert (filter (λ e', e_col e' = idx3 (ny gr) (nx gr) z y x) (faces gr Cx Cy Cz z' y' x')
            = [(idx3 (ny gr) (nx gr) z' y' x', idx3 (ny gr) (nx gr) z y x, e_val e)]) as Hf'
      by exact (col_filter_NoDup _ _ Hnd' He').
    by rewrite Hf, Hf'.
  - rewrite (col_filter_notin _ _ Hnot). rewrite col_filter_notin; [done|].
    intros Hin. apply list_elem_of_fmap in Hin as (e & Hc & He). symmetry in Hc.
    pose proof (Hrev _ _ _ _ _ _ e Hz' Hy' Hx' Hz Hy Hx He Hc) as He'.
    apply Hnot. apply list_elem_of_fmap.
    exists (idx3 (ny gr) (nx gr) z y x, idx3 (ny gr) (nx gr) z' y' x', e_val e).
    split; [done|exact He'].
Qed.
End Symmetry2.

Lemma system_matrix_symmetric_witness :
  sp_get (system_matrix A4) 0 1 = sp_get (system_matrix A4) 1 0.
Proof.
  apply (system_matrix_symmetric gr4 Cx4 Cy4 [] A4 0 1); try reflexivity.
  - unfold gr_nod. simpl. lia.
  - unfold gr_nod. simpl. lia.
Defined.

(** * The water balance of the whole model *)

Lemma qsum_pick (a : Qc) (f : nat → Qc) r s n :
  s ≤ r < s + n →
  qsum ((λ i, if decide (r = i) then (a + f i)%Qc else f i) <$> seq s n)
  = (a + qsum (f <$> seq s n))%Qc.
Proof.
  revert s. induction n as [|n IH]; intros s Hr; [lia|].
  change (seq s (S n)) with (s :: seq (S s) n). rewrite !fmap_cons, !qsum_cons.
  destruct (decide (r = s)) as [->|Hne].
  - assert (∀ l, Forall (λ i, s < i) l →
              (λ i, if decide (s = i) then (a + f i)%Qc else f i) <$> l = f <$> l) as Hl.
    { intros l Hl. apply Forall_fmap_ext. eapply Forall_impl; [exact Hl|].
      intros i Hi. simpl in *. rewrite decide_False by lia. done. }
    rewrite Hl; [ring|]. apply Forall_forall. intros i Hi. apply elem_of_seq in Hi. lia.
  - rewrite IH by lia. ring.
Qed.

(** A sum over all entries, taken row by row. *)
Lemma qsum_by_rows (G : nat * nat * xq → Qc) (es : list (nat * nat * xq)) n :
  Forall (λ e, e_row e < n) es →
  qsum ((λ i, qsum (G <$> row_entries i es)) <$> seq 0 n) = qsum (G <$> es).
Proof.
  induction 1 as [|e es He _ IH].
  - induction (seq 0 n) as [|i l IHl]; [done|].
    rewrite fmap_cons, qsum_cons, IHl. simpl. ring.
  - rewrite fmap_cons, qsum_cons, <- IH.
    rewrite <- (qsum_pick (G e) (λ i, qsum (G <$> row_entries i es)) (e_row e) 0 n) by lia.
    f_equal. apply list_fmap_ext. intros _ i _. unfold row_entries.
    rewrite filter_cons. destruct (decide (e_row e = i)); by rewrite ?fmap_cons, ?qsum_cons.
Qed.

Lemma qsum_cancel {A} (g h : A → Qc) (l : list A) :
  (∀ a, (g a + h a = Q2Qc 0)%Qc) → (qsum (g <$> l) + qsum (h <$> l) = Q2Qc 0)%Qc.
Proof.
  intros Hgh. induction l as [|a l IH]; [simpl; ring|].
  rewrite !fmap_cons, !qsum_cons.
  transitivity ((g a + h a) + (qsum (g <$> l) + qsum (h <$> l)))%Qc; [ring|].
  rewrite Hgh, IH. ring.
Qed.

Section Balance.
Context (gr : Grid xq) (Cx Cy Cz : list xq) (A0 : spmatrix xq).
Hypothesis HA : conductance_matrix gr Cx Cy Cz = Ok A0.
Hypothesis Lx : length Cx = nz gr * ny gr * (nx gr - 1).
Hypothesis Ly : length Cy = nz gr * (ny gr - 1) * nx gr.
Hypothesis Lz : length Cz = (nz gr - 1) * ny gr * nx gr.

(** Every conductance stands in the matrix twice, once for each of the two
    cells of its face: summed over all entries, conductance times head
    drop cancels. *)
Lemma conductance_entries_cancel (φ : nat → Qc) :
  qsum ((λ e, fin_val (e_val e) * (φ (e_row e) - φ (e_col e)))%Qc <$> sp_entries A0)
  = Q2Qc 0.
Proof.
  pose proof (conductance_matrix_inv _ _ _ _ _ HA) as (_ & _ & ->).
  rewrite conductance_blocks by done. unfold tab3.
  rewrite !fmap_app, !qsum_app, <- !list_fmap_compose.
  match goal with
  | |- (?a1 + (?a2 + (?a3 + (?a4 + (?a5 + ?a6)))))%Qc = _ =>
      assert (a1 + a2 = Q2Qc 0)%Qc as E1
        by (apply qsum_cancel; intros k; unfold compose, e_val, e_row, e_col; simpl; ring);
      assert (a3 + a4 = Q2Qc 0)%Qc as E2
        by (apply qsum_cancel; intros k; unfold compose, e_val, e_row, e_col; simpl; ring);
      assert (a5 + a6 = Q2Qc 0)%Qc as E3
        by (apply qsum_cancel; intros k; unfold compose, e_val, e_row, e_col; simpl; ring);
      transitivity ((a1 + a2) + ((a3 + a4) + (a5 + a6)))%Qc; [ring|]
  end.
  rewrite E1, E2, E3. ring.
Qed.

Lemma conductance_entries_rows : Forall (λ e, e_row e < gr_nod gr) (sp_entries A0).
Proof.
  unfold conductance_matrix, csc_matrix in HA.
  destruct (forallb _ _ && _) eqn:E; [|done]. injection HA as <-. simpl.
  apply andb_true_iff in E as [E _]. rewrite forallb_forall in E.
  apply Forall_forall. intros [[r c] v] He. unfold e_row. simpl.
  apply elem_of_zip_l, elem_of_zip_l in He.
  apply Nat.ltb_lt. apply E. by apply list_elem_of_In.
Qed.

(** The net inflows of all cells add up to zero, when they are finite. *)
Lemma total_net_flow (Φ : list xq) :
  Forall (λ q, is_fin q = true) (sp_dot (system_matrix A0) Φ) →
  fsum (sp_dot (system_matrix A0) Φ) = Fin (Q2Qc 0).
Proof.
  intros HQ. rewrite fsum_fin by done. f_equal.
  pose proof (conductance_matrix_inv _ _ _ _ _ HA) as (Hrows & _ & _).
  rewrite <- (conductance_entries_cancel (λ i, fin_val (at_ Φ i))).
  rewrite <- (qsum_by_rows _ _ (gr_nod gr) conductance_entries_rows).
  unfold sp_dot. rewrite <- list_fmap_compose. simpl. rewrite Hrows. f_equal.
  apply Forall_fmap_ext, Forall_forall. intros i Hi. apply elem_of_seq in Hi.
  unfold compose.
  assert (is_fin (fsum ((λ e, fmul (e_val e) (at_ Φ (e_col e)))
            <$> row_entries i (sp_entries (system_matrix A0)))) = true) as Hfin.
  { rewrite Forall_forall in HQ. apply HQ.
    apply (list_elem_of_lookup_2 _ i). apply sp_dot_lookup. simpl. lia. }
  apply is_fin_Fin in Hfin. revert Hfin. generalize (fin_val (fsum ((λ e, fmul (e_val e)
    (at_ Φ (e_col e))) <$> row_entries i (sp_entries (system_matrix A0))))).
  intros q Hq. transitivity q; [apply fin_val_Fin; exact Hq|].
  rewrite system_matrix_row in Hq by lia.
  apply row_product_faces in Hq as (_ & _ & ->). f_equal.
  apply Forall_fmap_ext, Forall_forall. intros e He.
  unfold row_entries in He. apply list_elem_of_filter in He as [-> _]. done.
Qed.
End Balance.

Section WaterBalance.
Variable np_pi : xq.
Variable np_log : xq → xq.
Variable spsolve : spmatrix xq → list xq → option (list xq).

(** The water balance of the whole model (lines 138-143 and 175): in
    exact arithmetic the net inflows [Q] that a step reports for the cells
    add up to zero whenever they are all finite, for every grid, every
    numbering of the cells and every solver: what leaves one cell through
    a face enters its neighbour. *)
Theorem net_inflows_add_up_to_zero σ gr t kxyz Ss FQ HI IBOUND eps σ' out n Qn :
  fdm3t np_pi np_log spsolve σ gr t kxyz Ss FQ HI IBOUND eps = (σ', Ok out) →
  Q out !! n = Some Qn → Forall (λ q, is_fin q = true) Qn →
  fsum Qn = Fin (Q2Qc 0).
Proof.
  intros H HQ Hfin.
  destruct (fdm3t_step _ _ _ _ _ _ _ _ _ _ _ _ _ _ n Qn H HQ)
    as (k & kx & ky & kz & ss & fq & s & dt & prev & o & _ & _ & _ & _ & _ & _ & Hs
        & _ & _ & _ & Hstep & _ & HQ' & _).
  assert (Qn = st_Q o) as -> by congruence.
  pose proof (build_setup_faces _ _ _ _ _ _ _ _ _ _ Hs) as (Lx & Ly & Lz).
  pose proof (build_setup_inv _ _ _ _ _ _ _ _ _ _ Hs) as (Hgr & _).
  assert (∃ A0, conductance_matrix gr (s_Cx s) (s_Cy s) (s_Cz s) = Ok A0
                ∧ s_A s = system_matrix A0) as (A0 & HA0 & HA).
  { unfold build_setup in Hs. apply bind_Ok in Hs as (A0 & HA0 & Hs). injection Hs as <-.
    by exists A0. }
  apply time_step_inv in Hstep as (RHS & sol & Pit & Pa & Pf & _ & _ & _ & _ & _ & ->).
  simpl in *. rewrite HA in *.
  by eapply total_net_flow.
Qed.
End WaterBalance.

Lemma net_inflows_add_up_to_zero_witness : fsum (Q out4 !!! 0) = Fin (Q2Qc 0).
Proof.
  pose proof (net_inflows_add_up_to_zero (Fin (qfrac 355 113)) (λ _, NaN) exact_solve
    store4 gr4 [qn 0; qn 1] (KArray l_K) l_Ss l_FQ l_HI IBOUND4 (qn 1) store4 out4
    0 (Q out4 !!! 0) run4_returns) as H.
  apply H.
  - vm_compute. reflexivity.
  - vm_compute. repeat constructor.
Defined.

(** * Flows between cells that are not active *)

Section FixedFaces.
Context {F : Type} {HN : Num F}.
Variable np_pi : F.
Variable np_log : F → F.
Variable spsolve : spmatrix F → list F → option (list F).

(** The face flows are computed before the fixed heads are written into
    the head of the step (lines 175-189): across a face between two cells
    that are not active (fixed-head or inactive) the flow is the
    conductance of the face times the difference 0 - 0, whatever the heads
    of the two cells are. *)
Theorem face_flow_between_cells_not_active σ gr t kxyz Ss FQ HI IBOUND eps σ' out k
    kx ky kz n Qxn Qyn Qzn z y x v :
  fdm3t np_pi np_log spsolve σ gr t kxyz Ss FQ HI IBOUND eps = (σ', Ok out) →
  unpack_kxyz kxyz = Ok k →
  σ' !! k.1.1 = Some kx → σ' !! k.1.2 = Some ky → σ' !! k.2 = Some kz →
  Qx out !! n = Some Qxn → Qy out !! n = Some Qyn → Qz out !! n = Some Qzn →
  z < nz gr → y < ny gr → x < nx gr →
  data IBOUND !! idx3 (ny gr) (nx gr) z y x = Some v → (v ≤ 0)%Z →
  let R := half_resistances np_pi np_log gr (data kx) (data ky) (data kz)
             ((λ v, bool_decide (v = 0)%Z) <$> data IBOUND) in
  (∀ w, x + 1 < nx gr →
     data IBOUND !! idx3 (ny gr) (nx gr) z y (x + 1) = Some w → (w ≤ 0)%Z →
     cell (ny gr) (nx gr - 1) Qxn z y x
     = fmul (fopp (fsub f0 f0)) (cell (ny gr) (nx gr - 1) (conductance_x gr R) z y x))
  ∧ (∀ w, y + 1 < ny gr →
       data IBOUND !! idx3 (ny gr) (nx gr) z (y + 1) x = Some w → (w ≤ 0)%Z →
       cell (ny gr - 1) (nx gr) Qyn z y x
       = fmul (fsub f0 f0) (cell (ny gr - 1) (nx gr) (conductance_y gr R) z y x))
  ∧ (∀ w, z + 1 < nz gr →
       data IBOUND !! idx3 (ny gr) (nx gr) (z + 1) y x = Some w → (w ≤ 0)%Z →
       cell (ny gr) (nx gr) Qzn z y x
       = fmul (fsub f0 f0) (cell (ny gr) (nx gr) (conductance_z gr R) z y x)).
Proof.
  intros H Hk Hkx Hky Hkz HQx HQy HQz Hz Hy Hx Hv Hle. cbv zeta.
  assert (∃ Qn, Q out !! n = Some Qn) as [Qn HQ].
  { apply lookup_lt_is_Some. apply lookup_lt_Some in HQx.
    apply fdm3t_flow_lengths in H as (_ & _ & ? & _). lia. }
  destruct (fdm3t_step _ _ _ _ _ _ _ _ _ _ _ _ _ _ n Qn H HQ)
    as (k' & kx' & ky' & kz' & ss & fq & s & dt & prev & o & Hkx' & Hky' & Hkz' & _ & _ & Hn
        & Hs & _ & _ & Lp & Hstep & _ & _ & _ & HQx' & HQy' & HQz' & Hk' & _).
  assert (k' = k) as -> by congruence.
  assert (kx' = kx) as -> by congruence. assert (ky' = ky) as -> by congruence.
  assert (kz' = kz) as -> by congruence.
  assert (Qxn = st_Qx o) as -> by congruence. assert (Qyn = st_Qy o) as -> by congruence.
  assert (Qzn = st_Qz o) as -> by congruence.
  pose proof (build_setup_inv _ _ _ _ _ _ _ _ _ _ Hs) as (Hgr & _ & Ha & _).
  assert (s_Cx s = conductance_x gr (half_resistances np_pi np_log gr (data kx)
                     (data ky) (data kz) ((λ v, bool_decide (v = 0)%Z) <$> data IBOUND))
          ∧ s_Cy s = conductance_y gr (half_resistances np_pi np_log gr (data kx)
                     (data ky) (data kz) ((λ v, bool_decide (v = 0)%Z) <$> data IBOUND))
          ∧ s_Cz s = conductance_z gr (half_resistances np_pi np_log gr (data kx)
                     (data ky) (data kz) ((λ v, bool_decide (v = 0)%Z) <$> data IBOUND)))
    as (ECx & ECy & ECz).
  { unfold build_setup in Hs. apply bind_Ok in Hs as (A0 & HA0 & Hs). by injection Hs as <-. }
  apply time_step_inv in Hstep as (RHS & sol & Pit & Pa & Pf & _ & _ & Hit & _ & _ & ->).
  simpl. rewrite Hgr in *. rewrite ECx, ECy, ECz.
  assert (∀ i u, data IBOUND !! i = Some u → (u ≤ 0)%Z → at_ Pit i = f0) as Hzero.
  { intros i u Hu Hle'. unfold at_.
    rewrite (provisional_head_zero _ _ _ _ i Hit); [done|by rewrite Ha, length_fmap|].
    rewrite Ha, list_lookup_fmap, Hu. simpl. f_equal. apply bool_decide_eq_false. lia. }
  repeat split; intros w Hlt Hw Hlew.
  - unfold face_flows_x. rewrite cell_tab3 by lia. unfold cell at 1 2.
    by rewrite (Hzero _ _ Hv Hle), (Hzero _ _ Hw Hlew).
  - unfold face_flows_y. rewrite cell_tab3 by lia. unfold cell at 1 2.
    by rewrite (Hzero _ _ Hv Hle), (Hzero _ _ Hw Hlew).
  - unfold face_flows_z. rewrite cell_tab3 by lia. unfold cell at 1 2.
    by rewrite (Hzero _ _ Hv Hle), (Hzero _ _ Hw Hlew).
Qed.
End FixedFaces.

Lemma run3f_returns : run3f = (store3', Ok out3f).
Proof. vm_compute. reflexivity. Qed.

Lemma face_flow_between_cells_not_active_witness :
  cell 1 2 (Qx out3f !!! 0) 0 0 0 = (- (0 - 0) * 1)%float.
Proof.
  pose proof (face_flow_between_cells_not_active pi64 log_unused dense_solve store3 gr3
    [0; 1]%float (KArray l_K) l_Ss l_FQ l_HI IBOUND3f 1%float store3' out3f (l_K, l_K, l_K)
    (arr3 [1; 1; ftiny]%float) (arr3 [1; 1; ftiny]%float) (arr3 [1; 1; ftiny]%float)
    0 (Qx out3f !!! 0) (Qy out3f !!! 0) (Qz out3f !!! 0) 0 0 0 (-1)%Z run3f_returns) as H.
  destruct H as (H & _).
  - reflexivity.
  - vm_compute. reflexivity.
  - vm_compute. reflexivity.
  - vm_compute. reflexivity.
  - vm_compute. reflexivity.
  - vm_compute. reflexivity.
  - vm_compute. reflexivity.
  - simpl. lia.
  - simpl. lia.
  - simpl. lia.
  - reflexivity.
  - lia.
  - etrans; [apply (H (-1)%Z); [simpl; lia|reflexivity|lia]|].
    vm_compute. reflexivity.
Defined.

Lemma fdm3t_kxyz_forms_witness :
  ∃ msg, fdm3t pi64 log_unused dense_solve store3 gr3 [0; 1; 2]%float (KTuple [l_K; l_K])
           l_Ss l_FQ l_HI IBOUND3 1%float = (store3, Raise (ValueError msg)).
Proof.
  apply (proj1 (proj2 (fdm3t_kxyz_forms pi64 log_unused dense_solve store3 gr3
                         [0; 1; 2]%float l_Ss l_FQ l_HI IBOUND3 1%float))).
  simpl. lia.
Defined.

Lemma run4f_returns : run4f = (store4f, Ok out4f).
Proof. vm_compute. reflexivity. Qed.

(** The product of line 172, [(A + sp.diags(Cs / dt))[:, fxhd].dot(Phi[fxhd])],
    for an active cell whose row of the conductance matrix holds the
    faces [fs]: only the faces to fixed-head cells are left in it. *)
Lemma fixed_head_row {F} `{Num F} (M D : spmatrix F) (fs : list (nat * nat * F))
    (m : list bool) (w : list F) i d :
  row_entries i (sp_entries M) = ((λ e, (e.1, fopp e.2)) <$> fs) ++ [(i, i, d)] →
  (∀ e, e ∈ row_entries i (sp_entries D) → e_col e = i) →
  m !! i = Some false → length w = length m →
  (λ e, fmul (e_val e) (at_ (mask_select m w) (e_col e)))
    <$> row_entries i (sp_entries (sp_take_cols (sp_add M D) m))
  = (λ e, fmul (fopp (e_val e)) (at_ w (e_col e)))
      <$> filter (λ e, m !! e_col e = Some true) fs.
Proof.
  intros HM HD Hi Hw.
  rewrite row_entries_take_cols. unfold sp_add. simpl.
  rewrite row_entries_app, HM, !filter_app.
  rewrite (filter_cons_False _ (i, i, d)) by (unfold e_col; simpl; congruence).
  rewrite filter_nil, app_nil_r.
  rewrite (filter_none _ (row_entries i (sp_entries D))), app_nil_r.
  2:{ intros e He. rewrite (HD e He). congruence. }
  rewrite <- list_fmap_compose. clear HM.
  induction fs as [|[[r c] v] fs IH]; [done|].
  rewrite fmap_cons. unfold e_col at 1. simpl.
  destruct (decide (m !! c = Some true)) as [Hc|Hc].
  - rewrite !filter_cons_True by done. rewrite !fmap_cons. f_equal; [|apply IH].
    unfold compose, e_val, e_col, at_. simpl. by rewrite lookup_select_rank.
  - rewrite !filter_cons_False by done. apply IH.
Qed.

Section FixedHeadBalance.
Variable np_pi : xq.
Variable np_log : xq → xq.
Variable spsolve : spmatrix xq → list xq → option (list xq).

(** Conservation next to fixed heads.  In exact arithmetic, with a solver
    that returns the solution of its system and the cells numbered in
    row-major order, the reported net flow [Q] of an active cell in a step
    is its prescribed flow [FQ] plus its storage release [Qs] plus, for each
    face it shares with a fixed-head cell, the conductance of the face times
    the initial head of that cell: [Q] is computed from heads that are zero
    at the fixed-head cells (lines 172-175), so the water that the fixed
    heads exchange with the cell shows up as this term and not in the face
    flows. *)
Theorem net_flow_next_to_fixed_heads σ gr t kxyz Ss FQ HI IBOUND eps σ' out k kx ky kz ss fq
    P0 n Qn Qsn z y x v q qs :
  solver_exact spsolve →
  standard_numbering gr →
  fdm3t np_pi np_log spsolve σ gr t kxyz Ss FQ HI IBOUND eps = (σ', Ok out) →
  unpack_kxyz kxyz = Ok k →
  σ' !! k.1.1 = Some kx → σ' !! k.1.2 = Some ky → σ' !! k.2 = Some kz →
  σ' !! Ss = Some ss → length (data ss) = gr_nod gr → length (Volume gr) = gr_nod gr →
  σ' !! FQ = Some fq → length (data fq) = gr_nod gr →
  Phi out !! 0 = Some P0 →
  Q out !! n = Some Qn → Qs out !! n = Some Qsn →
  z < nz gr → y < ny gr → x < nx gr →
  data IBOUND !! idx3 (ny gr) (nx gr) z y x = Some v → (0 < v)%Z →
  Qn !! idx3 (ny gr) (nx gr) z y x = Some (Fin q) →
  Qsn !! idx3 (ny gr) (nx gr) z y x = Some (Fin qs) →
  let R := half_resistances np_pi np_log gr (data kx) (data ky) (data kz)
             ((λ v, bool_decide (v = 0)%Z) <$> data IBOUND) in
  let to_fixed :=
    filter (λ e, ((λ v, bool_decide (v < 0)%Z) <$> data IBOUND) !! e_col e = Some true)
      (faces gr (conductance_x gr R) (conductance_y gr R) (conductance_z gr R) z y x) in
  Forall (λ e, is_fin (e_val e) = true ∧ is_fin (at_ P0 (e_col e)) = true) to_fixed
  ∧ ∃ f, data fq !! idx3 (ny gr) (nx gr) z y x = Some (Fin f)
      ∧ q = (f + qs
             + qsum ((λ e, fin_val (e_val e) * fin_val (at_ P0 (e_col e))) <$> to_fixed))%Qc.
Proof.
  intros Hex Hstd H Hk Hkx Hky Hkz Hss Lss LV Hfq Lfq HP0 HQ HQs Hz Hy Hx Hv Hpos Hq Hqs.
  cbv zeta.
  pose proof (fdm3t_slices _ _ _ _ _ _ _ _ _ _ _ _ _ _ H)
    as (hi & Phi0 & _ & HPhi0 & HP0' & _ & Hfix).
  assert (Phi0 = P0) as -> by congruence.
  destruct (fdm3t_step _ _ _ _ _ _ _ _ _ _ _ _ _ _ n Qn H HQ)
    as (k' & kx' & ky' & kz' & ss' & fq' & s & dt & prev & o & Hkx' & Hky' & Hkz' & Hss'
        & Hfq' & Hn & Hs & _ & Hprev & Lp & Hstep & _ & HQ' & HQs' & _ & _ & _ & Hk' & _).
  assert (k' = k) as -> by congruence.
  assert (kx' = kx) as -> by congruence. assert (ky' = ky) as -> by congruence.
  assert (kz' = kz) as -> by congruence.
  assert (ss' = ss) as -> by congruence. assert (fq' = fq) as -> by congruence.
  assert (Qn = st_Q o) as -> by congruence. assert (Qsn = st_Qs o) as -> by congruence.
  pose proof (build_setup_inv _ _ _ _ _ _ _ _ _ _ Hs) as (Hgr & _ & Ha & Hi & Hf & HCs).
  pose proof (build_setup_faces _ _ _ _ _ _ _ _ _ _ Hs) as (Lx & Ly & Lz).
  set (R := half_resistances np_pi np_log gr (data kx) (data ky) (data kz)
              ((λ v, bool_decide (v = 0)%Z) <$> data IBOUND)) in *.
  assert (∃ A0, conductance_matrix gr (s_Cx s) (s_Cy s) (s_Cz s) = Ok A0
                ∧ s_A s = system_matrix A0
                ∧ s_Cx s = conductance_x gr R ∧ s_Cy s = conductance_y gr R
                ∧ s_Cz s = conductance_z gr R) as (A0 & HA0 & HA & ECx & ECy & ECz).
  { unfold build_setup in Hs. apply bind_Ok in Hs as (A0 & HA0 & Hs). injection Hs as <-.
    by exists A0. }
  pose proof (conductance_matrix_inv _ _ _ _ _ HA0) as (Hrows & _ & _).
  set (i := idx3 (ny gr) (nx gr) z y x) in *.
  assert (i < gr_nod gr) as Hilt by (by apply idx3_lt).
  destruct (step_balance spsolve Hex s (data IBOUND) (data fq) dt prev o i v q qs Ha Hf
              ltac:(rewrite Hgr; lia)
              ltac:(rewrite HA; unfold system_matrix, sp_add, sp_neg; simpl; lia)
              ltac:(lia)
              ltac:(rewrite HCs; unfold storage; rewrite length_zip_with; lia)
              ltac:(lia) Hstep Hv Hpos Hq Hqs) as (f & FX & Hf' & HFX & ->).
  rewrite sp_dot_lookup in HFX.
  2:{ unfold sp_take_cols, step_operator, sp_add. simpl. rewrite HA.
      unfold system_matrix, sp_add, sp_neg. simpl. lia. }
  unfold step_operator in HFX.
  rewrite (fixed_head_row (s_A s) _ (faces gr (s_Cx s) (s_Cy s) (s_Cz s) z y x) _ _ i
             (fsum (e_val <$> faces gr (s_Cx s) (s_Cy s) (s_Cz s) z y x))) in HFX.
  - rewrite Hf, ECx, ECy, ECz in HFX. apply (inj Some) in HFX.
    set (fs := filter _ (faces gr _ _ _ z y x)) in *.
    assert (∀ c, ((λ v, bool_decide (v < 0)%Z) <$> data IBOUND) !! c = Some true →
                 at_ prev c = at_ P0 c) as Hsame.
    { intros c Hc. rewrite list_lookup_fmap in Hc.
      destruct (data IBOUND !! c) as [u|] eqn:Hu; [|done]. simpl in Hc.
      injection Hc as Hc. apply bool_decide_eq_true in Hc.
      unfold at_. destruct n as [|m]; [by assert (prev = P0) as -> by congruence|].
      destruct (Hfix m prev Hprev) as (_ & Hfx & _). by rewrite (Hfx c u). }
    assert ((λ e : nat * nat * xq, fmul (fopp (e_val e)) (at_ prev (e_col e))) <$> fs
            = (λ e, fmul (fopp (e_val e)) (at_ P0 (e_col e))) <$> fs) as E.
    { apply Forall_fmap_ext, Forall_forall. intros e He.
      apply list_elem_of_filter in He as [He _]. by rewrite (Hsame _ He). }
    rewrite E in HFX. clear E.
    assert (Forall (λ e : nat * nat * xq,
              is_fin (e_val e) = true ∧ is_fin (at_ P0 (e_col e)) = true) fs) as Hall.
    { assert (is_fin (fsum ((λ e : nat * nat * xq,
                fmul (fopp (e_val e)) (at_ P0 (e_col e))) <$> fs)) = true) as Hfin
        by by rewrite HFX.
      apply fsum_is_fin in Hfin. rewrite Forall_fmap in Hfin.
      eapply Forall_impl; [exact Hfin|]. intros e He. simpl in He.
      apply xq_mul_is_fin in He as [H1 H2]. by rewrite is_fin_opp in H1. }
    split; [exact Hall|]. exists f. split; [done|].
    rewrite fsum_fin in HFX.
    2:{ apply Forall_fmap. eapply Forall_impl; [exact Hall|]. intros e [H1 H2]. simpl.
        by rewrite (is_fin_Fin _ H1), (is_fin_Fin _ H2). }
    assert (∀ a b : Qc, Fin a = Fin b → a = b) as Hinj by (by intros ?? [=]).
    apply Hinj in HFX. rewrite <- HFX. clear Hinj HFX. rewrite <- list_fmap_compose.
    assert (fin_val ∘ (λ e : nat * nat * xq, fmul (fopp (e_val e)) (at_ P0 (e_col e))) <$> fs
            = Qcopp <$> ((λ e, fin_val (e_val e) * fin_val (at_ P0 (e_col e)))%Qc <$> fs))
      as ->.
    { rewrite <- list_fmap_compose. apply Forall_fmap_ext.
      eapply Forall_impl; [exact Hall|]. intros e [H1 H2]. unfold compose.
      rewrite (is_fin_Fin _ H1), (is_fin_Fin _ H2). simpl. ring. }
    rewrite qsum_opp. ring.
  - rewrite HA, system_matrix_row by (rewrite Hrows; done).
    unfold i. by rewrite (conductance_matrix_row gr (s_Cx s) (s_Cy s) (s_Cz s) A0 z y x).
  - intros e He. rewrite row_entries_diags in He.
    destruct (((λ c : xq, fdiv c dt) <$> s_Cs s) !! i); [|by apply elem_of_nil in He].
    apply list_elem_of_singleton in He. by subst e.
  - rewrite Hf, list_lookup_fmap, Hv. simpl. f_equal. apply bool_decide_eq_false. lia.
  - rewrite Hf, length_fmap. lia.
Qed.
End FixedHeadBalance.

Lemma net_flow_next_to_fixed_heads_witness :
  ∃ f, [qn 1; qn 0; qn 0; qn 0] !! 0 = Some (Fin f)
       ∧ qfrac 73 21 = (f + qfrac (-53) 21 + qfrac 5 1)%Qc.
Proof.
  pose proof (net_flow_next_to_fixed_heads
    (Fin (qfrac 355 113)) (λ _, NaN) exact_solve store4f gr4 [qn 0; qn 1]
    (KArray l_K) l_Ss l_FQ l_HI IBOUND4f (qn 1) store4f out4f (l_K, l_K, l_K)
    (arr4 [qn 1; qn 1; qn 1; qn 1]) (arr4 [qn 1; qn 1; qn 1; qn 1])
    (arr4 [qn 1; qn 1; qn 1; qn 1])
    (arr4 [qn 1; qn 1; qn 1; qn 1]) (arr4 [qn 1; qn 0; qn 0; qn 0])
    [qn 0; qn 5; qn 0; qn 0]
    0 (Q out4f !!! 0) (Qs out4f !!! 0) 0 0 0 1%Z (qfrac 73 21) (qfrac (-53) 21)
    exact_solve_exact) as H.
  destruct H as (_ & f & Hf & Heq).
  - reflexivity.
  - exact run4f_returns.
  - reflexivity.
  - reflexivity.
  - reflexivity.
  - reflexivity.
  - reflexivity.
  - reflexivity.
  - reflexivity.
  - reflexivity.
  - reflexivity.
  - vm_compute. reflexivity.
  - vm_compute. reflexivity.
  - vm_compute. reflexivity.
  - simpl. lia.
  - simpl. lia.
  - simpl. lia.
  - vm_compute. reflexivity.
  - lia.
  - vm_compute. f_equal; by apply Fin_canon.
  - vm_compute. f_equal; by apply Fin_canon.
  - exists f. split; [exact Hf|]. etrans; [exact Heq|]. f_equal.
Defined.

(** * The elements and the row sums of the system matrix *)

Lemma qsum_by_cols (G : nat * nat * xq → Qc) (es : list (nat * nat * xq)) n :
  Forall (λ e, e_col e < n) es →
  qsum ((λ j, qsum (G <$> filter (λ e, e_col e = j) es)) <$> seq 0 n) = qsum (G <$> es).
Proof.
  induction 1 as [|e es He _ IH].
  - induction (seq 0 n) as [|i l IHl]; [done|].
    rewrite fmap_cons, qsum_cons, IHl. simpl. ring.
  - rewrite fmap_cons, qsum_cons, <- IH.
    rewrite <- (qsum_pick (G e) (λ j, qsum (G <$> filter (λ e, e_col e = j) es))
                  (e_col e) 0 n) by lia.
    f_equal. apply list_fmap_ext. intros _ i _.
    rewrite filter_cons. destruct (decide (e_col e = i)); by rewrite ?fmap_cons, ?qsum_cons.
Qed.

Section Elements.
Context {F : Type} {HN : Num F}.

(** The elements of the system matrix in any arithmetic: off the diagonal
    the conductances handed over for the place, each with its sign changed,
    added up; on the diagonal those of the place itself, with their sign
    changed, and the sum of the conductances of the row. *)
Lemma system_matrix_elements (gr : Grid F) Cx Cy Cz A0 :
  conductance_matrix gr Cx Cy Cz = Ok A0 →
  (∀ i, i < gr_nod gr →
     (∀ j, j ≠ i →
        sp_get (system_matrix A0) i j
        = fsum (fopp <$> (e_val <$> filter (λ e, e_col e = j) (row_entries i (sp_entries A0)))))
     ∧ sp_get (system_matrix A0) i i
       = fsum ((fopp <$> (e_val <$> filter (λ e, e_col e = i)
                                       (row_entries i (sp_entries A0))))
               ++ [fsum (e_val <$> row_entries i (sp_entries A0))]))
  ∧ (standard_numbering gr →
     length Cx = nz gr * ny gr * (nx gr - 1) →
     length Cy = nz gr * (ny gr - 1) * nx gr →
     length Cz = (nz gr - 1) * ny gr * nx gr →
     ∀ z y x, z < nz gr → y < ny gr → x < nx gr →
       row_entries (idx3 (ny gr) (nx gr) z y x) (sp_entries A0) = faces gr Cx Cy Cz z y x
       ∧ (∀ e, e ∈ faces gr Cx Cy Cz z y x →
            sp_get (system_matrix A0) (idx3 (ny gr) (nx gr) z y x) (e_col e)
            = fadd f0 (fopp (e_val e)))
       ∧ sp_get (system_matrix A0) (idx3 (ny gr) (nx gr) z y x) (idx3 (ny gr) (nx gr) z y x)
         = fadd f0 (fsum (e_val <$> faces gr Cx Cy Cz z y x))).
Proof.
  intros HA. pose proof (conductance_matrix_inv _ _ _ _ _ HA) as (Hrows & _ & _).
  split.
  - intros i Hi. rewrite <- Hrows in Hi. split.
    + intros j Hj. unfold sp_get. rewrite system_matrix_row by done.
      rewrite filter_app, col_filter_fmap_val.
      rewrite (filter_cons_False _ (i, i, _)) by (unfold e_col; simpl; lia).
      rewrite filter_nil, app_nil_r. by rewrite <- !list_fmap_compose.
    + unfold sp_get. rewrite system_matrix_row by done.
      rewrite filter_app, col_filter_fmap_val.
      rewrite (filter_cons_True _ (i, i, _)) by done.
      rewrite filter_nil, fmap_app. by rewrite <- !list_fmap_compose.
  - intros Hs Lx Ly Lz z y x Hz Hy Hx.
    pose proof (conductance_matrix_row gr Cx Cy Cz A0 z y x Hs HA Lx Ly Lz Hz Hy Hx) as Hrow.
    pose proof (faces_cols gr Cx Cy Cz z y x Hz Hy Hx) as [Hnd Hni].
    assert (idx3 (ny gr) (nx gr) z y x < sp_rows A0) as Hi.
    { rewrite Hrows. by apply idx3_lt. }
    split; [done|]. split.
    + intros e He. unfold sp_get. rewrite system_matrix_row by done. rewrite Hrow.
      rewrite filter_app, col_filter_fmap_val, (col_filter_NoDup _ e) by done.
      rewrite filter_cons_False.
      2:{ unfold e_col at 1. simpl. intros E. apply Hni. rewrite E.
          apply list_elem_of_fmap. by exists e. }
      done.
    + unfold sp_get. rewrite system_matrix_row by done. rewrite Hrow.
      rewrite filter_app, col_filter_fmap_val, col_filter_notin by done.
      rewrite filter_cons_True by done. done.
Qed.
End Elements.

Lemma conductance_entries_cols {F} `{Num F} (gr : Grid F) Cx Cy Cz A0 :
  conductance_matrix gr Cx Cy Cz = Ok A0 →
  Forall (λ e, e_col e < gr_nod gr) (sp_entries A0).
Proof.
  intros HA. unfold conductance_matrix, csc_matrix in HA.
  destruct (forallb _ _ && _) eqn:E; [|done]. injection HA as <-. simpl.
  apply andb_true_iff in E as [_ E]. rewrite forallb_forall in E.
  apply Forall_forall. intros [[r c] v] He. unfold e_col. simpl.
  apply elem_of_zip_l, elem_of_zip_r in He.
  apply Nat.ltb_lt. apply E. by apply list_elem_of_In.
Qed.

(** In exact arithmetic the elements of a row with finite conductances
    add up to zero. *)
Lemma row_sum_by_columns_zero (gr : Grid xq) Cx Cy Cz A0 i :
  conductance_matrix gr Cx Cy Cz = Ok A0 →
  i < gr_nod gr →
  Forall (λ e, is_fin (e_val e) = true) (row_entries i (sp_entries A0)) →
  row_sum_by_columns (system_matrix A0) i = Fin (Q2Qc 0).
Proof.
  intros HA Hi Hfin.
  pose proof (conductance_matrix_inv _ _ _ _ _ HA) as (Hrows & Hcols & _).
  pose proof (conductance_entries_cols _ _ _ _ _ HA) as Hbound.
  unfold row_sum_by_columns.
  change (sp_cols (system_matrix A0)) with (sp_cols A0). rewrite Hcols.
  unfold sp_get. rewrite system_matrix_row by lia.
  set (R := ((λ e : nat * nat * xq, (e.1, fopp e.2)) <$> row_entries i (sp_entries A0))
            ++ [(i, i, fsum (e_val <$> row_entries i (sp_entries A0)))]).
  assert (Forall (λ b, is_fin b = true) (e_val <$> row_entries i (sp_entries A0))) as Hvals
    by by apply Forall_fmap.
  assert (Forall (λ e, is_fin (e_val e) = true) R) as HR.
  { apply Forall_app. split.
    - apply Forall_fmap. eapply Forall_impl; [exact Hfin|]. intros e He.
      unfold compose, e_val in *. simpl. by rewrite is_fin_opp.
    - apply Forall_singleton. unfold e_val at 1. simpl. by rewrite fsum_fin. }
  assert (Forall (λ e, e_col e < gr_nod gr) R) as HRc.
  { apply Forall_app. split.
    - apply Forall_fmap. apply Forall_filter_keep.
      eapply Forall_impl; [exact Hbound|]. by intros [[r c] v].
    - by apply Forall_singleton. }
  assert ((λ j, fsum (e_val <$> filter (λ e, e_col e = j) R)) <$> seq 0 (gr_nod gr)
          = (λ j, Fin (qsum ((λ e, fin_val (e_val e)) <$> filter (λ e, e_col e = j) R)))
              <$> seq 0 (gr_nod gr)) as ->.
  { apply list_fmap_ext. intros _ j _. rewrite fsum_fin.
    - by rewrite <- list_fmap_compose.
    - apply Forall_fmap. by apply Forall_filter_keep. }
  rewrite (fsum_Fin_map (λ j, qsum ((λ e, fin_val (e_val e)) <$> filter (λ e, e_col e = j) R))).
  rewrite qsum_by_cols by done.
  f_equal. unfold R. rewrite fmap_app, qsum_app, <- list_fmap_compose.
  simpl. unfold e_val at 2. simpl. rewrite fsum_fin by done. simpl.
  assert ((λ e : nat * nat * xq, fin_val (e_val e)) ∘ (λ e, (e.1, xq_opp e.2))
            <$> row_entries i (sp_entries A0)
          = Qcopp <$> (fin_val <$> ((λ e : nat * nat * xq, e.2)
                                      <$> row_entries i (sp_entries A0)))) as ->.
  { rewrite <- !list_fmap_compose. apply list_fmap_ext. intros _ [[r c] v] _.
    unfold compose, e_val. simpl. apply fin_val_opp. }
  rewrite qsum_opp. ring.
Qed.

(** Claim C4 as amended, the system matrix.  For the matrix [A] assembled
    from the conductances:
    - in any arithmetic and whatever the numbering of the cells, the entry
      [A[i, j]], j ≠ i, is the sum of all conductances handed over for the
      place (i, j), each with its sign changed (duplicates add up, none is
      overwritten), and [A[i, i]] adds the sum of the conductances of the
      row to those of the place (i, i); with the numbering of a grid the
      row of cell (z, y, x) holds exactly the faces of the cell, [A[i, j]]
      is [0 + (-C)] for the conductance [C] of the face between [i] and
      its neighbour [j], and [A[i, i]] is 0 plus the sum of the
      conductances of the faces of the cell, as the arithmetic computes
      them;
    - in exact arithmetic, in a row whose conductances are finite,
      [A[i, j]] is minus the conductance at (i, j), the diagonal is the sum
      of the conductances of the row less those of the place (i, i), and
      the row sums to exactly zero, both as [A.sum(axis=1)] and with its
      elements added in the order of the columns. *)
Theorem system_matrix_is_conductance_network :
  (∀ (F : Type) (HN : Num F) (gr : Grid F) Cx Cy Cz A0,
     conductance_matrix gr Cx Cy Cz = Ok A0 →
     (∀ i, i < gr_nod gr →
        (∀ j, j ≠ i →
           sp_get (system_matrix A0) i j
           = fsum (fopp <$> (e_val <$> filter (λ e, e_col e = j)
                                         (row_entries i (sp_entries A0)))))
        ∧ sp_get (system_matrix A0) i i
          = fsum ((fopp <$> (e_val <$> filter (λ e, e_col e = i)
                                          (row_entries i (sp_entries A0))))
                  ++ [fsum (e_val <$> row_entries i (sp_entries A0))]))
     ∧ (standard_numbering gr →
        length Cx = nz gr * ny gr * (nx gr - 1) →
        length Cy = nz gr * (ny gr - 1) * nx gr →
        length Cz = (nz gr - 1) * ny gr * nx gr →
        ∀ z y x, z < nz gr → y < ny gr → x < nx gr →
          row_entries (idx3 (ny gr) (nx gr) z y x) (sp_entries A0) = faces gr Cx Cy Cz z y x
          ∧ (∀ e, e ∈ faces gr Cx Cy Cz z y x →
               sp_get (system_matrix A0) (idx3 (ny gr) (nx gr) z y x) (e_col e)
               = fadd f0 (fopp (e_val e)))
          ∧ sp_get (system_matrix A0) (idx3 (ny gr) (nx gr) z y x)
              (idx3 (ny gr) (nx gr) z y x)
            = fadd f0 (fsum (e_val <$> faces gr Cx Cy Cz z y x))))
  ∧ (∀ (gr : Grid xq) Cx Cy Cz A0,
       conductance_matrix gr Cx Cy Cz = Ok A0 →
       (∀ i, i < gr_nod gr →
          Forall (λ e, is_fin (e_val e) = true) (row_entries i (sp_entries A0)) →
          (∀ j, j ≠ i → sp_get (system_matrix A0) i j = xq_opp (sp_get A0 i j))
          ∧ sp_get (system_matrix A0) i i
            = xq_sub (fsum (e_val <$> row_entries i (sp_entries A0))) (sp_get A0 i i)
          ∧ sp_row_sums (system_matrix A0) !! i = Some (Fin (Q2Qc 0))
          ∧ row_sum_by_columns (system_matrix A0) i = Fin (Q2Qc 0))
       ∧ (standard_numbering gr →
          length Cx = nz gr * ny gr * (nx gr - 1) →
          length Cy = nz gr * (ny gr - 1) * nx gr →
          length Cz = (nz gr - 1) * ny gr * nx gr →
          ∀ z y x, z < nz gr → y < ny gr → x < nx gr →
            row_entries (idx3 (ny gr) (nx gr) z y x) (sp_entries A0)
            = faces gr Cx Cy Cz z y x
            ∧ (∀ e, e ∈ faces gr Cx Cy Cz z y x →
                 sp_get A0 (idx3 (ny gr) (nx gr) z y x) (e_col e) = e_val e
                 ∧ sp_get (system_matrix A0) (idx3 (ny gr) (nx gr) z y x) (e_col e)
                   = xq_opp (e_val e))
            ∧ sp_get (system_matrix A0) (idx3 (ny gr) (nx gr) z y x)
                (idx3 (ny gr) (nx gr) z y x)
              = fsum (e_val <$> faces gr Cx Cy Cz z y x))).
Proof.
  split.
  - intros F HN gr Cx Cy Cz A0 HA. by apply system_matrix_elements.
  - intros gr Cx Cy Cz A0 HA.
    destruct (system_matrix_exact gr Cx Cy Cz A0 HA) as [H1 H2].
    split; [|exact H2].
    intros i Hi Hfin. destruct (H1 i Hi Hfin) as (Ha & Hb & Hc).
    split; [exact Ha|]. split; [exact Hb|]. split; [exact Hc|].
    by eapply row_sum_by_columns_zero.
Qed.

Lemma system_matrix_is_conductance_network_witness :
  conductance_matrix gr4 Cx4 Cy4 [] = Ok A4
  ∧ sp_row_sums (system_matrix A4) !! 0 = Some (Fin (Q2Qc 0))
  ∧ row_sum_by_columns (system_matrix A4) 0 = Fin (Q2Qc 0)
  ∧ row_entries 0 (sp_entries A4) = [(0, 1, qn 1); (0, 2, qn 3)]
  ∧ sp_get (system_matrix A4) 0 1 = xq_opp (qn 1)
  ∧ sp_get (system_matrix A4) 0 2 = xq_opp (qn 3)
  ∧ sp_get (system_matrix A4) 0 0 = fsum [qn 1; qn 3].
Proof.
  assert (conductance_matrix gr4 Cx4 Cy4 [] = Ok A4) as HA by (vm_compute; reflexivity).
  destruct (proj2 system_matrix_is_conductance_network gr4 Cx4 Cy4 [] A4 HA) as [H1 H2].
  split; [exact HA|].
  destruct (H1 0 ltac:(vm_compute; lia)) as (_ & _ & Hsum & Hcols).
  { vm_compute. repeat constructor. }
  split; [exact Hsum|]. split; [exact Hcols|].
  destruct (H2 eq_refl eq_refl eq_refl eq_refl 0 0 0) as (Hrow & Hoff & Hdiag);
    [simpl; lia..|].
  split; [exact Hrow|].
  split; [|split].
  - apply (Hoff (0, 1, qn 1)). apply list_elem_of_In. vm_compute. auto.
  - apply (Hoff (0, 2, qn 3)). apply list_elem_of_In. vm_compute. auto.
  - exact Hdiag.
Defined.

(** Claim C4 fails in the program's arithmetic.  With the conductivities
    1, 2, 5 in the three cells of [gr3] the middle row of [A] holds
    -1.3333333333333333, 4.1904761904761907 (the rounded sum of the two
    conductances) and -2.8571428571428572, and its elements add up to
    2^-51, not to zero.  With an infinite conductance a row holds -inf and
    inf and adds up to NaN. *)
Lemma row_sum_is_not_zero_in_binary64 :
  (λ j, sp_get (A_of K125) 1 j) <$> [0; 1; 2]
  = [-0x1.5555555555555p+0; 0x1.0c30c30c30c31p+2; -0x1.6db6db6db6db7p+1]%float
  ∧ row_sum_by_columns (A_of K125) 1 = 0x1p-51%float
  ∧ row_sum_by_columns (A_of K125) 1 ≠ 0%float
  ∧ (λ j, sp_get (A_of Kinf) 0 j) <$> [0; 1; 2] = [infinity; neg_infinity; 0]%float
  ∧ PrimFloat.is_nan (row_sum_by_columns (A_of Kinf) 0) = true.
Proof.
  split; [vm_compute; reflexivity|].
  split; [vm_compute; reflexivity|].
  split; [|split; vm_compute; reflexivity].
  intros H. vm_compute in H. discriminate.
Qed.

(** * Conservation up to the tolerance of the solver *)

Lemma faces_neighbours {F} `{Num F} (gr : Grid F) Cx Cy Cz z y x :
  e_col <$> faces gr Cx Cy Cz z y x = neighbours gr z y x.
Proof. unfold faces, neighbours. by repeat case_decide. Qed.

Lemma qsum_zeros {A} (g : A → Qc) (l : list A) :
  Forall (λ a, g a = Q2Qc 0) l → qsum (g <$> l) = Q2Qc 0.
Proof.
  induction 1 as [|a l Ha _ IH]; [done|].
  rewrite fmap_cons, qsum_cons, Ha, IH. ring.
Qed.

Section BalanceWithin.
Variable spsolve : spmatrix xq → list xq → option (list xq).
Variable tol : Qc.
Hypothesis Htol : solver_within tol spsolve.

Lemma step_balance_within (s : setup xq) ib FQ dt prev o i v q qs :
  s_active s = (λ v, bool_decide (0 < v)%Z) <$> ib →
  s_fxhd s = (λ v, bool_decide (v < 0)%Z) <$> ib →
  length ib = gr_nod (s_gr s) →
  sp_rows (s_A s) = length ib →
  length FQ = length ib → length (s_Cs s) = length ib → length prev = length ib →
  time_step spsolve s FQ dt prev = Ok o →
  ib !! i = Some v → (0 < v)%Z →
  st_Q o !! i = Some (Fin q) → st_Qs o !! i = Some (Fin qs) →
  ∃ f FX,
    FQ !! i = Some (Fin f)
    ∧ sp_dot (sp_take_cols (step_operator s dt) (s_fxhd s)) (mask_select (s_fxhd s) prev) !! i
      = Some (Fin FX)
    ∧ (q - (f + qs - FX) ≤ tol)%Qc ∧ ((f + qs - FX) - q ≤ tol)%Qc.
Proof.
  intros Hact Hfxh Hn HA HFQ HCs Hprev Hstep Hi Hv HQ HQs.
  apply time_step_inv in Hstep
    as (RHS & sol & Pit & Pa & Pf & HRHS & Hsol & Hit & _ & _ & ->).
  simpl in HQ, HQs.
  destruct (Htol _ _ _ Hsol) as (Hlen & Hfin & Hres). simpl in Hlen.
  assert (s_active s !! i = Some true) as Hai.
  { rewrite Hact, list_lookup_fmap, Hi. simpl. by rewrite bool_decide_eq_true_2. }
  assert (length (s_active s) = length ib) as Lact by by rewrite Hact, length_fmap.
  pose proof (lookup_lt_Some _ _ _ Hi) as Hilt.
  unfold mask_assign in Hit. rewrite decide_True in Hit by done. injection Hit as <-.
  rewrite <- Hn, <- Lact in HQ, HQs.
  destruct (lookup_lt_is_Some_2 (s_Cs s) i ltac:(lia)) as [c Hc].
  destruct (lookup_lt_is_Some_2 prev i ltac:(lia)) as [p Hp].
  destruct (lookup_lt_is_Some_2 FQ i ltac:(lia)) as [fq Hfq].
  remember (sp_dot (sp_take_cols (step_operator s dt) (s_fxhd s))
              (mask_select (s_fxhd s) prev)) as Dfx eqn:HDfx.
  assert (length Dfx = length ib) as LD.
  { rewrite HDfx, length_sp_dot. simpl. done. }
  destruct (lookup_lt_is_Some_2 Dfx i ltac:(lia)) as [d Hd].
  unfold step_RHS in HRHS. rewrite <- HDfx in HRHS. unfold np_op in HRHS.
  rewrite decide_True in HRHS by lia. injection HRHS as <-.
  (* the row of the reduced system and its right-hand side *)
  pose proof (reduced_row (step_operator s dt) (s_active s) sol i Hai) as E1.
  rewrite (step_operator_row s dt i c Hc) in E1.
  rewrite filter_app, (filter_cons_True _ (i, i, _)) in E1 by done.
  rewrite filter_nil, fmap_app in E1.
  assert (step_vector s dt prev (zip_with fsub FQ Dfx) !! rank (s_active s) i
          = Some (fadd (fsub fq d) (fmul (fdiv c dt) p))) as E2.
  { apply step_vector_lookup; [rewrite length_zip_with; lia|lia|lia|done| |done|done].
    rewrite lookup_zip_with, Hfq, Hd. done. }
  (* the net flow *)
  rewrite sp_dot_lookup in HQ by lia. apply (inj Some) in HQ.
  (* the storage flow *)
  rewrite !lookup_zip_with, list_lookup_fmap, Hc, Hp in HQs.
  rewrite lookup_scatter_true in HQs by (rewrite ?length_replicate; done).
  destruct (sol !! rank (s_active s) i) as [xs|] eqn:Hxs; [|done].
  simpl in HQs. apply (inj Some) in HQs.
  (* what is finite *)
  destruct (xq_mul_is_fin _ _ ltac:(by rewrite HQs)) as [Hc' Hxp].
  apply xq_sub_is_fin in Hxp as [Hx Hpf].
  destruct (xq_div (xq_opp c) dt) as [c'| | |] eqn:Hcd'; try done.
  destruct xs as [x| | |]; try done. destruct p as [pp| | |]; try done.
  apply xq_div_opp_fin in Hcd'. simpl in HQs. injection HQs as <-.
  assert (∀ k, is_fin (at_ sol k) = true) as Hsolfin.
  { intros k. unfold at_. destruct (sol !! k) as [a|] eqn:Hk; [|done].
    simpl. rewrite Forall_forall in Hfin. apply Hfin. by eapply list_elem_of_lookup_2. }
  pose proof (fsum_is_fin _ ltac:(by rewrite HQ)) as HRA.
  rewrite Forall_fmap in HRA.
  assert (Forall (λ e, is_fin (e_val e) = true) (row_entries i (sp_entries (s_A s)))) as Hvals.
  { eapply Forall_impl; [exact HRA|]. intros e He. simpl in He.
    by apply xq_mul_is_fin in He as [? _]. }
  (* the net flow as a sum over the active neighbours *)
  rewrite fsum_fin in HQ by (by apply Forall_fmap).
  injection HQ as <-.
  rewrite <- list_fmap_compose.
  rewrite (qsum_filter_zero (λ e, s_active s !! e_col e = Some true)).
  2:{ intros e He. simpl. rewrite at_scatter_zeros_xq by done.
      destruct (s_active s !! e_col e) as [[|]|]; try done;
        destruct (e_val e); simpl; try done; ring. }
  (* the row of the reduced system *)
  rewrite fsum_fin in E1.
  2:{ apply Forall_app. split.
      - apply Forall_fmap. apply Forall_filter_keep.
        eapply Forall_impl; [exact Hvals|]. intros e He. simpl.
        rewrite (is_fin_Fin _ He), (is_fin_Fin _ (Hsolfin _)). done.
      - simpl. apply Forall_singleton. unfold e_val, e_col. simpl.
        unfold fdiv. simpl. rewrite Hcd', (is_fin_Fin _ (Hsolfin _)). done. }
  destruct (Hres _ _ E1) as (m & Hm & Hle1 & Hle2).
  assert (fadd (fsub fq d) (fmul (fdiv c dt) (Fin pp)) = Fin m) as Hm'
    by (apply (inj Some); rewrite <- E2; exact Hm).
  clear Hm. rename Hm' into Hm.
  assert (is_fin (fadd (fsub fq d) (fmul (fdiv c dt) (Fin pp))) = true) as HR
    by by rewrite Hm.
  apply xq_add_is_fin in HR as [HR _]. apply xq_sub_is_fin in HR as [Hf Hdf].
  destruct fq as [f| | |]; try done. destruct d as [FX| | |]; try done.
  exists f, FX. split; [done|]. split; [done|].
  unfold fdiv in Hm. simpl in Hm. rewrite Hcd' in Hm. simpl in Hm.
  assert (m = (f - FX + - c' * pp)%Qc) as -> by (by injection Hm as <-).
  clear Hm E1.
  rewrite fmap_app, qsum_app in Hle1, Hle2. simpl in Hle1, Hle2.
  rewrite Hcd' in Hle1, Hle2.
  change (e_col (i, i, Fin (- c')%Qc)) with i in Hle1, Hle2.
  assert (at_ sol (rank (s_active s) i) = Fin x) as Hat
    by (unfold at_; by rewrite Hxs).
  rewrite Hat in Hle1, Hle2. simpl in Hle1, Hle2.
  rewrite list_fmap_compose.
  assert (((λ e, xq_mul (e_val e)
                   (at_ (mask_scatter (replicate (length (s_active s)) (Fin (Q2Qc 0)))
                           (s_active s) sol) (e_col e)))
                  <$> filter (λ e, s_active s !! e_col e = Some true)
                        (row_entries i (sp_entries (s_A s))))
          = ((λ e, xq_mul (e_val e) (at_ sol (rank (s_active s) (e_col e))))
                  <$> filter (λ e, s_active s !! e_col e = Some true)
                        (row_entries i (sp_entries (s_A s))))) as ->.
  { apply Forall_fmap_ext, Forall_forall.
    intros e He. apply list_elem_of_filter in He as [He _].
    rewrite at_scatter_zeros_xq by done. by rewrite He. }
  revert Hle1 Hle2.
  generalize (qsum (fin_val <$> ((λ e, xq_mul (e_val e) (at_ sol (rank (s_active s) (e_col e))))
                  <$> filter (λ e, s_active s !! e_col e = Some true)
                        (row_entries i (sp_entries (s_A s)))))).
  intros T Hle1 Hle2. split.
  - assert ((T - (f + c' * (x + - pp) - FX))%Qc
            = (T + (- c' * x + Q2Qc 0) - (f - FX + - c' * pp))%Qc) as -> by ring.
    exact Hle1.
  - assert ((f + c' * (x + - pp) - FX - T)%Qc
            = (f - FX + - c' * pp - (T + (- c' * x + Q2Qc 0)))%Qc) as -> by ring.
    exact Hle2.
Qed.

End BalanceWithin.

Section Conservation.
Variable np_pi : xq.
Variable np_log : xq → xq.
Variable spsolve : spmatrix xq → list xq → option (list xq).

End Conservation.

(** * The small model with a solver that is not exact *)

Lemma run4r_returns : run4r = (store4f, Ok out4r).
Proof. vm_compute. reflexivity. Qed.

Lemma rough_solve_within (tol δ : Qc) :
  (Q2Qc 0 ≤ tol)%Qc → solver_within tol (rough_solve tol δ).
Proof.
  intros Htol M b x H. unfold rough_solve in H.
  destruct (exact_solve M b) as [x0|] eqn:Hx0; [|done].
  destruct (exact_solve_exact _ _ _ Hx0) as (Hdot & Hfin & Hlen).
  destruct (residual_within tol M _ b) eqn:Hres; injection H as <-.
  - split; [by rewrite length_fmap|]. split.
    { apply Forall_fmap. eapply Forall_impl; [exact Hfin|]. by intros [| | |]. }
    intros i r Hr.
    assert (i < sp_rows M) as Hi.
    { apply lookup_lt_Some in Hr. by rewrite length_sp_dot in Hr. }
    unfold residual_within in Hres. rewrite forallb_forall in Hres.
    specialize (Hres i). rewrite Hr in Hres.
    destruct (b !! i) as [[m| | |]|]; try (by discriminate Hres; apply in_seq; lia).
    exists m. split; [done|].
    apply andb_true_iff in Hres as [H1 H2]; [|apply in_seq; lia].
    apply Qle_bool_iff in H1, H2. done.
  - split; [done|]. split; [done|].
    intros i r Hr. rewrite Hdot in Hr. exists r. split; [done|].
    assert ((r - r)%Qc = Q2Qc 0) as -> by ring. done.
Qed.

